(** * fast-wc: a shallow embedding of [competitors/fast-cpp/fast-wc.cpp]

    The program counts word frequencies over the [.c]/[.h] files of a
    directory.  One producer thread ([fopener]) opens files and hands the
    descriptors to [nthreads] workers ([wcounter]) through a ring of
    [FDESCS] slots guarded by two counting semaphores.  Every worker
    tokenizes the files it claims into a private table; the tables are
    then summed, either by [main] or by the workers themselves in a
    binary tree, and [main] prints them ordered by [DefineSortOrder].

    The development follows the source file from top to bottom. *)

From Stdlib Require Import ZArith Ascii String List Lia Bool.
From stdpp Require Import base gmap strings list fin_maps sorting.

Local Open Scope Z_scope.

(** ** Machine integers *)

(** [int] is a 32-bit two's complement integer.  Arithmetic on it is
    written with the wrap-around spelled out. *)
Definition wrap_int (z : Z) : Z := (z + 2 ^ 31) mod 2 ^ 32 - 2 ^ 31.

Definition is_int (z : Z) : Prop := - 2 ^ 31 <= z < 2 ^ 31.

Definition INT_MAX : Z := 2 ^ 31 - 1.

(** ** Global constants (lines 19-22) *)

Definition MAXTHREADS : Z := 64.
Definition FDESCS : Z := MAXTHREADS.
Definition BASICBLOCK : Z := 1024.

(** Size of one row of [buffers]: [BASICBLOCK * 128] bytes. *)
Definition BUFFER_BYTES : nat := Z.to_nat (BASICBLOCK * 128).

(** ** The token classifier (lines 24, 194, 314-318) *)

Definition NUL : ascii := Ascii.zero.

Definition token_alphabet : string :=
  "abcdefghijklmnopqrstuvwxyzABCDEFGHIJKLMNOPQRSTUVWXYZ0123456789_".

(** [token_chars] is a zero-initialised array of 512 [char]s; [main] sets
    the entry of every character of the alphabet to 1. *)
Definition token_chars : list Z :=
  foldl (fun t c => <[nat_of_ascii c := 1]> t)
        (replicate 512 0) (list_ascii_of_string token_alphabet).

(** [token_chars[0xFF & (unsigned)buffer[cptr]] == 1] *)
Definition is_token (c : ascii) : bool :=
  bool_decide (token_chars !! N.to_nat (N.land 255 (N_of_ascii c)) = Some 1).

(** ** Word-count tables (lines 47-52) *)

(** [std::map<std::string, int>]. *)
Abbreviation WordCount := (gmap string Z).

(** [m[w]] read as an rvalue: a missing key reads as a
    value-initialised [int]. *)
Definition count_of (m : WordCount) (w : string) : Z := default 0 (m !! w).

(** [m[w] += c]. *)
Definition add_count (m : WordCount) (w : string) (c : Z) : WordCount :=
  <[w := wrap_int (count_of m w + c)]> m.

(** ** C strings in a [char] array *)

(** The bytes from the start of [l] up to the first NUL. *)
Fixpoint until_nul (l : list ascii) : list ascii :=
  match l with
  | [] => []
  | c :: l' => if Ascii.eqb c NUL then [] else c :: until_nul l'
  end.

(** The C string that starts at offset [off] of [buf]. *)
Definition c_str (buf : list ascii) (off : nat) : list ascii :=
  until_nul (drop off buf).

(** ** Diagnostics printed by the worker *)

Inductive diagnostic :=
| WordTooLong (prefix suffix : list ascii) (len : Z).

(** What one worker accumulates while it scans: its own [sub_count[n]],
    what it printed, and its contribution to the two global scan
    counters. *)
Record tally := Tally {
  sub_count : WordCount;
  printed : list diagnostic;
  blocks_scanned : Z;
  bytes_scanned : Z
}.

Definition with_sub_count (f : WordCount -> WordCount) (t : tally) : tally :=
  Tally (f (sub_count t)) (printed t) (blocks_scanned t) (bytes_scanned t).

Definition print (d : diagnostic) (t : tally) : tally :=
  Tally (sub_count t) (printed t ++ [d]) (blocks_scanned t) (bytes_scanned t).

(** ** [found] (lines 101-104): [sub_count[tn][std::string(word)]++] *)

Definition found (t : tally) (word : list ascii) : tally :=
  with_sub_count
    (fun m => add_count m (string_of_list_ascii (c_str word 0)) 1) t.

(** ** [found] for a split word (lines 108-124) *)

Definition found_split (t : tally) (prefix suffix : list ascii) : tally :=
  let plen := Z.of_nat (length (c_str prefix 0)) in
  let slen := Z.of_nat (length (c_str suffix 0)) in
  if Z.leb 1023 (plen + slen) then
    print (WordTooLong (c_str prefix 0) (c_str suffix 0) (plen + slen)) t
  else
    (* memcpy(word, prefix, plen); memcpy(word + plen, suffix, slen + 1) *)
    let word := take (Z.to_nat plen) prefix
                ++ take (Z.to_nat slen + 1) suffix in
    found t word.

(** ** [found_something] (lines 237-264)

    [prefix] is either null or points to [prefix_copy]; the model keeps
    the bytes of [prefix_copy] when it is not null.  [sptr] is [None]
    for [-1]. *)

Definition found_something (buffer : list ascii)
    (prefix : option (list ascii)) (sptr : option nat) (t : tally)
  : option (list ascii) * option nat * tally :=
  match prefix with
  | Some p =>
      match sptr with
      | Some s => (None, None, found_split t p (drop s buffer))
      | None => (None, None, found t p)
      end
  | None =>
      match sptr with
      | Some s => (None, None, found t (drop s buffer))
      | None => (None, None, t)
      end
  end.

(** ** The scanning loop of [wcounter] (lines 186-212)

    [k] counts the iterations that remain, [nbytes - cptr]. *)

Fixpoint scan_block (k cptr : nat) (buffer : list ascii)
    (prefix : option (list ascii)) (sptr : option nat) (t : tally)
  : list ascii * option (list ascii) * option nat * tally :=
  match k with
  | O => (buffer, prefix, sptr, t)
  | S k' =>
      match buffer !! cptr with
      | None => (buffer, prefix, sptr, t)
      | Some c =>
          if is_token c then
            scan_block k' (S cptr) buffer prefix
              (match sptr with None => Some cptr | Some _ => sptr end) t
          else
            let buffer' := <[cptr := NUL]> buffer in
            let '(prefix', _, t') := found_something buffer' prefix sptr t in
            scan_block k' (S cptr) buffer' prefix' None t'
      end
  end.

(** ** Saving the word fragment at the end of a block (lines 214-221)

    [prefix_copy] has 1024 bytes, so the copy and its terminator fit only
    when [len <= 1023]; a longer fragment writes past the array, which
    the model reports as [None]. *)

Definition save_fragment (nbytes : nat) (buffer : list ascii)
    (prefix : option (list ascii)) (sptr : option nat)
  : option (option (list ascii) * option nat) :=
  match sptr with
  | Some s =>
      let len := Z.of_nat nbytes - Z.of_nat s in
      if Z.leb 1024 len then None
      else Some (Some (take (Z.to_nat len) (drop s buffer) ++ [NUL]), None)
  | None => Some (prefix, None)
  end.

(** ** One file (lines 174-225)

    [blocks] lists what the successive [read] calls return, up to the
    call that returns 0.  A [read] of [nbytes] bytes overwrites the first
    [nbytes] bytes of the worker's buffer. *)

Definition read_into (buffer block : list ascii) : list ascii :=
  block ++ drop (length block) buffer.

Fixpoint read_loop (blocks : list (list ascii)) (buffer : list ascii)
    (prefix : option (list ascii)) (sptr : option nat) (t : tally)
  : option (list ascii * tally) :=
  match blocks with
  | [] =>
      let '(_, _, t') := found_something buffer prefix sptr t in
      Some (buffer, t')
  | block :: rest =>
      let nbytes := length block in
      let buffer := <[nbytes := NUL]> (read_into buffer block) in
      let t := Tally (sub_count t) (printed t)
                     (wrap_int (blocks_scanned t + 1))
                     (wrap_int (bytes_scanned t + Z.of_nat nbytes)) in
      let '(buffer, prefix, sptr, t) :=
        scan_block nbytes 0 buffer prefix sptr t in
      match save_fragment nbytes buffer prefix sptr with
      | None => None
      | Some (prefix, sptr) => read_loop rest buffer prefix sptr t
      end
  end.

(** One pass of the outer loop of [wcounter] on a real descriptor:
    [prefix] and [sptr] start as null and -1 for every file. *)
Definition wcounter_file (blocks : list (list ascii))
    (buffer : list ascii) (t : tally) : option (list ascii * tally) :=
  read_loop blocks buffer None None t.

(** What [read(fdesc, buffer, BLOCKSIZE)] returns on a regular file of
    content [content]: blocks of [BLOCKSIZE] bytes, the last one
    shorter. *)
Fixpoint reads_of_fuel (fuel BLOCKSIZE : nat) (content : list ascii)
  : list (list ascii) :=
  match fuel with
  | O => []
  | S fuel' =>
      match take BLOCKSIZE content with
      | [] => []
      | block => block :: reads_of_fuel fuel' BLOCKSIZE (drop BLOCKSIZE content)
      end
  end.

Definition reads_of (BLOCKSIZE : nat) (content : list ascii)
  : list (list ascii) :=
  reads_of_fuel (length content) BLOCKSIZE content.

(** The buffer of a worker before its first read: [buffers] is
    zero-initialised. *)
Definition fresh_buffer : list ascii := replicate BUFFER_BYTES NUL.

Definition empty_tally : tally := Tally ∅ [] 0 0.

(** ** The tokenizer, seen from the bytes

    The same computation without the buffer: [cur] is the run of word
    bytes that is open at the current position, [p] the string held in
    [prefix_copy] when [prefix] is not null. *)

(** One more occurrence of the word [w]. *)
Definition record (t : tally) (w : list ascii) : tally :=
  with_sub_count (fun m => add_count m (string_of_list_ascii w) 1) t.

Definition glue (t : tally) (pre cur : list ascii) : tally :=
  let len := Z.of_nat (length pre) + Z.of_nat (length cur) in
  if Z.leb 1023 len then print (WordTooLong pre cur len) t
  else record t (pre ++ cur).

Definition emit (p : option (list ascii)) (cur : list ascii) (t : tally)
  : tally :=
  match p, cur with
  | Some pre, [] => record t pre
  | Some pre, _ => glue t pre cur
  | None, [] => t
  | None, _ => record t cur
  end.

Fixpoint abs_scan (p : option (list ascii)) (cur rest : list ascii)
    (t : tally) : option (list ascii) * list ascii * tally :=
  match rest with
  | [] => (p, cur, t)
  | c :: rest' =>
      if is_token c then abs_scan p (cur ++ [c]) rest' t
      else abs_scan None [] rest' (emit p cur t)
  end.

Definition bump (nbytes : nat) (t : tally) : tally :=
  Tally (sub_count t) (printed t)
        (wrap_int (blocks_scanned t + 1))
        (wrap_int (bytes_scanned t + Z.of_nat nbytes)).

Fixpoint abs_blocks (p : option (list ascii)) (t : tally)
    (blocks : list (list ascii)) : option tally :=
  match blocks with
  | [] => Some (emit p [] t)
  | b :: bs =>
      let '(p', cur', t') := abs_scan p [] b (bump (length b) t) in
      match cur' with
      | [] => abs_blocks p' t' bs
      | _ => if Z.leb 1024 (Z.of_nat (length cur')) then None
             else abs_blocks (Some cur') t' bs
      end
  end.

(** ** Words as the specification describes them

    A word is a maximal run of bytes that the classifier accepts.
    [maximal_runs cur l] lists the runs of [l] in order, [cur] being a
    run already open when [l] starts. *)

Definition close_run (cur : list ascii) : list (list ascii) :=
  match cur with [] => [] | _ => [cur] end.

Fixpoint maximal_runs (cur l : list ascii) : list (list ascii) :=
  match l with
  | [] => close_run cur
  | c :: l' =>
      if is_token c then maximal_runs (cur ++ [c]) l'
      else close_run cur ++ maximal_runs [] l'
  end.

(** The words of a file, from its bytes alone. *)
Definition words_of (content : list ascii) : list (list ascii) :=
  maximal_runs [] content.

(** Counting a list of words into a table, one [++] per occurrence. *)
Definition count_words (m : WordCount) (ws : list (list ascii)) : WordCount :=
  foldl (fun m w => add_count m (string_of_list_ascii w) 1) m ws.

(** The last byte of a read is a word byte. *)
Definition ends_in_word (b : list ascii) : bool :=
  match last b with Some c => is_token c | None => false end.

(** Some read lies wholly inside a word that an earlier read began: it
    follows a read that ends in a word byte and has word bytes only. *)
Fixpoint inner_read (blocks : list (list ascii)) : bool :=
  match blocks with
  | b1 :: ((b2 :: _) as tl) =>
      (ends_in_word b1 && forallb is_token b2) || inner_read tl
  | _ => false
  end.

(** ** Helpers to write inputs and read results *)

Definition bytes (s : string) : list ascii := list_ascii_of_string s.

(** The table a file scan ends with, as a list of entries. *)
Definition counts_of (r : option (list ascii * tally))
  : option (list (string * Z)) :=
  match r with
  | Some (_, t) => Some (map_to_list (sub_count t))
  | None => None
  end.

(** ** The order of the report (lines 266-278) *)

(** [operator<] of [std::string]: lexicographic on the bytes, compared
    as unsigned values. *)
Definition string_lt (a b : string) : bool := String.ltb a b.

(** [DefineSortOrder::operator()] on (count, word) pairs. *)
Definition DefineSortOrder (lhs rhs : Z * string) : bool :=
  Z.gtb lhs.1 rhs.1 || (Z.eqb lhs.1 rhs.1 && string_lt lhs.2 rhs.2).

(** [SortOrder]: a [std::map] from (count, word) to (word, count), kept
    as the sequence of its entries in iteration order. *)
Abbreviation SortOrder := (list ((Z * string) * (string * Z))).

(** [m[key] = value]: the entry is placed before the first key that
    [key] is ordered before; a key equivalent to [key] keeps its place
    and takes the new value. *)
Fixpoint map_assign (m : SortOrder) (key : Z * string) (value : string * Z)
  : SortOrder :=
  match m with
  | [] => [(key, value)]
  | (k, v) :: m' =>
      if DefineSortOrder key k then (key, value) :: m
      else if DefineSortOrder k key then (k, v) :: map_assign m' key value
      else (k, value) :: m'
  end.

(** The loops of lines 367-370 and 375-378:
    [sorted_totals[{count, word}] = {word, count}] for every entry. *)
Definition sort_totals (entries : list (string * Z)) : SortOrder :=
  foldl (fun m e => map_assign m (e.2, e.1) (e.1, e.2)) [] entries.

(** The lines of the report (lines 382-386): [w.second.first] and
    [w.second.second] of every entry, in iteration order. *)
Definition report_lines (m : SortOrder) : list (string * Z) := m.*2.

(** The report of a table.  The order in which the entries of the table
    are visited does not change the result ([sort_totals_any_order]). *)
Definition report_of (totals : WordCount) : list (string * Z) :=
  report_lines (sort_totals (map_to_list totals)).

(** One report entry goes before another: its count is higher, or the
    counts are equal and its word is the smaller one. *)
Definition precedes (e1 e2 : string * Z) : Prop :=
  e2.2 < e1.2 \/ (e1.2 = e2.2 /\ string_lt e1.1 e2.1 = true).

(** The position of any two entries of [r] is decided by [precedes]. *)
Definition ordered_by_precedes (r : list (string * Z)) : Prop :=
  forall (i j : nat) (e1 e2 : string * Z),
    r !! i = Some e1 -> r !! j = Some e2 -> ((i < j)%nat <-> precedes e1 e2).

(** ** Summing the tables (lines 165-168 and 356-363) *)

(** [for (auto wc : src) dst[wc.first] += wc.second;] *)
Definition add_table (dst src : WordCount) : WordCount :=
  map_fold (fun w c acc => add_count acc w c) dst src.

(** [sub_count[n]]: a slot that no worker wrote still holds the empty
    table it was initialised with.  The array has [MAXTHREADS] slots. *)
Definition table_at (sub_counts : list WordCount) (n : nat) : WordCount :=
  default ∅ (sub_counts !! n).

(** The fold of [main] when [parallel_merge] is off. *)
Definition sequential_totals (nthreads : Z) (sub_counts : list WordCount)
  : WordCount :=
  foldl (fun totals n => add_table totals (table_at sub_counts n))
        ∅ (seq 0 (Z.to_nat nthreads)).

(** ** Configuration: the option loop of [main] (lines 283-308) *)

Record config := Config {
  nthreads : Z;
  nblocks : Z;
  parallel_merge : bool;
  silent : bool
}.

(** The initial values of the globals (lines 30-34). *)
Definition default_config : config := Config 1 16 false false.

(** [atoi] of the C library: blanks, an optional sign, decimal digits;
    the value is converted to [int]. *)
Definition is_space (c : ascii) : bool :=
  let n := N_of_ascii c in N.eqb n 32 || (N.leb 9 n && N.leb n 13).

Definition digit_of (c : ascii) : option Z :=
  let n := Z.of_N (N_of_ascii c) in
  if Z.leb 48 n && Z.leb n 57 then Some (n - 48) else None.

Fixpoint atoi_digits (acc : Z) (s : string) : Z :=
  match s with
  | String c s' =>
      match digit_of c with
      | Some d => atoi_digits (10 * acc + d) s'
      | None => acc
      end
  | EmptyString => acc
  end.

Fixpoint atoi (s : string) : Z :=
  match s with
  | String c s' =>
      if is_space c then atoi s'
      else if Ascii.eqb c "-" then wrap_int (- atoi_digits 0 s')
      else if Ascii.eqb c "+" then wrap_int (atoi_digits 0 s')
      else wrap_int (atoi_digits 0 s)
  | EmptyString => 0
  end.

Inductive parsed :=
| Usage                               (* "Usage: ..." printed, return 1 *)
| NoDirectory                         (* "No directory specified.", return 1 *)
| Run (cfg : config) (dir : string).

(** [args] is [argv[1..]].  The loop stops at the first argument that
    does not start with ['-']; that argument is the directory. *)
Fixpoint parse_options (cfg : config) (args : list string) : parsed :=
  match args with
  | [] => NoDirectory
  | String "-" opt :: rest =>
      match opt with
      | String "n" v =>
          parse_options
            (Config (atoi v) (nblocks cfg) (parallel_merge cfg) (silent cfg))
            rest
      | String "b" v =>
          parse_options
            (Config (nthreads cfg) (Z.min (atoi v) 127)
                    (parallel_merge cfg) (silent cfg))
            rest
      | String "p" _ =>
          parse_options
            (Config (nthreads cfg) (nblocks cfg) true (silent cfg)) rest
      | String "s" _ =>
          parse_options
            (Config (nthreads cfg) (nblocks cfg) (parallel_merge cfg) true)
            rest
      | _ => Usage
      end
  | dir :: _ => Run cfg dir
  end.

(** [BLOCKSIZE = nblocks * BASICBLOCK] (line 309). *)
Definition BLOCKSIZE (cfg : config) : Z := wrap_int (nblocks cfg * BASICBLOCK).

(** The worker numbers [n] of the two loops of lines 321-333; each is
    used as an index into [ready_for_merge], [my_threads], [buffers] and
    [sub_count], all of which have [MAXTHREADS] entries. *)
Definition worker_ids (cfg : config) : list Z :=
  Z.of_nat <$> seq 0 (Z.to_nat (nthreads cfg)).

Definition in_bounds (n : Z) : Prop := 0 <= n < MAXTHREADS.

(** ** The end of [main] (lines 337-388) *)

Inductive outcome :=
| ExitMismatch (expected scanned : Z)
    (* "Expected to scan ... files, but in fact scanned ...", exit(0) *)
| ExitNothingScanned
    (* "Blocks scanned: ..." printed, then exit(0) *)
| Finished (sorted_totals : SortOrder) (report : list (string * Z)).
    (* return 0; [report] holds the lines printed *)

Definition main_tail (cfg : config)
    (file_count expected_file_count blocks bytes : Z)
    (sub_counts : list WordCount) : outcome :=
  if negb (Z.eqb file_count expected_file_count) then
    ExitMismatch expected_file_count file_count
  else if negb (silent cfg) && (Z.eqb blocks 0 || Z.eqb bytes 0) then
    ExitNothingScanned
  else
    let sorted_totals :=
      if negb (parallel_merge cfg) then
        sort_totals (map_to_list (sequential_totals (nthreads cfg) sub_counts))
      else
        sort_totals (map_to_list (table_at sub_counts 0)) in
    Finished sorted_totals
             (if negb (silent cfg) then report_lines sorted_totals else []).

(** ** The parallel merge of [wcounter] (lines 144-173)

    After the end marker a worker runs the loop of lines 155-169.  A
    worker reads the table of its partner only after it has taken the
    partner's semaphore, which the partner releases as its last action,
    so the fold of lines 165-168 is one step.  The program counter of a
    worker in that loop, with the values of its locals [partner] and
    [bit]: *)

Inductive merge_pc :=
| AtLoop (partner bit : Z)
    (* about to test [n + partner < nthreads] *)
| AtAcquire (partner bit : Z)
    (* in [ready_for_merge[n + partner]->acquire()] *)
| AtFold (partner bit : Z)
    (* acquired, [bit <<= 1] done, about to add the partner's table *)
| Returned.

(** The shared state of the merge: the array [sub_count], the values of
    the semaphores [ready_for_merge[n]], and where each worker is. *)
Record merge_state := MergeState {
  tables : list WordCount;
  ready : list Z;
  pcs : list merge_pc
}.

Definition set_pc (n : nat) (pc : merge_pc) (s : merge_state) : merge_state :=
  MergeState (tables s) (ready s) (<[n := pc]> (pcs s)).

(** [ready_for_merge[n]->release(); return;] *)
Definition release_and_return (n : nat) (s : merge_state) : merge_state :=
  MergeState (tables s)
             (<[n := default 0 (ready s !! n) + 1]> (ready s))
             (<[n := Returned]> (pcs s)).

(** One step of worker [n]; [None] when the worker has returned or is
    blocked on its partner's semaphore. *)
Definition merge_step (nthreads : Z) (n : nat) (s : merge_state)
  : option merge_state :=
  match pcs s !! n with
  | Some (AtLoop partner bit) =>
      if Z.ltb (wrap_int (Z.of_nat n + partner)) nthreads then
        if negb (Z.eqb (Z.land (Z.of_nat n) bit) 0) then
          Some (release_and_return n s)
        else Some (set_pc n (AtAcquire partner bit) s)
      else Some (release_and_return n s)
  | Some (AtAcquire partner bit) =>
      let m := Z.to_nat (wrap_int (Z.of_nat n + partner)) in
      match ready s !! m with
      | Some v =>
          if Z.ltb 0 v then
            Some (MergeState (tables s) (<[m := v - 1]> (ready s))
                    (<[n := AtFold partner (wrap_int (Z.shiftl bit 1))]>
                       (pcs s)))
          else None
      | None => None
      end
  | Some (AtFold partner bit) =>
      let m := Z.to_nat (wrap_int (Z.of_nat n + partner)) in
      Some (MergeState
              (<[n := add_table (table_at (tables s) n)
                                (table_at (tables s) m)]> (tables s))
              (ready s)
              (<[n := AtLoop (wrap_int (Z.shiftl partner 1)) bit]> (pcs s)))
  | Some Returned | None => None
  end.

(** Some worker takes a step. *)
Definition merge_sched (nthreads : Z) (s s' : merge_state) : Prop :=
  exists n : nat, merge_step nthreads n s = Some s'.

(** Every worker enters the loop with [partner = 1] and [bit = 1]; the
    semaphores are created with value 0 (line 323). *)
Definition merge_init (sub_counts : list WordCount) : merge_state :=
  MergeState sub_counts
             (replicate (length sub_counts) 0)
             (replicate (length sub_counts) (AtLoop 1 1)).

Definition all_returned (s : merge_state) : Prop :=
  Forall (fun pc => pc = Returned) (pcs s).

(** A schedule that runs the workers from the last to the first, each
    until it returns; used to run the merge on concrete tables. *)
Fixpoint run_worker (fuel : nat) (nthreads : Z) (n : nat) (s : merge_state)
  : merge_state :=
  match fuel with
  | O => s
  | S fuel' =>
      match merge_step nthreads n s with
      | Some s' => run_worker fuel' nthreads n s'
      | None => s
      end
  end.

Definition run_merge (sub_counts : list WordCount) : merge_state :=
  foldr (fun n s => run_worker 32 (Z.of_nat (length sub_counts)) n s)
        (merge_init sub_counts)
        (seq 0 (length sub_counts)).

(** All counts of a table are [int]s. *)
Definition int_table (m : WordCount) : Prop :=
  map_Forall (fun _ c => is_int c) m.

(** ** The handle queue: [fopener] and the claim loop of [wcounter]
    (lines 58-97 and 134-148, 226)

    The two semaphores are kept as their counts; [acquire] is enabled
    only on a positive count.  [opens] gives, for every entry of
    [files_to_sweep], what [open] returns for it: [-1] or a descriptor.
    A step is one semaphore operation together with the statements that
    follow it up to the next one; the block under the mutex is one step.
    Reading a file to its end is one step here, its content being the
    matter of [wcounter_file]; the progress lines and the message of a
    failing [close] are left out. *)

Inductive opener_pc :=
| OpenerStart                  (* line 71 *)
| OpenerLoop (nfiles : Z)      (* the test [while (nfiles--)] *)
| OpenerAcquire (nfiles : Z)   (* in [fcount.acquire()], line 79 *)
| OpenerOpen (nfiles : Z)      (* line 80, holding one unit of [fcount] *)
| OpenerEnd (n : Z)            (* the test [n < nthreads], line 91 *)
| OpenerEndAcquire (n : Z)     (* in [fcount.acquire()], line 93 *)
| OpenerDone.

Inductive worker_pc :=
| WorkerClaim                  (* in [opencount.acquire()], line 137 *)
| WorkerGot (fdesc : Z)        (* line 144, with the slot's value *)
| WorkerExit.                  (* returned, line 172 *)

Record pipe_state := PipeState {
  fcount : Z;
  opencount : Z;
  fdescs : list Z;
  free_ptr : Z;
  next_ptr : Z;
  file_count : Z;
  expected_file_count : Z;
  opener : opener_pc;
  workers : list worker_pc;
  (* indices of the files for which "Unable to open file" was printed *)
  unopened : list Z;
  (* not a variable of the program: how many files have been read to
     their end by some worker *)
  scanned : Z
}.

Definition pipe_init (cfg : config) : pipe_state :=
  PipeState FDESCS 0 (replicate (Z.to_nat FDESCS) 0) 0 0 0 0
            OpenerStart
            (replicate (Z.to_nat (nthreads cfg)) WorkerClaim) [] 0.

(** [fdescs[slot] = v]. *)
Definition store (slot v : Z) (fd : list Z) : list Z :=
  <[Z.to_nat slot := v]> fd.

(** One step of the producer thread; [None] when it is blocked or
    done. *)
Definition opener_step (cfg : config) (opens : list Z) (s : pipe_state)
  : option pipe_state :=
  match opener s with
  | OpenerStart =>
      let nfiles := wrap_int (Z.of_nat (length opens)) in
      Some (PipeState (fcount s) (opencount s) (fdescs s) (free_ptr s)
              (next_ptr s) (file_count s)
              (if silent cfg then expected_file_count s else nfiles)
              (OpenerLoop nfiles) (workers s) (unopened s) (scanned s))
  | OpenerLoop nfiles =>
      Some (PipeState (fcount s) (opencount s) (fdescs s) (free_ptr s)
              (next_ptr s) (file_count s) (expected_file_count s)
              (if Z.eqb nfiles 0 then OpenerEnd 0
               else OpenerAcquire (wrap_int (nfiles - 1)))
              (workers s) (unopened s) (scanned s))
  | OpenerAcquire nfiles =>
      if Z.ltb 0 (fcount s) then
        Some (PipeState (fcount s - 1) (opencount s) (fdescs s) (free_ptr s)
                (next_ptr s) (file_count s) (expected_file_count s)
                (OpenerOpen nfiles) (workers s) (unopened s) (scanned s))
      else None
  | OpenerOpen nfiles =>
      let slot := Z.rem (free_ptr s) FDESCS in
      match opens !! Z.to_nat nfiles with
      | Some r =>
          if Z.eqb r (-1) then
            Some (PipeState (fcount s) (opencount s)
                    (store slot r (fdescs s)) (free_ptr s)
                    (next_ptr s) (file_count s) (expected_file_count s)
                    (OpenerLoop nfiles) (workers s)
                    (unopened s ++ [nfiles]) (scanned s))
          else
            Some (PipeState (fcount s) (opencount s + 1)
                    (store slot r (fdescs s)) (wrap_int (free_ptr s + 1))
                    (next_ptr s) (file_count s) (expected_file_count s)
                    (OpenerLoop nfiles) (workers s) (unopened s) (scanned s))
      | None => None
      end
  | OpenerEnd n =>
      if Z.ltb n (nthreads cfg) then
        Some (PipeState (fcount s) (opencount s) (fdescs s) (free_ptr s)
                (next_ptr s) (file_count s) (expected_file_count s)
                (OpenerEndAcquire n) (workers s) (unopened s) (scanned s))
      else
        Some (PipeState (fcount s) (opencount s + nthreads cfg) (fdescs s)
                (free_ptr s) (next_ptr s) (file_count s)
                (expected_file_count s)
                OpenerDone (workers s) (unopened s) (scanned s))
  | OpenerEndAcquire n =>
      if Z.ltb 0 (fcount s) then
        Some (PipeState (fcount s - 1) (opencount s)
                (store (Z.rem (free_ptr s) FDESCS) (-2) (fdescs s))
                (wrap_int (free_ptr s + 1))
                (next_ptr s) (file_count s) (expected_file_count s)
                (OpenerEnd (wrap_int (n + 1))) (workers s) (unopened s)
                (scanned s))
      else None
  | OpenerDone => None
  end.

(** One step of worker [i]; [None] when it is blocked or has
    returned. *)
Definition worker_step (i : nat) (s : pipe_state) : option pipe_state :=
  match workers s !! i with
  | Some WorkerClaim =>
      if Z.ltb 0 (opencount s) then
        let slot := Z.rem (next_ptr s) FDESCS in
        let fdesc := default 0 (fdescs s !! Z.to_nat slot) in
        Some (PipeState (fcount s) (opencount s - 1)
                (store slot 0 (fdescs s)) (free_ptr s)
                (wrap_int (next_ptr s + 1))
                (wrap_int (file_count s + 1)) (expected_file_count s)
                (opener s) (<[i := WorkerGot fdesc]> (workers s))
                (unopened s) (scanned s))
      else None
  | Some (WorkerGot fdesc) =>
      if Z.eqb fdesc (-2) then
        (* --file_count; fcount.release(); ...; return *)
        Some (PipeState (fcount s + 1) (opencount s) (fdescs s) (free_ptr s)
                (next_ptr s) (wrap_int (file_count s - 1))
                (expected_file_count s) (opener s)
                (<[i := WorkerExit]> (workers s)) (unopened s) (scanned s))
      else
        (* the file is read to its end; fcount.release(); close(fdesc) *)
        Some (PipeState (fcount s + 1) (opencount s) (fdescs s) (free_ptr s)
                (next_ptr s) (file_count s) (expected_file_count s)
                (opener s) (<[i := WorkerClaim]> (workers s))
                (unopened s) (scanned s + 1))
  | Some WorkerExit | None => None
  end.

Definition pipe_step (cfg : config) (opens : list Z) (s s' : pipe_state)
  : Prop :=
  opener_step cfg opens s = Some s' \/ exists i, worker_step i s = Some s'.

(** [main] gets past the joins (lines 330-334). *)
Definition joined (s : pipe_state) : Prop :=
  opener s = OpenerDone /\ Forall (fun w => w = WorkerExit) (workers s).

(** No thread can take a step. *)
Definition stuck (cfg : config) (opens : list Z) (s : pipe_state) : Prop :=
  opener_step cfg opens s = None /\ forall i, worker_step i s = None.

(** Handles stored in the ring and not yet claimed. *)
Definition unclaimed (s : pipe_state) : Z := free_ptr s - next_ptr s.

(** Running a schedule: [None] stands for the producer, [Some i] for
    worker [i]; a thread that cannot step is skipped. *)
Fixpoint run_schedule (cfg : config) (opens : list Z)
    (sched : list (option nat)) (s : pipe_state) : pipe_state :=
  match sched with
  | [] => s
  | t :: sched' =>
      let next := match t with
                  | None => opener_step cfg opens s
                  | Some i => worker_step i s
                  end in
      run_schedule cfg opens sched' (default s next)
  end.

(** * Definitions used in the proofs *)

(** ** The tokenizer *)

(** Every byte of [l] is a word byte. *)
Definition all_token (l : list ascii) : Prop := Forall (fun c => is_token c = true) l.

(** The value of [sptr] when [done] has been scanned and the run [cur]
    is open behind it. *)
Definition sptr_of (done cur : list ascii) : option nat :=
  match cur with [] => None | _ => Some (length done) end.

(** The bytes of [prefix_copy] that hold the string [p]. *)
Definition mem (p : option (list ascii)) : option (list ascii) :=
  (fun x => x ++ [NUL]) <$> p.

Definition opt_token (p : option (list ascii)) : Prop :=
  match p with Some x => all_token x | None => True end.

(** The runs of [l] that a delimiter of [l] closes, and the run still
    open at its end. *)
Fixpoint closed_runs (cur l : list ascii) : list (list ascii) :=
  match l with
  | [] => []
  | c :: l' =>
      if is_token c then closed_runs (cur ++ [c]) l'
      else close_run cur ++ closed_runs [] l'
  end.

Fixpoint open_run (cur l : list ascii) : list ascii :=
  match l with
  | [] => cur
  | c :: l' => if is_token c then open_run (cur ++ [c]) l' else open_run [] l'
  end.

(** One [found] per word. *)
Definition records (t : tally) (ws : list (list ascii)) : tally :=
  foldl record t ws.

(** The fragment pending at a block boundary. *)
Definition pend (p : option (list ascii)) : list ascii := default [] p.

(** When a fragment is pending, the next read is not made of word
    bytes only. *)
Definition pend_ok (p : option (list ascii)) (blocks : list (list ascii)) : Prop :=
  match p, blocks with
  | Some _, b :: _ => forallb is_token b = false
  | _, _ => True
  end.

(** A word that the guard of the split [found] lets through. *)
Definition short_word (w : list ascii) : Prop := Z.of_nat (length w) < 1023.

Definition nul_free (l : list ascii) : Prop :=
  Forall (fun c => Ascii.eqb c NUL = false) l.

(** A file of 1000 blanks, one word of 1023 letters and a newline. *)
Definition long_word_file : list ascii :=
  replicate 1000 " "%char ++ replicate 1023 "a"%char ++ bytes "
".

(** A file of 1026 bytes: 1022 blanks and the word [abcd], no newline. *)
Definition tail_word_file : list ascii :=
  replicate 1022 " "%char ++ bytes "abcd".

(** ** The report *)

Definition key_lt (a b : Z * string) : Prop := DefineSortOrder a b = true.

Definition sorted_keys (m : SortOrder) : Prop :=
  StronglySorted (fun x y => key_lt x.1 y.1) m.

(** Every entry of the report map carries its own key, swapped. *)
Definition mirrored (m : SortOrder) : Prop :=
  Forall (fun e => e.2 = (e.1.2, e.1.1)) m.

Definition entry_of (e : string * Z) : (Z * string) * (string * Z) :=
  ((e.2, e.1), (e.1, e.2)).

(** The table that [main] sorts. *)
Definition aggregate (cfg : config) (sub_counts : list WordCount) : WordCount :=
  if parallel_merge cfg then table_at sub_counts 0
  else sequential_totals (nthreads cfg) sub_counts.

(** ** The parallel merge *)

(** The sum of a list of tables, nested to the right. *)
Definition big (l : list WordCount) : WordCount := foldr add_table ∅ l.

(** The value of [partner] and [bit] in round [k]. *)
Definition pw (k : nat) : Z := Z.of_nat (2 ^ k).

(** [(n & bit) != 0] in round [k]. *)
Definition bit_set (n k : nat) : bool :=
  negb (Z.eqb (Z.land (Z.of_nat n) (pw k)) 0).

(** The [k] low bits of [n] are clear. *)
Definition aligned (n k : nat) : bool := (n mod 2 ^ k =? 0)%nat.

(** [P] holds of every number below [b]. *)
Definition forall_below (b : nat) (P : nat -> bool) : bool :=
  forallb P (seq 0 b).

(** The sum of the tables of workers [n .. n + 2^k - 1], as far as they
    exist. *)
Definition span (subs : list WordCount) (n k : nat) : WordCount :=
  big (take (2 ^ k) (drop n subs)).

(** What is known of worker [n] at each point of its loop: the round it
    is in, that its table is the sum of the tables merged so far, and
    that its semaphore has not been released. *)
Definition worker_ok (subs : list WordCount) (s : merge_state) (n : nat)
    (pc : merge_pc) : Prop :=
  match pc with
  | AtLoop p b =>
      exists k, (k < 8)%nat /\ p = pw k /\ b = pw k /\ aligned n k = true /\
        tables s !! n = Some (span subs n k) /\ ready s !! n = Some 0
  | AtAcquire p b =>
      exists k, (k < 8)%nat /\ p = pw k /\ b = pw k /\
        aligned n (S k) = true /\ (n + 2 ^ k < length subs)%nat /\
        tables s !! n = Some (span subs n k) /\ ready s !! n = Some 0
  | AtFold p b =>
      exists k, (k < 8)%nat /\ p = pw k /\ b = pw (S k) /\
        aligned n (S k) = true /\ (n + 2 ^ k < length subs)%nat /\
        tables s !! n = Some (span subs n k) /\ ready s !! n = Some 0 /\
        pcs s !! (n + 2 ^ k)%nat = Some Returned
  | Returned =>
      exists k, (k < 8)%nat /\ aligned n k = true /\
        tables s !! n = Some (span subs n k) /\
        ((length subs <= n + 2 ^ k)%nat \/ bit_set n k = true)
  end.

(** The worker has not yet taken the semaphore of its round-[k]
    partner. *)
Definition before_round (pc : merge_pc) (k : nat) : Prop :=
  match pc with
  | AtLoop p _ | AtAcquire p _ => p <= pw k
  | AtFold p _ => p < pw k
  | Returned => False
  end.

(** The invariant of the merge.  [inv_child] says that the semaphore of
    a worker that has returned is available to the one worker that will
    wait for it. *)
Record merge_inv (subs : list WordCount) (s : merge_state) : Prop := MergeInv {
  inv_tables : length (tables s) = length subs;
  inv_ready : length (ready s) = length subs;
  inv_pcs : length (pcs s) = length subs;
  inv_worker : forall n pc, pcs s !! n = Some pc -> worker_ok subs s n pc;
  inv_sem : forall m v, ready s !! m = Some v ->
    v = 0 \/ (v = 1 /\ pcs s !! m = Some Returned);
  inv_child : forall n k pc,
    (k < 8)%nat -> aligned n (S k) = true ->
    pcs s !! n = Some pc -> before_round pc k ->
    pcs s !! (n + 2 ^ k)%nat = Some Returned ->
    ready s !! (n + 2 ^ k)%nat = Some 1
}.

(** How many more steps a worker can take, at most. *)
Definition weight (pc : merge_pc) : nat :=
  match pc with
  | AtLoop p _ => 3 * (9 - Z.to_nat (Z.log2 p))
  | AtAcquire p _ => 3 * (9 - Z.to_nat (Z.log2 p)) - 1
  | AtFold p _ => 3 * (9 - Z.to_nat (Z.log2 p)) - 2
  | Returned => 0
  end.

(** The steps left in a state, at most. *)
Definition measure (s : merge_state) : nat := sum_list (weight <$> pcs s).

(** ** The handle queue *)

Definition holding (w : worker_pc) : nat :=
  match w with WorkerGot _ => 1 | _ => 0 end.

Definition exited (w : worker_pc) : nat :=
  match w with WorkerExit => 1 | _ => 0 end.

(** Units of [fcount] held by the workers, and workers that returned. *)
Definition hold (s : pipe_state) : Z :=
  Z.of_nat (sum_list (holding <$> workers s)).

Definition gone (s : pipe_state) : Z :=
  Z.of_nat (sum_list (exited <$> workers s)).

(** The unit of [fcount] held by the producer between its [acquire] and
    the [open]. *)
Definition opener_hold (pc : opener_pc) : Z :=
  match pc with OpenerOpen _ => 1 | _ => 0 end.

(** End markers stored but not yet announced on [opencount]. *)
Definition pending_end (pc : opener_pc) : Z :=
  match pc with OpenerEnd n | OpenerEndAcquire n => n | _ => 0 end.

(** Slots the producer may still fill. *)
Definition todo (cfg : config) (opens : list Z) (pc : opener_pc) : Z :=
  match pc with
  | OpenerStart => Z.of_nat (length opens) + nthreads cfg
  | OpenerLoop nf => nf + nthreads cfg
  | OpenerAcquire nf | OpenerOpen nf => nf + 1 + nthreads cfg
  | OpenerEnd n | OpenerEndAcquire n => nthreads cfg - n
  | OpenerDone => 0
  end.

Definition opener_ok (cfg : config) (opens : list Z) (pc : opener_pc) : Prop :=
  match pc with
  | OpenerLoop nf => 0 <= nf <= Z.of_nat (length opens)
  | OpenerAcquire nf | OpenerOpen nf => 0 <= nf < Z.of_nat (length opens)
  | OpenerEnd n => 0 <= n <= nthreads cfg
  | OpenerEndAcquire n => 0 <= n < nthreads cfg
  | _ => True
  end.

(** The invariant of the queue.  [pi_units] accounts for the 64 units
    of [fcount]: free, stored in the ring, held by a worker, held by the
    producer, or lost to a failed open. *)
Record pipe_inv (cfg : config) (opens : list Z) (s : pipe_state) : Prop :=
  PipeInv {
  pi_workers : length (workers s) = Z.to_nat (nthreads cfg);
  pi_fcount : 0 <= fcount s;
  pi_opencount : 0 <= opencount s;
  pi_units : fcount s + unclaimed s + hold s + opener_hold (opener s)
             + Z.of_nat (length (unopened s)) = FDESCS;
  pi_avail : opencount s + pending_end (opener s) = unclaimed s;
  pi_next : 0 <= next_ptr s;
  pi_todo : free_ptr s + todo cfg opens (opener s)
            <= Z.of_nat (length opens) + nthreads cfg;
  pi_claims : scanned s + hold s + gone s = next_ptr s;
  pi_scanned : 0 <= scanned s;
  pi_file_count : file_count s = scanned s + hold s;
  pi_expected : silent cfg = true -> expected_file_count s = 0;
  pi_opener : opener_ok cfg opens (opener s)
}.

(** * Definitions for further properties *)

(** The bytes of the alphabet of line 314, by their codes: [a-z], [A-Z],
    [0-9] and the underscore. *)
Definition word_byte (c : ascii) : Prop :=
  let n := Z.of_N (N_of_ascii c) in
  97 <= n <= 122 \/ 65 <= n <= 90 \/ 48 <= n <= 57 \/ n = 95.

Definition word_byteb (c : ascii) : bool :=
  let n := Z.of_N (N_of_ascii c) in
  (Z.leb 97 n && Z.leb n 122) || (Z.leb 65 n && Z.leb n 90)
  || (Z.leb 48 n && Z.leb n 57) || Z.eqb n 95.

(** The counts of the word [w] in the tables of [l], added up without
    wrap-around. *)
Definition sum_counts (l : list WordCount) (w : string) : Z :=
  foldr (fun m acc => count_of m w + acc) 0 l.

(** The word bytes at the end of a read, which line 218 copies to
    [prefix_copy]. *)
Definition fragment (block : list ascii) : list ascii := open_run [] block.

(** A word as a key of a table: not empty, word bytes only. *)
Definition token_word (w : string) : Prop :=
  w <> EmptyString /\ all_token (list_ascii_of_string w).

(** The outer loop of [wcounter] (lines 134-231) over the files a worker
    claims, each given by what its reads return: the buffer and the
    table are carried from one file to the next. *)
Fixpoint wcounter_files (files : list (list (list ascii)))
    (buffer : list ascii) (t : tally) : option (list ascii * tally) :=
  match files with
  | [] => Some (buffer, t)
  | blocks :: rest =>
      match wcounter_file blocks buffer t with
      | Some (buffer', t') => wcounter_files rest buffer' t'
      | None => None
      end
  end.

(** A pending fragment is made of word bytes and is not empty. *)
Definition opt_word (p : option (list ascii)) : Prop :=
  match p with Some x => all_token x /\ x <> [] | None => True end.

(** Every key of [t'] is a key of [t] or a word. *)
Definition grown (t t' : tally) : Prop :=
  forall w, is_Some (sub_count t' !! w) ->
    is_Some (sub_count t !! w) \/ token_word w.

(** No 1023 consecutive bytes of [c] are all word bytes. *)
Definition no_long_run (c : list ascii) : Prop :=
  forall pre seg post, c = pre ++ seg ++ post -> all_token seg ->
    Z.of_nat (length seg) < 1023.

(** ** The ring of descriptors *)

(** The descriptors that [open] gave for the files of index [nf] and
    above, in the order of the loop of line 77, which goes from the last
    file down to the first. *)
Definition opened_from (opens : list Z) (nf : nat) : list Z :=
  filter (fun r => r <> -1) (reverse (drop nf opens)).

(** The files of index [nf] and above that failed to open. *)
Definition failed_from (opens : list Z) (nf : nat) : list Z :=
  filter (fun r => r = -1) (drop nf opens).

(** The index from which on the producer has been through the files. *)
Definition sweep_pos (opens : list Z) (pc : opener_pc) : nat :=
  match pc with
  | OpenerStart => length opens
  | OpenerLoop nf => Z.to_nat nf
  | OpenerAcquire nf | OpenerOpen nf => S (Z.to_nat nf)
  | _ => 0
  end.

(** End markers stored so far (lines 91-95). *)
Definition ends_stored (cfg : config) (pc : opener_pc) : nat :=
  match pc with
  | OpenerEnd n | OpenerEndAcquire n => Z.to_nat n
  | OpenerDone => Z.to_nat (nthreads cfg)
  | _ => 0%nat
  end.

(** All that the producer has put in the ring when it is at [pc], in
    the order of the stores. *)
Definition submitted (cfg : config) (opens : list Z) (pc : opener_pc)
  : list Z :=
  opened_from opens (sweep_pos opens pc) ++ replicate (ends_stored cfg pc) (-2).

(** A worker that holds an end marker. *)
Definition holding_end (w : worker_pc) : nat :=
  match w with
  | WorkerGot fdesc => if Z.eqb fdesc (-2) then 1 else 0
  | _ => 0
  end.

Definition count_ends (l : list Z) : nat :=
  length (filter (fun r => r = -2) l).

(** The ring between [next_ptr] and [free_ptr] holds what was submitted
    and not yet claimed, in order; [ri_ends] counts the end markers
    claimed so far. *)
Record ring_inv (cfg : config) (opens : list Z) (s : pipe_state) : Prop :=
  RingInv {
  ri_len : free_ptr s
           = Z.of_nat (length (submitted cfg opens (opener s)));
  ri_size : length (fdescs s) = 64%nat;
  ri_slots : forall j, next_ptr s <= j < free_ptr s ->
      fdescs s !! Z.to_nat (Z.rem j FDESCS)
      = submitted cfg opens (opener s) !! Z.to_nat j;
  ri_ends : count_ends (take (Z.to_nat (next_ptr s))
                          (submitted cfg opens (opener s)))
            = (sum_list (exited <$> workers s)
               + sum_list (holding_end <$> workers s))%nat;
  ri_unopened : length (unopened s)
                = length (failed_from opens (sweep_pos opens (opener s)));
  ri_expected : silent cfg = false -> opener s <> OpenerStart ->
                expected_file_count s = Z.of_nat (length opens);
  ri_done : opener s = OpenerDone ->
            Z.of_nat (length (failed_from opens 0)) + nthreads cfg <= 64
}.

(** What is left to do: stores of the producer and steps of the
    workers. *)
Definition opener_weight (cfg : config) (opens : list Z) (pc : opener_pc)
  : Z :=
  match pc with
  | OpenerStart => 3 * Z.of_nat (length opens) + 2 * nthreads cfg + 3
  | OpenerLoop nf => 3 * nf + 2 * nthreads cfg + 2
  | OpenerAcquire nf => 3 * nf + 2 * nthreads cfg + 4
  | OpenerOpen nf => 3 * nf + 2 * nthreads cfg + 3
  | OpenerEnd n => 2 * (nthreads cfg - n) + 1
  | OpenerEndAcquire n => 2 * (nthreads cfg - n)
  | OpenerDone => 0
  end.

Definition pipe_measure (cfg : config) (opens : list Z) (s : pipe_state)
  : Z :=
  opener_weight cfg opens (opener s)
  + 2 * (Z.of_nat (length opens) + nthreads cfg - next_ptr s) + hold s.

(** ** A whole run *)

(** The words of a file given by its reads, of the files of one worker,
    and of the files of all workers. *)
Definition file_words (blocks : list (list ascii)) : list (list ascii) :=
  words_of (concat blocks).

Definition worker_words (files : list (list (list ascii)))
  : list (list ascii) :=
  concat (file_words <$> files).

Definition run_words (work : list (list (list (list ascii))))
  : list (list ascii) :=
  concat (worker_words <$> work).

(** How often the word [w] occurs in a list of words. *)
Definition occurrences (w : string) (ws : list (list ascii)) : Z :=
  Z.of_nat (length (filter (fun x => string_of_list_ascii x = w) ws)).

(** A file within the limits of the tokenizer: its reads fit the
    buffer, its words are at most 1022 bytes long, and no read lies
    wholly inside a word. *)
Definition file_ok (size : nat) (blocks : list (list ascii)) : Prop :=
  Forall (fun b => (length b < size)%nat) blocks
  /\ Forall short_word (file_words blocks)
  /\ inner_read blocks = false.

(** ** The options, argument by argument *)






(** * Proofs *)

(** ** The classifier and C strings *)

Lemma is_token_NUL : is_token NUL = false.
Proof. reflexivity. Qed.

Lemma is_token_not_NUL c : is_token c = true -> Ascii.eqb c NUL = false.
Proof.
  intros H. destruct (Ascii.eqb_spec c NUL) as [->|]; [|done].
  by rewrite is_token_NUL in H.
Qed.

Lemma until_nul_app l rest :
  all_token l -> until_nul (l ++ rest) = l ++ until_nul rest.
Proof.
  induction 1 as [|c l Hc _ IH]; simpl; [done|].
  by rewrite (is_token_not_NUL c Hc), IH.
Qed.

Lemma until_nul_terminated l rest :
  all_token l -> until_nul (l ++ NUL :: rest) = l.
Proof. intros H. rewrite until_nul_app by done. simpl. by rewrite app_nil_r. Qed.

Lemma c_str_at done cur rest :
  all_token cur -> c_str (done ++ cur ++ NUL :: rest) (length done) = cur.
Proof.
  intros H. unfold c_str. rewrite drop_app_length.
  by apply until_nul_terminated.
Qed.

Lemma c_str_prefix_copy p : all_token p -> c_str (p ++ [NUL]) 0 = p.
Proof. intros H. unfold c_str. simpl. by apply until_nul_terminated. Qed.

Lemma found_record t mem : found t mem = record t (c_str mem 0).
Proof. reflexivity. Qed.

Lemma found_split_glue t pre cur rest :
  all_token pre -> all_token cur ->
  found_split t (pre ++ [NUL]) (cur ++ NUL :: rest) = glue t pre cur.
Proof.
  intros Hp Hc. unfold found_split, glue.
  rewrite c_str_prefix_copy by done.
  assert (Hs : c_str (cur ++ NUL :: rest) 0 = cur)
    by (unfold c_str; simpl; by apply until_nul_terminated).
  rewrite Hs. case (Z.leb_spec 1023); [done|]. intros _.
  rewrite found_record. f_equal.
  rewrite !Nat2Z.id, take_app_length.
  replace (length cur + 1)%nat with (length (cur ++ [NUL]))
    by (rewrite length_app; simpl; lia).
  change (cur ++ NUL :: rest) with (cur ++ [NUL] ++ rest).
  rewrite (assoc_L (++) cur), take_app_length.
  unfold c_str. rewrite drop_0, until_nul_app by done.
  by rewrite until_nul_terminated.
Qed.

(** ** The buffer loop computes [abs_scan] *)

Lemma found_something_abs done cur tail p t :
  all_token cur -> opt_token p ->
  found_something (done ++ cur ++ NUL :: tail) (mem p) (sptr_of done cur) t
  = (None, None, emit p cur t).
Proof.
  intros Hc Hp. unfold found_something, emit.
  destruct p as [pre|]; simpl in *.
  - destruct cur as [|c cur]; simpl.
    + by rewrite found_record, c_str_prefix_copy.
    + rewrite drop_app_length.
      by rewrite <- (found_split_glue t pre (c :: cur) tail).
  - destruct cur as [|c cur]; simpl; [done|].
    rewrite drop_app_length, found_record. do 2 f_equal.
    unfold c_str. rewrite drop_0. by apply (until_nul_terminated (c :: cur)).
Qed.

Lemma abs_scan_token rest : forall p cur t,
  all_token cur -> opt_token p ->
  opt_token (abs_scan p cur rest t).1.1 /\ all_token (abs_scan p cur rest t).1.2.
Proof.
  induction rest as [|c rest IH]; intros p cur t Hc Hp; simpl; [done|].
  destruct (is_token c) eqn:E.
  - apply IH; [|done]. apply Forall_app; split; [done|]. by constructor.
  - apply IH; [constructor|done].
Qed.

Lemma scan_block_abs rest : forall done cur tail p t,
  all_token cur -> opt_token p ->
  exists done',
    scan_block (length rest) (length done + length cur)
      (done ++ cur ++ rest ++ NUL :: tail) (mem p) (sptr_of done cur) t
    = (done' ++ (abs_scan p cur rest t).1.2 ++ NUL :: tail,
       mem (abs_scan p cur rest t).1.1,
       sptr_of done' (abs_scan p cur rest t).1.2,
       (abs_scan p cur rest t).2)
    /\ (length done' + length (abs_scan p cur rest t).1.2
        = length done + length cur + length rest)%nat.
Proof.
  induction rest as [|c rest IH]; intros done cur tail p t Hc Hp.
  - exists done. simpl. split; [done|lia].
  - cbn [scan_block abs_scan length].
    assert (Hlk : (done ++ cur ++ (c :: rest) ++ NUL :: tail)
                    !! (length done + length cur)%nat = Some c).
    { rewrite (assoc_L (++) done), <- length_app.
      by rewrite lookup_app_r, Nat.sub_diag by lia. }
    rewrite Hlk. destruct (is_token c) eqn:E.
    + destruct (IH done (cur ++ [c]) tail p t) as (done' & Heq & Hlen);
        [apply Forall_app; split; [done|by constructor]|done|].
      exists done'. split.
      * rewrite <- Heq. rewrite length_app; simpl.
        replace (length done + (length cur + 1))%nat
          with (S (length done + length cur)) by lia.
        rewrite <- (assoc_L (++) cur [c]). simpl.
        f_equal. destruct cur; simpl; [|done].
        by rewrite Nat.add_0_r.
      * rewrite Hlen, length_app. simpl. lia.
    + assert (Hins : <[(length done + length cur)%nat := NUL]>
                       (done ++ cur ++ (c :: rest) ++ NUL :: tail)
                     = done ++ cur ++ NUL :: rest ++ NUL :: tail).
      { rewrite (assoc_L (++) done), <- length_app.
        rewrite insert_app_r_alt, Nat.sub_diag by lia.
        by rewrite <- (assoc_L (++) done). }
      rewrite Hins, found_something_abs by done.
      destruct (IH (done ++ cur ++ [NUL]) [] tail None (emit p cur t))
        as (done' & Heq & Hlen); [constructor|done|].
      exists done'. split.
      * rewrite <- Heq. rewrite !length_app. simpl.
        replace (length done + (length cur + 1) + 0)%nat
          with (S (length done + length cur)) by lia.
        by rewrite <- !(assoc_L (++)).
      * rewrite Hlen, !length_app. simpl. lia.
Qed.

Lemma read_buffer buffer block :
  (length block < length buffer)%nat ->
  <[length block := NUL]> (read_into buffer block)
  = block ++ NUL :: drop (S (length block)) buffer.
Proof.
  intros Hlt. unfold read_into.
  rewrite insert_app_r_alt, Nat.sub_diag by lia.
  f_equal. destruct (drop (length block) buffer) as [|c tl] eqn:E.
  - apply (f_equal length) in E. rewrite length_drop in E. simpl in E. lia.
  - simpl. f_equal.
    change (S (length block)) with (1 + length block)%nat.
    rewrite Nat.add_comm, <- drop_drop, E. done.
Qed.

Lemma save_fragment_abs nbytes done' cur' tail p :
  all_token cur' -> (length done' + length cur' = nbytes)%nat ->
  save_fragment nbytes (done' ++ cur' ++ NUL :: tail) (mem p)
                (sptr_of done' cur')
  = match cur' with
    | [] => Some (mem p, None)
    | _ => if Z.leb 1024 (Z.of_nat (length cur')) then None
           else Some (mem (Some cur'), None)
    end.
Proof.
  intros Hc Hlen. destruct cur' as [|c cur']; [done|].
  unfold save_fragment, sptr_of.
  replace (Z.of_nat nbytes - Z.of_nat (length done'))
    with (Z.of_nat (length (c :: cur'))) by lia.
  destruct (Z.leb 1024 (Z.of_nat (length (c :: cur')))); [done|].
  by rewrite Nat2Z.id, drop_app_length, take_app_length.
Qed.

Lemma flush_abs buffer p t :
  opt_token p ->
  found_something buffer (mem p) None t = (None, None, emit p [] t).
Proof.
  intros Hp. destruct p as [pre|]; simpl; [|done].
  by rewrite found_record, c_str_prefix_copy.
Qed.

Lemma read_loop_abs blocks : forall buffer p t,
  Forall (fun b => (length b < length buffer)%nat) blocks ->
  opt_token p ->
  exists buffer',
    length buffer' = length buffer /\
    read_loop blocks buffer (mem p) None t
    = (fun t' => (buffer', t')) <$> abs_blocks p t blocks.
Proof.
  induction blocks as [|b bs IH]; intros buffer p t Hlen Hp.
  - exists buffer. split; [done|]. simpl. by rewrite flush_abs.
  - apply Forall_cons in Hlen as [Hb Hbs].
    cbn [read_loop abs_blocks]. rewrite read_buffer by done.
    fold (bump (length b) t).
    destruct (scan_block_abs b [] [] (drop (S (length b)) buffer) p
                (bump (length b) t)) as (done' & Heq & Hl);
      [constructor|done|].
    simpl in Heq, Hl. rewrite Heq. clear Heq.
    pose proof (abs_scan_token b p [] (bump (length b) t)
                  (List.Forall_nil _) Hp) as [Hp' Hc'].
    destruct (abs_scan p [] b (bump (length b) t)) as [[p' cur'] t'].
    simpl in *.
    rewrite (save_fragment_abs (length b)) by done.
    assert (Hsize : length (done' ++ cur' ++ NUL :: drop (S (length b)) buffer)
                    = length buffer).
    { rewrite !length_app. simpl. rewrite length_drop. lia. }
    destruct cur' as [|c cur'].
    + destruct (IH (done' ++ [] ++ NUL :: drop (S (length b)) buffer) p' t')
        as (buffer' & Hl' & Hrun); [by rewrite Hsize|done|].
      exists buffer'. split; [congruence|done].
    + destruct (Z.leb 1024 (Z.of_nat (length (c :: cur')))).
      * exists buffer. by split.
      * destruct (IH (done' ++ (c :: cur') ++ NUL :: drop (S (length b)) buffer)
                    (Some (c :: cur')) t')
          as (buffer' & Hl' & Hrun); [by rewrite Hsize|done|].
        exists buffer'. split; [congruence|done].
Qed.

(** ** Runs closed inside a stretch of bytes, and the run left open *)

Lemma maximal_runs_split l : forall cur,
  maximal_runs cur l = closed_runs cur l ++ close_run (open_run cur l).
Proof.
  induction l as [|c l IH]; intros cur; simpl; [done|].
  destruct (is_token c); [done|]. by rewrite IH, (assoc_L (++)).
Qed.

Lemma maximal_runs_app a : forall cur b,
  maximal_runs cur (a ++ b) = closed_runs cur a ++ maximal_runs (open_run cur a) b.
Proof.
  induction a as [|c a IH]; intros cur b; simpl; [done|].
  destruct (is_token c); [done|]. by rewrite IH, (assoc_L (++)).
Qed.

Lemma maximal_runs_open l : forall cur,
  cur <> [] -> exists w rest, maximal_runs cur l = (cur ++ w) :: rest.
Proof.
  induction l as [|c l IH]; intros cur Hne; simpl.
  - exists [], []. rewrite app_nil_r. by destruct cur.
  - destruct (is_token c).
    + destruct (IH (cur ++ [c])) as (w & rest & ->); [by destruct cur|].
      exists (c :: w), rest. by rewrite <- (assoc_L (++)).
    + exists [], (maximal_runs [] l). rewrite app_nil_r. by destruct cur.
Qed.

Lemma open_run_ends l : forall cur,
  open_run cur l <> [] -> l = [] \/ ends_in_word l = true.
Proof.
  induction l as [|c l IH]; intros cur Hne; [by left|right].
  simpl in Hne. unfold ends_in_word.
  destruct l as [|c' l].
  - simpl in *. destruct (is_token c); [done|]. by simpl in Hne.
  - assert (Hl : last (c :: c' :: l) = last (c' :: l)) by done.
    rewrite Hl.
    destruct (is_token c);
      (destruct (IH _ Hne) as [?|H]; [done|exact H]).
Qed.

Lemma forallb_all_token l : forallb is_token l = true <-> all_token l.
Proof.
  unfold all_token. rewrite forallb_forall, List.Forall_forall. done.
Qed.

Lemma sub_count_records t ws :
  sub_count (records t ws) = count_words (sub_count t) ws.
Proof.
  revert t. induction ws as [|w ws IH]; intros t; simpl; [done|].
  unfold records in *. simpl. by rewrite IH.
Qed.

Lemma printed_records t ws : printed (records t ws) = printed t.
Proof.
  revert t. induction ws as [|w ws IH]; intros t; simpl; [done|].
  unfold records in *. simpl. by rewrite IH.
Qed.

Lemma records_app t a b : records t (a ++ b) = records (records t a) b.
Proof. apply foldl_app. Qed.

Lemma abs_scan_unpended rest : forall cur t,
  abs_scan None cur rest t
  = (None, open_run cur rest, records t (closed_runs cur rest)).
Proof.
  induction rest as [|c rest IH]; intros cur t; simpl; [done|].
  destruct (is_token c); [done|].
  rewrite IH, records_app. by destruct cur.
Qed.

Lemma abs_scan_pended pre rest : forall cur t,
  pre <> [] ->
  forallb is_token rest = false ->
  Forall (fun w => Z.of_nat (length w) < 1023) (closed_runs (pre ++ cur) rest) ->
  abs_scan (Some pre) cur rest t
  = (None, open_run (pre ++ cur) rest,
     records t (closed_runs (pre ++ cur) rest)).
Proof.
  induction rest as [|c rest IH]; intros cur t Hne Hdel Hshort; [done|].
  simpl in *. destruct (is_token c); simpl in *.
  - rewrite <- (assoc_L (++)) in *. by apply IH.
  - rewrite abs_scan_unpended.
    assert (Hcl : close_run (pre ++ cur) = [pre ++ cur]) by by destruct pre.
    rewrite Hcl in *. simpl in *. apply Forall_cons in Hshort as [Hlen _].
    do 2 f_equal. unfold emit, glue.
    destruct cur as [|c0 cur]; [by rewrite app_nil_r|].
    rewrite length_app in Hlen.
    case (Z.leb_spec 1023); [lia|done].
Qed.

Lemma count_words_app m a b :
  count_words m (a ++ b) = count_words (count_words m a) b.
Proof. apply foldl_app. Qed.

Lemma abs_scan_block p b t :
  p <> Some [] ->
  pend_ok p (b :: []) ->
  Forall short_word (closed_runs (pend p) b) ->
  abs_scan p [] b t
  = (None, open_run (pend p) b, records t (closed_runs (pend p) b)).
Proof.
  intros Hne Hok Hshort. destruct p as [pre|]; simpl in *.
  - rewrite <- (app_nil_r pre) at 2 3.
    apply abs_scan_pended; [congruence|done|by rewrite app_nil_r].
  - apply abs_scan_unpended.
Qed.

Lemma abs_blocks_runs blocks : forall p t,
  p <> Some [] ->
  Forall short_word (maximal_runs (pend p) (concat blocks)) ->
  pend_ok p blocks ->
  inner_read blocks = false ->
  exists t',
    abs_blocks p t blocks = Some t' /\
    sub_count t' = count_words (sub_count t)
                     (maximal_runs (pend p) (concat blocks)) /\
    printed t' = printed t.
Proof.
  induction blocks as [|b bs IH]; intros p t Hne Hshort Hok Hinner.
  - exists (emit p [] t). split; [done|].
    destruct p as [[|c pre]|]; simpl; done.
  - cbn [concat] in *. rewrite maximal_runs_app in *.
    apply Forall_app in Hshort as [Hcl Hrest].
    cbn [abs_blocks].
    rewrite abs_scan_block; [|done|by destruct p|done].
    set (t1 := records (bump (length b) t) (closed_runs (pend p) b)).
    assert (Hsub : sub_count t1
                   = count_words (sub_count t) (closed_runs (pend p) b))
      by (unfold t1; by rewrite sub_count_records).
    assert (Hpr : printed t1 = printed t)
      by (unfold t1; by rewrite printed_records).
    assert (Hbs : inner_read bs = false).
    { destruct bs as [|b2 bs]; [done|]. cbn [inner_read] in Hinner.
      by apply orb_false_iff in Hinner as [_ ?]. }
    destruct (open_run (pend p) b) as [|c cur'] eqn:Hopen.
    + destruct (IH None t1) as (t' & Hrun & Hc & Hp); [done..|].
      exists t'. split; [done|].
      rewrite count_words_app, <- Hsub, <- Hpr. split; [exact Hc|exact Hp].
    + destruct (maximal_runs_open (concat bs) (c :: cur')) as (w & rest & Hw);
        [done|].
      assert (Hlen : Z.of_nat (length (c :: cur')) < 1023).
      { rewrite Hw in Hrest. apply Forall_cons in Hrest as [Hl _].
        unfold short_word in Hl. rewrite length_app in Hl. lia. }
      case (Z.leb_spec 1024); [lia|intros _].
      destruct (IH (Some (c :: cur')) t1) as (t' & Hrun & Hc & Hp);
        [done|done| |done|].
      * destruct bs as [|b2 bs]; [done|]. simpl.
        cbn [inner_read] in Hinner.
        apply orb_false_iff in Hinner as [Hin _].
        apply andb_false_iff in Hin as [Hend|Hall]; [|done].
        destruct (open_run_ends b (pend p)) as [->|He];
          [by rewrite Hopen| |congruence].
        destruct p as [pre|]; simpl in *; done.
      * exists t'. split; [done|].
        rewrite count_words_app, <- Hsub, <- Hpr. split; [exact Hc|exact Hp].
Qed.

(** ** Gluing a split word *)

Lemma until_nul_free l : nul_free (until_nul l).
Proof.
  induction l as [|c l IH]; simpl; [constructor|].
  destruct (Ascii.eqb c NUL) eqn:E; by constructor.
Qed.

Lemma until_nul_take l : take (length (until_nul l)) l = until_nul l.
Proof.
  induction l as [|c l IH]; simpl; [done|].
  destruct (Ascii.eqb c NUL); simpl; [done|]. by rewrite IH.
Qed.

Lemma until_nul_app_free l rest :
  nul_free l -> until_nul (l ++ rest) = l ++ until_nul rest.
Proof.
  induction 1 as [|c l Hc _ IH]; simpl; [done|]. by rewrite Hc, IH.
Qed.

Lemma until_nul_take_succ l :
  until_nul (take (length (until_nul l) + 1) l) = until_nul l.
Proof.
  induction l as [|c l IH]; simpl; [done|].
  destruct (Ascii.eqb c NUL) eqn:E; simpl; rewrite E; [done|]. by rewrite IH.
Qed.

Lemma found_split_word prefix suffix :
  c_str (take (length (c_str prefix 0)) prefix
         ++ take (length (c_str suffix 0) + 1) suffix) 0
  = c_str prefix 0 ++ c_str suffix 0.
Proof.
  unfold c_str. rewrite !drop_0, until_nul_take.
  rewrite until_nul_app_free by apply until_nul_free.
  by rewrite until_nul_take_succ.
Qed.

Lemma print_not_record d t w : print d t <> record t w.
Proof.
  intros H. apply (f_equal (fun x => length (printed x))) in H.
  simpl in H. rewrite length_app in H. simpl in H. lia.
Qed.

(** C5 (as amended).  [found] for a split word rejects the word, printing
    the "unreasonably long" diagnostic and leaving the table as it was,
    exactly when the combined length of the pending prefix and the
    continuation is at least 1023 bytes; it records the glued word (one
    more occurrence of prefix followed by suffix) exactly when the
    combined length is at most 1022 bytes.  In both cases the call
    returns a tally and the scan goes on. *)
Theorem found_split_limit (t : tally) (prefix suffix : list ascii) :
  let len := Z.of_nat (length (c_str prefix 0))
             + Z.of_nat (length (c_str suffix 0)) in
  (1023 <= len <->
   found_split t prefix suffix
   = print (WordTooLong (c_str prefix 0) (c_str suffix 0) len) t)
  /\
  (len <= 1022 <->
   found_split t prefix suffix = record t (c_str prefix 0 ++ c_str suffix 0)).
Proof.
  intros len.
  assert (Hrej : 1023 <= len ->
    found_split t prefix suffix
    = print (WordTooLong (c_str prefix 0) (c_str suffix 0) len) t).
  { intros H. unfold found_split. fold len.
    case (Z.leb_spec 1023 len); [done|lia]. }
  assert (Hrec : len <= 1022 ->
    found_split t prefix suffix = record t (c_str prefix 0 ++ c_str suffix 0)).
  { intros H. unfold found_split. fold len.
    case (Z.leb_spec 1023 len); [lia|intros _].
    rewrite found_record, !Nat2Z.id. by rewrite found_split_word. }
  split; (split; [done|]); intros Heq.
  - destruct (Z.le_gt_cases 1023 len) as [|Hlt]; [done|].
    rewrite Hrec in Heq by lia. symmetry in Heq.
    by apply print_not_record in Heq.
  - destruct (Z.le_gt_cases len 1022) as [|Hgt]; [done|].
    rewrite Hrej in Heq by lia. by apply print_not_record in Heq.
Qed.

(** C5, the claim as stated fails: a split word of exactly 1023 bytes (a
    pending prefix of 1 byte and a continuation of 1022 bytes) does not
    exceed the 1023-byte limit, yet it is rejected and logged, and the
    table stays empty. *)
Lemma found_split_rejects_1023 :
  let prefix := bytes "a" ++ [NUL] in
  let suffix := replicate 1022 "a"%char ++ [NUL] in
  let t := found_split empty_tally prefix suffix in
  Z.of_nat (length (c_str prefix 0)) + Z.of_nat (length (c_str suffix 0)) = 1023
  /\ map_to_list (sub_count t) = []
  /\ printed t = [WordTooLong (bytes "a") (replicate 1022 "a"%char) 1023].
Proof. vm_compute. done. Qed.

(** ** Words split across reads *)

(** C1 (as amended).  Take any partition of a file's bytes into reads
    that fit the worker's buffer, such that every word of the file is at
    most 1022 bytes long and no read lies wholly inside a word that an
    earlier read began.  Then the worker finishes the file, prints no
    diagnostic, and has added to its table exactly one occurrence for
    every maximal run of word bytes of the whole file: a word split
    across two reads is counted once, as the whole word.  The right-hand
    side mentions the content only, so the counts are the same for all
    such partitions. *)
Theorem split_word_counted_once (content : list ascii)
    (blocks : list (list ascii)) (buffer : list ascii) (t : tally) :
  concat blocks = content ->
  Forall (fun b => (length b < length buffer)%nat) blocks ->
  Forall short_word (words_of content) ->
  inner_read blocks = false ->
  exists buffer' t',
    wcounter_file blocks buffer t = Some (buffer', t') /\
    sub_count t' = count_words (sub_count t) (words_of content) /\
    printed t' = printed t.
Proof.
  intros <- Hfit Hshort Hinner. unfold wcounter_file, words_of in *.
  destruct (read_loop_abs blocks buffer None t Hfit I)
    as (buffer' & _ & Hrun).
  destruct (abs_blocks_runs blocks None t) as (t' & Habs & Hc & Hp);
    [done..|].
  exists buffer', t'. simpl in Hrun. rewrite Hrun, Habs. done.
Qed.

Lemma split_word_counted_once_witness :
  exists buffer' t',
    wcounter_file [bytes "x hel"; bytes "lo y"] fresh_buffer empty_tally
    = Some (buffer', t') /\
    sub_count t'
    = count_words (sub_count empty_tally) (words_of (bytes "x hello y")) /\
    printed t' = printed empty_tally.
Proof.
  apply (split_word_counted_once (bytes "x hello y")
           [bytes "x hel"; bytes "lo y"] fresh_buffer empty_tally).
  - reflexivity.
  - apply Forall_cons; split; [apply Nat.ltb_lt; vm_compute; reflexivity|].
    apply Forall_cons; split; [apply Nat.ltb_lt; vm_compute; reflexivity|].
    apply List.Forall_nil.
  - vm_compute. repeat constructor.
  - reflexivity.
Defined.

(** Two partitions of the same bytes, both within the limits of the
    theorem, give the same table. *)
Corollary counts_independent_of_partition (blocks1 blocks2 : list (list ascii))
    (buffer1 buffer2 : list ascii) (t : tally) :
  concat blocks1 = concat blocks2 ->
  Forall (fun b => (length b < length buffer1)%nat) blocks1 ->
  Forall (fun b => (length b < length buffer2)%nat) blocks2 ->
  Forall short_word (words_of (concat blocks1)) ->
  inner_read blocks1 = false -> inner_read blocks2 = false ->
  exists b1 t1 b2 t2,
    wcounter_file blocks1 buffer1 t = Some (b1, t1) /\
    wcounter_file blocks2 buffer2 t = Some (b2, t2) /\
    sub_count t1 = sub_count t2.
Proof.
  intros Heq Hf1 Hf2 Hshort Hi1 Hi2.
  destruct (abs_blocks_runs blocks1 None t) as (t1 & Ha1 & Hc1 & _);
    [done..|].
  destruct (abs_blocks_runs blocks2 None t) as (t2 & Ha2 & Hc2 & _);
    [done|by rewrite <- Heq|done|done|].
  destruct (read_loop_abs blocks1 buffer1 None t Hf1 I) as (b1 & _ & Hr1).
  destruct (read_loop_abs blocks2 buffer2 None t Hf2 I) as (b2 & _ & Hr2).
  exists b1, t1, b2, t2. unfold wcounter_file. simpl in Hr1, Hr2.
  rewrite Hr1, Hr2, Ha1, Ha2. repeat split; try done.
  rewrite Hc1, Hc2. simpl. by rewrite Heq.
Qed.

(** C1, the claim as stated fails.  Read in one block of 2048 bytes the
    file [long_word_file] yields its word once; read in blocks of 1024
    bytes, which split the word into 24 + 999 bytes, the same bytes yield
    an empty table. *)
Lemma block_size_changes_counts :
  concat (reads_of 1024 long_word_file) = concat (reads_of 2048 long_word_file)
  /\ counts_of (wcounter_file (reads_of 2048 long_word_file)
                  fresh_buffer empty_tally)
     = Some [(string_of_list_ascii (replicate 1023 "a"%char), 1)]
  /\ counts_of (wcounter_file (reads_of 1024 long_word_file)
                  fresh_buffer empty_tally)
     = Some [].
Proof. vm_compute. done. Qed.

(** ** A file that ends inside a word *)

(** C8, the code at the failing input.  With reads of 1024 bytes the
    second read returns [cd]; the copy at the end of that block
    overwrites the pending [ab], and the flush at end of stream counts
    [cd].  The last word of the file, [abcd], is not counted. *)
Lemma last_word_lost :
  reads_of 1024 tail_word_file
  = [replicate 1022 " "%char ++ bytes "ab"; bytes "cd"]
  /\ words_of tail_word_file = [bytes "abcd"]
  /\ counts_of (wcounter_file (reads_of 1024 tail_word_file)
                  fresh_buffer empty_tally)
     = Some [("cd"%string, 1)].
Proof. vm_compute. done. Qed.

(** ** The report order *)

Lemma ascii_compare_lt_trans x y z :
  Ascii.compare x y = Lt -> Ascii.compare y z = Lt -> Ascii.compare x z = Lt.
Proof.
  unfold Ascii.compare. rewrite !N.compare_lt_iff. lia.
Qed.

Lemma string_compare_refl a : String.compare a a = Eq.
Proof.
  induction a as [|x a IH]; simpl; [done|].
  assert (H : Ascii.compare x x = Eq)
    by (unfold Ascii.compare; apply N.compare_refl).
  by rewrite H.
Qed.

Lemma string_compare_lt_trans a : forall b c,
  String.compare a b = Lt -> String.compare b c = Lt ->
  String.compare a c = Lt.
Proof.
  induction a as [|x a IH]; intros [|y b] [|z c]; simpl; try done.
  destruct (Ascii.compare x y) eqn:Hxy; try done;
    destruct (Ascii.compare y z) eqn:Hyz; try done.
  - apply Ascii.compare_eq_iff in Hxy as ->. rewrite Hyz. apply IH.
  - apply Ascii.compare_eq_iff in Hxy as ->. by rewrite Hyz.
  - apply Ascii.compare_eq_iff in Hyz as <-. by rewrite Hxy.
  - by rewrite (ascii_compare_lt_trans x y z).
Qed.

Lemma string_lt_irrefl a : string_lt a a = false.
Proof. unfold string_lt, String.ltb. by rewrite string_compare_refl. Qed.

Lemma string_lt_trans a b c :
  string_lt a b = true -> string_lt b c = true -> string_lt a c = true.
Proof.
  unfold string_lt, String.ltb.
  destruct (String.compare a b) eqn:Hab; try done.
  destruct (String.compare b c) eqn:Hbc; try done.
  by rewrite (string_compare_lt_trans a b c).
Qed.

Lemma string_lt_total a b :
  a = b \/ string_lt a b = true \/ string_lt b a = true.
Proof.
  unfold string_lt, String.ltb. rewrite (String.compare_antisym a b).
  destruct (String.compare b a) eqn:H; simpl; auto.
  apply String.compare_eq_iff in H. auto.
Qed.

Lemma key_lt_spec a b :
  key_lt a b <-> b.1 < a.1 \/ (a.1 = b.1 /\ string_lt a.2 b.2 = true).
Proof.
  unfold key_lt, DefineSortOrder.
  rewrite orb_true_iff, andb_true_iff, Z.gtb_lt, Z.eqb_eq. done.
Qed.

Lemma key_lt_irrefl a : ~ key_lt a a.
Proof.
  rewrite key_lt_spec, string_lt_irrefl. intros [?|[_ ?]]; [lia|done].
Qed.

Lemma key_lt_trans a b c : key_lt a b -> key_lt b c -> key_lt a c.
Proof.
  rewrite !key_lt_spec. intros [?|[? Hab]] [?|[? Hbc]]; try (left; lia).
  right. split; [lia|]. by apply (string_lt_trans _ b.2).
Qed.

Lemma key_lt_total a b : a = b \/ key_lt a b \/ key_lt b a.
Proof.
  rewrite !key_lt_spec. destruct a as [ca wa], b as [cb wb]; simpl.
  destruct (Z.lt_trichotomy ca cb) as [?|[->|?]]; [auto|..|auto].
  destruct (string_lt_total wa wb) as [->|[?|?]]; auto.
Qed.

Lemma key_lt_asym a b : key_lt a b -> ~ key_lt b a.
Proof. intros H1 H2. by apply (key_lt_irrefl a), (key_lt_trans a b a). Qed.

Lemma map_assign_elem m key value : sorted_keys m -> forall e,
  e ∈ map_assign m key value <-> e = (key, value) \/ (e ∈ m /\ e.1 <> key).
Proof.
  unfold sorted_keys.
  induction m as [|[k v] m IH]; intros Hs e; simpl.
  - rewrite list_elem_of_singleton. set_solver.
  - apply StronglySorted_cons in Hs as [Hall Hs]. simpl in Hall.
    rewrite List.Forall_forall in Hall.
    setoid_rewrite <- list_elem_of_In in Hall.
    destruct (DefineSortOrder key k) eqn:E1;
      [|destruct (DefineSortOrder k key) eqn:E2].
    + rewrite !elem_of_cons. split; [|naive_solver].
      intros [->|[->|He]]; [by left|right; split..].
      * by left.
      * simpl. intros ->. by apply (key_lt_irrefl key).
      * by right.
      * intros <-. apply (key_lt_asym e.1 k); [done|]. by apply Hall.
    + rewrite !elem_of_cons, IH by done. split.
      * intros [->|[->|[He Hne]]]; [right; split; [by left|]|by left|].
        -- simpl. intros ->. by apply (key_lt_irrefl key).
        -- right. split; [by right|done].
      * intros [->|[[->|He] Hne]]; [by right; left|by left|].
        right. right. by split.
    + assert (k = key) as ->.
      { destruct (key_lt_total k key) as [?|[H|H]]; [done|..];
          unfold key_lt in H; congruence. }
      rewrite !elem_of_cons. split.
      * intros [->|He]; [by left|]. right. split; [by right|].
        intros <-. by apply (key_lt_irrefl e.1), Hall.
      * intros [->|[[->|He] Hne]]; [by left|done|by right].
Qed.

Lemma map_assign_sorted m key value :
  sorted_keys m -> sorted_keys (map_assign m key value).
Proof.
  unfold sorted_keys.
  induction m as [|[k v] m IH]; intros Hs; simpl.
  - repeat constructor.
  - pose proof Hs as Hs0.
    apply StronglySorted_cons in Hs as [Hall Hs]. simpl in Hall.
    destruct (DefineSortOrder key k) eqn:E1;
      [|destruct (DefineSortOrder k key) eqn:E2].
    + apply StronglySorted_cons. split; [|done].
      constructor; [done|]. simpl.
      eapply Forall_impl; [exact Hall|]. intros x Hx. simpl in *.
      by apply (key_lt_trans key k).
    + apply StronglySorted_cons. split; [|by apply IH].
      apply List.Forall_forall. intros x Hx.
      apply list_elem_of_In, map_assign_elem in Hx; [|done].
      destruct Hx as [->|[Hx _]]; [done|].
      rewrite List.Forall_forall in Hall. by apply Hall, list_elem_of_In.
    + apply StronglySorted_cons. by split.
Qed.

Lemma sort_totals_inv entries : forall m,
  sorted_keys m -> mirrored m ->
  let m' := foldl (fun m e => map_assign m (e.2, e.1) (e.1, e.2)) m entries in
  sorted_keys m' /\ mirrored m' /\
  forall x, x ∈ m' <-> x ∈ m \/ exists e, e ∈ entries /\ x = entry_of e.
Proof.
  induction entries as [|e entries IH]; intros m Hs Hm; simpl.
  - split; [done|]. split; [done|]. intros x. set_solver.
  - assert (Hel : forall x, x ∈ map_assign m (e.2, e.1) (e.1, e.2)
                            <-> x ∈ m \/ x = entry_of e).
    { intros x. rewrite map_assign_elem by done. split.
      - intros [->|[? _]]; [by right|by left].
      - intros [Hx| ->]; [|by left].
        destruct (decide (x.1 = (e.2, e.1))) as [Heq|]; [|by right].
        left. unfold mirrored in Hm. rewrite List.Forall_forall in Hm.
        apply list_elem_of_In, Hm in Hx. destruct x as [k v]; simpl in *.
        by rewrite Hx, Heq. }
    destruct (IH (map_assign m (e.2, e.1) (e.1, e.2))) as (Hs' & Hm' & Hx').
    + by apply map_assign_sorted.
    + apply List.Forall_forall. intros x Hx.
      apply list_elem_of_In, Hel in Hx. destruct Hx as [Hx|Hx]; [|by subst x].
      unfold mirrored in Hm. rewrite List.Forall_forall in Hm.
      by apply Hm, list_elem_of_In.
    + split; [done|]. split; [done|]. intros x.
      rewrite Hx', Hel. setoid_rewrite elem_of_cons. naive_solver.
Qed.

Lemma precedes_key e1 e2 : precedes e1 e2 <-> key_lt (e1.2, e1.1) (e2.2, e2.1).
Proof. by rewrite key_lt_spec. Qed.

Lemma report_lines_sorted m :
  sorted_keys m -> mirrored m -> StronglySorted precedes (report_lines m).
Proof.
  unfold sorted_keys, mirrored, report_lines.
  induction m as [|[k v] m IH]; intros Hs Hm; simpl; [constructor|].
  apply StronglySorted_cons in Hs as [Hall Hs].
  apply Forall_cons in Hm as [Hv Hm]. simpl in *. subst v.
  constructor; [by apply IH|].
  apply List.Forall_forall. intros x Hx.
  apply list_elem_of_In, list_elem_of_fmap in Hx as ([k' v'] & -> & Hx).
  rewrite List.Forall_forall in Hall, Hm.
  apply list_elem_of_In in Hx. pose proof (Hall _ Hx) as Hlt.
  pose proof (Hm _ Hx) as Hv'. simpl in *. subst v'.
  apply precedes_key. simpl. by destruct k, k'.
Qed.

Lemma sorted_lookup_lt (r : list (string * Z)) : StronglySorted precedes r ->
  forall (i j : nat) e1 e2,
    r !! i = Some e1 -> r !! j = Some e2 -> (i < j)%nat -> precedes e1 e2.
Proof.
  induction 1 as [|x r Hs IH Hall]; intros i j e1 e2 Hi Hj Hlt; [done|].
  destruct j as [|j]; [lia|]. simpl in Hj.
  destruct i as [|i]; simpl in Hi.
  - injection Hi as <-. rewrite List.Forall_forall in Hall.
    by eapply Hall, list_elem_of_In, list_elem_of_lookup_2.
  - apply (IH i j); [done..|lia].
Qed.

Lemma sorted_ordered (r : list (string * Z)) :
  StronglySorted precedes r -> ordered_by_precedes r.
Proof.
  intros Hs i j e1 e2 Hi Hj. split; [by apply (sorted_lookup_lt r)|].
  intros Hp. destruct (Nat.lt_trichotomy i j) as [?|[->|Hji]]; [done|..].
  - rewrite Hi in Hj. injection Hj as ->.
    apply precedes_key in Hp. by apply key_lt_irrefl in Hp.
  - pose proof (sorted_lookup_lt r Hs j i e2 e1 Hj Hi Hji) as Hp'.
    apply precedes_key in Hp, Hp'. by apply key_lt_asym in Hp.
Qed.

Lemma sorted_keys_unique (m1 : SortOrder) : forall m2 : SortOrder,
  sorted_keys m1 -> sorted_keys m2 -> mirrored m1 -> mirrored m2 ->
  (forall x, x ∈ m1 <-> x ∈ m2) -> m1 = m2.
Proof.
  unfold sorted_keys, mirrored.
  induction m1 as [|x m1 IH]; intros [|y m2] Hs1 Hs2 Hm1 Hm2 Hel.
  - done.
  - exfalso. apply (elem_of_nil y), Hel. by left.
  - exfalso. apply (elem_of_nil x), Hel. by left.
  - apply StronglySorted_cons in Hs1 as [Hx Hs1].
    apply StronglySorted_cons in Hs2 as [Hy Hs2].
    apply Forall_cons in Hm1 as [Hmx Hm1].
    apply Forall_cons in Hm2 as [Hmy Hm2].
    rewrite List.Forall_forall in Hx, Hy.
    assert (Hxy : x = y).
    { assert (Hx2 : x ∈ y :: m2) by (apply Hel; by left).
      assert (Hy1 : y ∈ x :: m1) by (apply Hel; by left).
      apply elem_of_cons in Hx2 as [?|Hx2]; [done|].
      apply elem_of_cons in Hy1 as [?|Hy1]; [done|].
      apply list_elem_of_In, Hy in Hx2. apply list_elem_of_In, Hx in Hy1.
      by apply key_lt_asym in Hx2. }
    subst y. f_equal. apply IH; try done. intros z. split; intros Hz.
    + assert (Hz' : z ∈ x :: m2) by (apply Hel; by right).
      apply elem_of_cons in Hz' as [->|?]; [|done].
      apply list_elem_of_In, Hx in Hz. by apply key_lt_irrefl in Hz.
    + assert (Hz' : z ∈ x :: m1) by (apply Hel; by right).
      apply elem_of_cons in Hz' as [->|?]; [|done].
      apply list_elem_of_In, Hy in Hz. by apply key_lt_irrefl in Hz.
Qed.

(** X6.  The table can be traversed in any order: the sorted map that
    results is the same.  ([std::map] iterates by increasing word; the
    finite map of the model has its own order.) *)
Lemma sort_totals_any_order (entries1 entries2 : list (string * Z)) :
  entries1 ≡ₚ entries2 -> sort_totals entries1 = sort_totals entries2.
Proof.
  intros Hperm. unfold sort_totals.
  destruct (sort_totals_inv entries1 []) as (Hs1 & Hm1 & Hel1);
    [constructor|constructor|].
  destruct (sort_totals_inv entries2 []) as (Hs2 & Hm2 & Hel2);
    [constructor|constructor|].
  apply sorted_keys_unique; try done.
  intros x. rewrite Hel1, Hel2. by setoid_rewrite Hperm.
Qed.

(** C4.  The report built from an aggregate table lists exactly the
    entries of the table, no word twice, and the position of any two of
    its lines is decided by the order "higher count first, then smaller
    word first": line [i] comes before line [j] exactly when its entry
    precedes the other in that order. *)
Theorem report_strict_total_order (totals : WordCount) :
  ordered_by_precedes (report_of totals)
  /\ NoDup (report_of totals).*1
  /\ forall (w : string) (c : Z),
       (w, c) ∈ report_of totals <-> totals !! w = Some c.
Proof.
  unfold report_of, sort_totals.
  destruct (sort_totals_inv (map_to_list totals) []) as (Hs & Hm & Hel);
    [constructor|constructor|].
  set (m := foldl _ _ _) in *.
  assert (Hin : forall w c, (w, c) ∈ report_lines m <-> totals !! w = Some c).
  { intros w c. unfold report_lines. rewrite list_elem_of_fmap. split.
    - intros ([k v] & Hv & Hx). apply Hel in Hx as [Hx|(e & He & Hx)];
        [by apply elem_of_nil in Hx|].
      injection Hx as -> ->. simpl in Hv. destruct e as [w' c'].
      injection Hv as -> ->. by apply elem_of_map_to_list.
    - intros Hw. exists (entry_of (w, c)). split; [done|].
      apply Hel. right. exists (w, c). split; [|done].
      by apply elem_of_map_to_list. }
  pose proof (sorted_ordered _ (report_lines_sorted m Hs Hm)) as Hord.
  split; [done|]. split; [|done].
  apply NoDup_alt. intros i j w Hi Hj.
  rewrite list_lookup_fmap in Hi, Hj.
  destruct (report_lines m !! i) as [[w1 c1]|] eqn:Ei; [|done].
  destruct (report_lines m !! j) as [[w2 c2]|] eqn:Ej; [|done].
  simpl in *. injection Hi as ->. injection Hj as ->.
  assert (c1 = c2) as ->.
  { apply list_elem_of_lookup_2, Hin in Ei, Ej. congruence. }
  destruct (Nat.lt_trichotomy i j) as [Hlt|[?|Hlt]]; [|done|].
  - apply (Hord i j _ _ Ei Ej), precedes_key in Hlt.
    by apply key_lt_irrefl in Hlt.
  - apply (Hord j i _ _ Ej Ei), precedes_key in Hlt.
    by apply key_lt_irrefl in Hlt.
Qed.

(** ** The end of the run *)

(** C9 (as amended).  Once the workers and the producer are joined,
    [main] ends in one of three ways.  It prints the mismatch diagnostic
    and exits without a report exactly when the number of files claimed
    differs from the number expected.  When the two agree, a run that is
    not silent and scanned no block or no byte also exits early without
    a report.  In every other case the sorted table is built, and its
    lines are printed only when the run is not silent. *)
Theorem main_tail_outcomes (cfg : config)
    (file_count expected_file_count blocks bytes : Z)
    (sub_counts : list WordCount) :
  let out := main_tail cfg file_count expected_file_count blocks bytes
               sub_counts in
  let sorted := sort_totals (map_to_list (aggregate cfg sub_counts)) in
  (file_count <> expected_file_count
   <-> out = ExitMismatch expected_file_count file_count)
  /\ (file_count = expected_file_count /\ silent cfg = false
      /\ (blocks = 0 \/ bytes = 0)
      <-> out = ExitNothingScanned)
  /\ (file_count = expected_file_count
      /\ (silent cfg = true \/ (blocks <> 0 /\ bytes <> 0))
      <-> out = Finished sorted
                  (if silent cfg then [] else report_lines sorted)).
Proof.
  unfold main_tail, aggregate.
  destruct (Z.eqb_spec file_count expected_file_count) as [Heq|Hne];
    destruct (silent cfg) eqn:Hs;
    destruct (Z.eqb_spec blocks 0) as [Hb|Hb];
    destruct (Z.eqb_spec bytes 0) as [Hy|Hy];
    destruct (parallel_merge cfg); simpl;
    (split; [|split]); split; intros H;
    try done; try congruence; try (exfalso; intuition congruence);
    intuition (first [congruence|done]).
Qed.

(** C9, the claim as stated fails: a verbose run whose only file is
    empty claims one file and expects one, yet it exits early with no
    report; and a silent run of an empty directory has matching counts
    and runs to the end, yet prints no report. *)
Lemma matching_counts_without_report :
  main_tail default_config 1 1 0 0 [∅] = ExitNothingScanned
  /\ main_tail (Config 1 16 false true) 0 0 0 0 [∅] = Finished [] [].
Proof. split; reflexivity. Qed.

(** ** The thread count *)

(** C6, the code at the failing input.  [-n65] is stored as it is: no
    comparison with [MAXTHREADS] takes place, and worker number 64 is
    then used as an index although the arrays end at 63.  The option
    [-b] next to it is capped. *)
Lemma nthreads_not_checked :
  parse_options default_config ["-n65"; "src"]%string
  = Run (Config 65 16 false false) "src"
  /\ 64 ∈ worker_ids (Config 65 16 false false)
  /\ ~ in_bounds 64
  /\ parse_options default_config ["-b500"; "src"]%string
     = Run (Config 1 127 false false) "src".
Proof.
  split; [reflexivity|]. split; [|split; [|reflexivity]].
  - unfold worker_ids. apply list_elem_of_fmap. exists 64%nat.
    split; [done|]. apply list_elem_of_In, in_seq. simpl. lia.
  - unfold in_bounds, MAXTHREADS. lia.
Qed.

(** ** Adding tables *)

Lemma wrap_int_is_int z : is_int (wrap_int z).
Proof.
  unfold is_int, wrap_int.
  pose proof (Z.mod_pos_bound (z + 2 ^ 31) (2 ^ 32) eq_refl). lia.
Qed.

Lemma wrap_int_id z : is_int z -> wrap_int z = z.
Proof.
  unfold is_int, wrap_int. intros H. rewrite Z.mod_small; lia.
Qed.

Lemma wrap_int_add_l a b : wrap_int (wrap_int a + b) = wrap_int (a + b).
Proof.
  unfold wrap_int. f_equal.
  replace ((a + 2 ^ 31) mod 2 ^ 32 - 2 ^ 31 + b + 2 ^ 31)
    with ((a + 2 ^ 31) mod 2 ^ 32 + b) by lia.
  rewrite Zplus_mod_idemp_l. f_equal. lia.
Qed.

Lemma wrap_int_add_r a b : wrap_int (a + wrap_int b) = wrap_int (a + b).
Proof. by rewrite Z.add_comm, wrap_int_add_l, Z.add_comm. Qed.

Lemma lookup_add_table (dst src : WordCount) (w : string) :
  add_table dst src !! w
  = match src !! w with
    | Some c => Some (wrap_int (count_of dst w + c))
    | None => dst !! w
    end.
Proof.
  unfold add_table. revert w.
  apply (map_fold_weak_ind
           (fun r m => forall w, r !! w
              = match m !! w with
                | Some c => Some (wrap_int (count_of dst w + c))
                | None => dst !! w
                end)).
  - intros w. by rewrite lookup_empty.
  - intros i x m r Hi IH w. unfold add_count.
    destruct (decide (i = w)) as [->|Hne].
    + rewrite !lookup_insert_eq. unfold count_of. by rewrite IH, Hi.
    + rewrite !lookup_insert_ne by done. apply IH.
Qed.

Lemma count_of_add_table dst src w :
  count_of (add_table dst src) w
  = match src !! w with
    | Some c => wrap_int (count_of dst w + c)
    | None => count_of dst w
    end.
Proof.
  unfold count_of at 1. rewrite lookup_add_table. by destruct (src !! w).
Qed.

Lemma add_table_assoc (a b c : WordCount) :
  add_table (add_table a b) c = add_table a (add_table b c).
Proof.
  apply map_eq. intros w.
  rewrite (lookup_add_table (add_table a b) c),
    (lookup_add_table a (add_table b c)), (lookup_add_table b c),
    count_of_add_table, (lookup_add_table a b).
  unfold count_of.
  destruct (c !! w) as [cc|], (b !! w) as [cb|]; simpl; try done.
  - rewrite wrap_int_add_l, wrap_int_add_r. do 2 f_equal. lia.
  - by rewrite wrap_int_add_r.
Qed.

Lemma add_table_empty_r (a : WordCount) : add_table a ∅ = a.
Proof. apply map_eq. intros w. by rewrite lookup_add_table, lookup_empty. Qed.

Lemma add_table_empty_l (a : WordCount) : int_table a -> add_table ∅ a = a.
Proof.
  intros Ha. apply map_eq. intros w. rewrite lookup_add_table.
  destruct (a !! w) as [c|] eqn:E; [|by rewrite lookup_empty].
  unfold count_of. rewrite lookup_empty. simpl.
  by rewrite wrap_int_id by exact (Ha w c E).
Qed.

Lemma add_table_int (a b : WordCount) :
  int_table a -> int_table (add_table a b).
Proof.
  intros Ha w c. rewrite lookup_add_table.
  destruct (b !! w); [|by apply Ha].
  intros [= <-]. apply wrap_int_is_int.
Qed.

Lemma big_int l : Forall int_table l -> int_table (big l).
Proof.
  induction 1 as [|a l Ha _ IH]; simpl; [by intros ? ?|].
  by apply add_table_int.
Qed.

Lemma big_app l1 l2 :
  Forall int_table l2 -> big (l1 ++ l2) = add_table (big l1) (big l2).
Proof.
  intros H2. induction l1 as [|a l1 IH]; simpl.
  - by rewrite add_table_empty_l by by apply big_int.
  - by rewrite IH, add_table_assoc.
Qed.

Lemma foldl_add_table l : forall a,
  foldl add_table a l = add_table a (big l).
Proof.
  induction l as [|x l IH]; intros a; simpl.
  - by rewrite add_table_empty_r.
  - by rewrite IH, add_table_assoc.
Qed.

Lemma sequential_totals_big (subs : list WordCount) :
  Forall int_table subs ->
  sequential_totals (Z.of_nat (length subs)) subs = big subs.
Proof.
  intros Hint. unfold sequential_totals. rewrite Nat2Z.id.
  rewrite <- (add_table_empty_l (big subs)) by by apply big_int.
  rewrite <- foldl_add_table.
  assert (H : forall (k : nat) a, (k <= length subs)%nat ->
            foldl (fun t n => add_table t (table_at subs n)) a
                  (seq (length subs - k) k)
            = foldl add_table a (drop (length subs - k) subs)).
  { intros k. induction k as [|k IH]; intros a Hk; simpl.
    - rewrite Nat.sub_0_r. by rewrite drop_all.
    - destruct (subs !! (length subs - S k)%nat) as [y|] eqn:E;
        [|apply lookup_ge_None in E; lia].
      assert (Ht : table_at subs (length subs - S k) = y)
        by (unfold table_at; by rewrite E).
      rewrite (drop_S _ _ _ E). simpl. rewrite Ht.
      replace (S (length subs - S k)) with (length subs - k)%nat by lia.
      apply IH. lia. }
  specialize (H (length subs) ∅ (le_n _)).
  by rewrite Nat.sub_diag, drop_0 in H.
Qed.

(** ** Worker numbers and merge rounds

    In round [k] of the merge the locals [partner] and [bit] hold
    [2 ^ k].  At most [MAXTHREADS] workers exist, so the facts about
    worker numbers and rounds that the proof needs are checked over all
    of them. *)

Lemma forall_below_spec b P :
  forall_below b P = true -> forall n, (n < b)%nat -> P n = true.
Proof.
  unfold forall_below. rewrite forallb_forall. intros H n Hn.
  apply H, in_seq. lia.
Qed.

Lemma aligned_next n k :
  (n < 64)%nat -> (k < 8)%nat ->
  aligned n k = true -> bit_set n k = false -> aligned n (S k) = true.
Proof.
  intros Hn Hk.
  assert (H : forall_below 64 (fun n => forall_below 8 (fun k =>
            implb (aligned n k) (implb (negb (bit_set n k)) (aligned n (S k)))))
          = true) by (vm_compute; reflexivity).
  pose proof (forall_below_spec _ _ (forall_below_spec _ _ H n Hn) k Hk) as Hc.
  simpl in Hc. intros Ha Hb. by rewrite Ha, Hb in Hc.
Qed.

Lemma child_round n k k' :
  (n + 2 ^ k < 64)%nat -> (k < 8)%nat -> (k' < 8)%nat ->
  aligned n (S k) = true -> aligned (n + 2 ^ k) k' = true ->
  (k' <= k)%nat /\ (bit_set (n + 2 ^ k) k' = true -> k' = k).
Proof.
  intros Hn Hk Hk'.
  assert (Hn' : (n < 64)%nat) by lia.
  assert (H : forall_below 64 (fun n => forall_below 8 (fun k =>
            forall_below 8 (fun k' =>
              implb (n + 2 ^ k <? 64)%nat
                (implb (aligned n (S k))
                   (implb (aligned (n + 2 ^ k) k')
                      ((k' <=? k)%nat
                       && implb (bit_set (n + 2 ^ k) k') (k' =? k)%nat))))))
          = true) by (vm_compute; reflexivity).
  pose proof (forall_below_spec _ _
                (forall_below_spec _ _
                   (forall_below_spec _ _ H n Hn') k Hk) k' Hk') as Hc.
  simpl in Hc. intros Ha Ha'. rewrite Ha, Ha' in Hc.
  apply Nat.ltb_lt in Hn. rewrite Hn in Hc. simpl in Hc.
  apply andb_true_iff in Hc as [Hle Hc]. apply Nat.leb_le in Hle.
  split; [done|]. intros Hb. rewrite Hb in Hc. by apply Nat.eqb_eq in Hc.
Qed.

Lemma parent_unique n k n' k' :
  (n + 2 ^ k < 64)%nat -> (k < 8)%nat -> (k' < 8)%nat ->
  aligned n (S k) = true -> aligned n' (S k') = true ->
  (n + 2 ^ k = n' + 2 ^ k')%nat -> n = n' /\ k = k'.
Proof.
  intros Hn Hk Hk' Ha Ha' Heq.
  assert (Hn0 : (n < 64)%nat) by lia.
  assert (Hn0' : (n' < 64)%nat) by lia.
  assert (Hal : aligned (n + 2 ^ k) k' = true).
  { rewrite Heq.
    assert (H : forall_below 64 (fun n => forall_below 8 (fun k =>
              implb (aligned n (S k)) (aligned (n + 2 ^ k) k))) = true)
      by (vm_compute; reflexivity).
    pose proof (forall_below_spec _ _ (forall_below_spec _ _ H n' Hn0') k' Hk')
      as Hc. simpl in Hc. by rewrite Ha' in Hc. }
  assert (Hal' : aligned (n' + 2 ^ k') k = true).
  { rewrite <- Heq.
    assert (H : forall_below 64 (fun n => forall_below 8 (fun k =>
              implb (aligned n (S k)) (aligned (n + 2 ^ k) k))) = true)
      by (vm_compute; reflexivity).
    pose proof (forall_below_spec _ _ (forall_below_spec _ _ H n Hn0) k Hk)
      as Hc. simpl in Hc. by rewrite Ha in Hc. }
  destruct (child_round n k k' Hn Hk Hk' Ha Hal) as [Hle _].
  destruct (child_round n' k' k) as [Hle' _]; [lia|done..|].
  assert (k = k') as -> by lia. split; [lia|done].
Qed.

Lemma aligned_0 n : aligned n 0 = true.
Proof.
  unfold aligned. change (2 ^ 0)%nat with 1%nat.
  rewrite Nat.mod_1_r. reflexivity.
Qed.

Lemma pw_S k : pw (S k) = 2 * pw k.
Proof. unfold pw. rewrite Nat.pow_succ_r'. lia. Qed.

Lemma pw_pos k : 0 < pw k.
Proof.
  unfold pw. pose proof (Nat.pow_nonzero 2 k). lia.
Qed.

Lemma pow2_bound k : (k < 8)%nat -> (2 ^ k <= 128)%nat.
Proof.
  intros Hk. change 128%nat with (2 ^ 7)%nat. apply Nat.pow_le_mono_r; lia.
Qed.

Lemma wrap_int_small z : 0 <= z < 1024 -> wrap_int z = z.
Proof. intros H. apply wrap_int_id. unfold is_int. lia. Qed.

Lemma sum_list_insert {A} (f : A -> nat) (l : list A) : forall n pc pc',
  l !! n = Some pc ->
  (sum_list (f <$> <[n := pc']> l) + f pc
   = sum_list (f <$> l) + f pc')%nat.
Proof.
  induction l as [|x l IH]; intros [|n] pc pc' Hn; simpl in *; try done.
  - injection Hn as ->. lia.
  - specialize (IH n pc pc' Hn). unfold fmap in IH. lia.
Qed.

Lemma pw_le k k' : pw k <= pw k' <-> (k <= k')%nat.
Proof.
  unfold pw. rewrite <- Nat2Z.inj_le.
  symmetry. apply Nat.pow_le_mono_r_iff. lia.
Qed.

Lemma pw_lt k k' : pw k < pw k' <-> (k < k')%nat.
Proof.
  unfold pw. rewrite <- Nat2Z.inj_lt.
  symmetry. apply Nat.pow_lt_mono_r_iff. lia.
Qed.

Lemma partner_index n k :
  (n < 64)%nat -> (k < 8)%nat ->
  wrap_int (Z.of_nat n + pw k) = Z.of_nat (n + 2 ^ k).
Proof.
  intros Hn Hk. pose proof (pow2_bound k Hk). unfold pw.
  rewrite wrap_int_small; lia.
Qed.

Lemma shift_pw k : (k < 8)%nat -> wrap_int (Z.shiftl (pw k) 1) = pw (S k).
Proof.
  intros Hk. pose proof (pow2_bound k Hk).
  rewrite Z.shiftl_mul_pow2, pw_S by lia. unfold pw.
  rewrite wrap_int_small; lia.
Qed.

Lemma pow2_lt_64 k : (2 ^ k < 64)%nat -> (k < 6)%nat.
Proof.
  change 64%nat with (2 ^ 6)%nat. intros H.
  apply (Nat.pow_lt_mono_r_iff 2); [lia|done].
Qed.

Lemma last_running (l : list merge_pc) :
  ~ Forall (fun pc => pc = Returned) l ->
  exists n pc, l !! n = Some pc /\ pc <> Returned /\
    forall m, (n < m)%nat -> (m < length l)%nat -> l !! m = Some Returned.
Proof.
  induction l as [|x l IH] using rev_ind; intros Hnot.
  - destruct Hnot. constructor.
  - assert (Hx : x = Returned \/ x <> Returned)
      by (destruct x; auto; right; done).
    destruct Hx as [->|Hx].
    + destruct IH as (n & pc & Hn & Hpc & Hafter).
      { intros Hl. apply Hnot. apply Forall_app. split; [done|].
        by constructor. }
      exists n, pc. split; [by apply lookup_app_l_Some|]. split; [done|].
      intros m Hnm Hm. rewrite length_app in Hm. simpl in Hm.
      destruct (decide (m < length l)%nat).
      * rewrite lookup_app_l by done. by apply Hafter.
      * rewrite lookup_app_r by lia.
        by replace (m - length l)%nat with 0%nat by lia.
    + exists (length l), x. split; [by rewrite list_lookup_middle|].
      split; [done|]. intros m Hnm Hm. rewrite length_app in Hm.
      simpl in Hm. lia.
Qed.

Lemma log2_pw k : Z.to_nat (Z.log2 (pw k)) = k.
Proof.
  unfold pw. rewrite Nat2Z.inj_pow. change (Z.of_nat 2) with 2.
  rewrite Z.log2_pow2 by lia. lia.
Qed.

Lemma all_returned_dec s : all_returned s \/ ~ all_returned s.
Proof.
  unfold all_returned. induction (pcs s) as [|pc l IH].
  - left. constructor.
  - destruct IH as [IH|IH].
    + destruct pc; [right; by inversion 1..|left; by constructor].
    + right. inversion 1; subst. by apply IH.
Qed.

Ltac ins :=
  repeat first
    [ rewrite list_lookup_insert_eq by (try done; lia)
    | rewrite list_lookup_insert_ne by (try done; lia) ].

Ltac ins_in H :=
  repeat first
    [ rewrite list_lookup_insert_eq in H by (try done; lia)
    | rewrite list_lookup_insert_ne in H by (try done; lia) ].

(** ** The invariant of the parallel merge *)

Section tree_merge.

Variable subs : list WordCount.
Hypothesis subs_int : Forall int_table subs.
Hypothesis subs_bound : (length subs <= 64)%nat.

Lemma worker_ok_frame s s' n pc :
  worker_ok subs s n pc ->
  tables s' !! n = tables s !! n ->
  (pc <> Returned -> ready s' !! n = ready s !! n) ->
  (forall m, pcs s !! m = Some Returned -> pcs s' !! m = Some Returned) ->
  worker_ok subs s' n pc.
Proof.
  intros Hok Ht Hr Hp. destruct pc as [p b|p b|p b|]; simpl in *.
  - destruct Hok as (k & ? & ? & ? & ? & ? & ?). exists k.
    rewrite Ht, Hr by done. done.
  - destruct Hok as (k & ? & ? & ? & ? & ? & ? & ?). exists k.
    rewrite Ht, Hr by done. done.
  - destruct Hok as (k & ? & ? & ? & ? & ? & ? & ? & ?). exists k.
    rewrite Ht, Hr by done. repeat split; try done. by apply Hp.
  - destruct Hok as (k & ? & ? & ? & ?). exists k. by rewrite Ht.
Qed.

Lemma span_0 n x : subs !! n = Some x -> span subs n 0 = x.
Proof.
  intros H. unfold span. rewrite (drop_S _ _ _ H). simpl.
  apply add_table_empty_r.
Qed.

Lemma span_merge n k k' :
  (k' <= k)%nat ->
  (length subs <= n + 2 ^ k + 2 ^ k')%nat \/ k' = k ->
  add_table (span subs n k) (span subs (n + 2 ^ k) k') = span subs n (S k).
Proof.
  intros Hle Hcase. unfold span.
  assert (Hk : take (2 ^ k') (drop (n + 2 ^ k) subs)
               = take (2 ^ k) (drop (n + 2 ^ k) subs)).
  { destruct Hcase as [Hlen| ->]; [|done].
    assert (2 ^ k' <= 2 ^ k)%nat by (apply Nat.pow_le_mono_r; lia).
    rewrite !take_ge; [done|rewrite length_drop; lia..]. }
  rewrite Hk, <- big_app.
  - f_equal. rewrite Nat.pow_succ_r', <- (drop_drop subs (2 ^ k) n).
    replace (2 * 2 ^ k)%nat with (2 ^ k + 2 ^ k)%nat by lia.
    by rewrite take_take_drop.
  - by apply Forall_take, Forall_drop.
Qed.

Lemma merge_init_inv : merge_inv subs (merge_init subs).
Proof.
  unfold merge_init. split; cbn [tables ready pcs].
  - done.
  - apply length_replicate.
  - apply length_replicate.
  - intros n pc Hn. apply lookup_replicate in Hn as [-> Hn].
    exists 0%nat. destruct (lookup_lt_is_Some_2 subs n Hn) as [x Hx].
    cbn [tables ready pcs].
    split; [lia|]. split; [done|]. split; [done|].
    split; [apply aligned_0|]. split; [by rewrite (span_0 n x Hx)|].
    by apply lookup_replicate.
  - intros m v Hm. apply lookup_replicate in Hm as [-> _]. by left.
  - intros n k pc _ _ _ _ Hc. by apply lookup_replicate in Hc as [? _].
Qed.

Lemma inv_release s n k :
  merge_inv subs s ->
  pcs s !! n = Some (AtLoop (pw k) (pw k)) ->
  (k < 8)%nat -> aligned n k = true ->
  tables s !! n = Some (span subs n k) -> ready s !! n = Some 0 ->
  (length subs <= n + 2 ^ k)%nat \/ bit_set n k = true ->
  merge_inv subs (release_and_return n s).
Proof.
  intros [HT HR HP Hw Hs Hc] Hpc Hk Hal Ht Hr Hwhy.
  assert (Hn : (n < length subs)%nat)
    by (rewrite <- HP; by eapply lookup_lt_Some).
  assert (Hstable : forall m, pcs s !! m = Some Returned ->
                      <[n := Returned]> (pcs s) !! m = Some Returned).
  { intros m Hm. destruct (decide (m = n)) as [->|]; [congruence|by ins]. }
  unfold release_and_return. rewrite Hr. simpl.
  split; cbn [tables ready pcs].
  - done.
  - by rewrite length_insert.
  - by rewrite length_insert.
  - intros m pc Hm. destruct (decide (m = n)) as [->|Hne].
    + ins_in Hm. injection Hm as <-. by exists k.
    + ins_in Hm. apply (worker_ok_frame s); cbn [tables ready pcs];
        [by apply Hw|done|intros; by ins|done].
  - intros m v Hm. destruct (decide (m = n)) as [->|Hne].
    + ins_in Hm. injection Hm as <-. right. split; [done|by ins].
    + ins_in Hm. destruct (Hs m v Hm) as [?|[? ?]]; [by left|right].
      split; [done|by ins].
  - intros m k' pc Hk' Hal' Hm Hbr Hch.
    assert (m <> n).
    { intros ->. ins_in Hm. injection Hm as <-. done. }
    ins_in Hm. destruct (decide ((m + 2 ^ k')%nat = n)) as [He|He].
    + rewrite He. by ins.
    + ins_in Hch. ins. by apply (Hc m k' pc).
Qed.

Lemma inv_to_acquire s n k :
  merge_inv subs s ->
  pcs s !! n = Some (AtLoop (pw k) (pw k)) ->
  (k < 8)%nat -> aligned n (S k) = true ->
  (n + 2 ^ k < length subs)%nat ->
  tables s !! n = Some (span subs n k) -> ready s !! n = Some 0 ->
  merge_inv subs (set_pc n (AtAcquire (pw k) (pw k)) s).
Proof.
  intros [HT HR HP Hw Hs Hc] Hpc Hk Hal Hlt Ht Hr.
  assert (Hn : (n < length subs)%nat) by lia.
  assert (Hstable : forall m pc', pcs s !! m = Some Returned ->
                      <[n := pc']> (pcs s) !! m = Some Returned).
  { intros m pc' Hm. destruct (decide (m = n)) as [->|]; [congruence|by ins]. }
  unfold set_pc. split; cbn [tables ready pcs].
  - done.
  - done.
  - by rewrite length_insert.
  - intros m pc Hm. destruct (decide (m = n)) as [->|Hne].
    + ins_in Hm. injection Hm as <-. by exists k.
    + ins_in Hm. apply (worker_ok_frame s); cbn [tables ready pcs];
        [by apply Hw|done|done|by intros; apply Hstable].
  - intros m v Hm. destruct (Hs m v Hm) as [?|[? ?]]; [by left|right].
    split; [done|by apply Hstable].
  - intros m k' pc Hk' Hal' Hm Hbr Hch.
    assert (Hchild : pcs s !! (m + 2 ^ k')%nat = Some Returned).
    { destruct (decide ((m + 2 ^ k')%nat = n)) as [He|He].
      - rewrite He in Hch. by ins_in Hch.
      - by ins_in Hch. }
    destruct (decide (m = n)) as [->|Hne].
    + ins_in Hm. injection Hm as <-.
      by apply (Hc n k' (AtLoop (pw k) (pw k))).
    + ins_in Hm. by apply (Hc m k' pc).
Qed.

Lemma inv_acquire s n k v :
  merge_inv subs s ->
  pcs s !! n = Some (AtAcquire (pw k) (pw k)) ->
  (k < 8)%nat -> aligned n (S k) = true ->
  (n + 2 ^ k < length subs)%nat ->
  tables s !! n = Some (span subs n k) -> ready s !! n = Some 0 ->
  ready s !! (n + 2 ^ k)%nat = Some v -> 0 < v ->
  merge_inv subs (MergeState (tables s)
               (<[(n + 2 ^ k)%nat := v - 1]> (ready s))
               (<[n := AtFold (pw k) (pw (S k))]> (pcs s))).
Proof.
  intros [HT HR HP Hw Hs Hc] Hpc Hk Hal Hlt Ht Hr Hv Hpos.
  assert (Hn : (n < length subs)%nat) by lia.
  pose proof (Nat.pow_nonzero 2 k) as Hnz.
  destruct (Hs _ _ Hv) as [?|[-> Hret]]; [lia|].
  assert (Hstable : forall m pc', pcs s !! m = Some Returned ->
                      <[n := pc']> (pcs s) !! m = Some Returned).
  { intros m pc' Hm. destruct (decide (m = n)) as [->|]; [congruence|by ins]. }
  split; cbn [tables ready pcs].
  - done.
  - by rewrite length_insert.
  - by rewrite length_insert.
  - intros m pc Hm. destruct (decide (m = n)) as [->|Hne].
    + ins_in Hm. injection Hm as <-. exists k. cbn [tables ready pcs].
      repeat split; try done; ins; done.
    + ins_in Hm. apply (worker_ok_frame s); cbn [tables ready pcs];
        [by apply Hw|done| |by intros; apply Hstable].
      intros Hnr. destruct (decide (m = (n + 2 ^ k)%nat)) as [->|]; [|by ins].
      congruence.
  - intros m v Hm. destruct (decide (m = (n + 2 ^ k)%nat)) as [->|Hne].
    + ins_in Hm. injection Hm as <-. by left.
    + ins_in Hm. destruct (Hs m v Hm) as [?|[? ?]]; [by left|right].
      split; [done|by apply Hstable].
  - intros m k' pc Hk' Hal' Hm Hbr Hch.
    assert (Hchild : pcs s !! (m + 2 ^ k')%nat = Some Returned).
    { destruct (decide ((m + 2 ^ k')%nat = n)) as [He|He].
      - rewrite He in Hch. by ins_in Hch.
      - by ins_in Hch. }
    destruct (decide (m = n)) as [->|Hne].
    + ins_in Hm. injection Hm as <-. simpl in Hbr. apply pw_lt in Hbr.
      assert (2 ^ k < 2 ^ k')%nat by (apply Nat.pow_lt_mono_r; lia).
      ins. apply (Hc n k' (AtAcquire (pw k) (pw k))); try done.
      simpl. apply pw_le. lia.
    + ins_in Hm.
      destruct (decide ((m + 2 ^ k')%nat = (n + 2 ^ k)%nat)) as [He|He].
      * destruct (parent_unique n k m k'); try done; lia.
      * ins. by apply (Hc m k' pc).
Qed.

Lemma inv_fold s n k :
  merge_inv subs s ->
  pcs s !! n = Some (AtFold (pw k) (pw (S k))) ->
  (k < 8)%nat -> aligned n (S k) = true ->
  (n + 2 ^ k < length subs)%nat ->
  tables s !! n = Some (span subs n k) -> ready s !! n = Some 0 ->
  pcs s !! (n + 2 ^ k)%nat = Some Returned ->
  merge_inv subs (MergeState
               (<[n := add_table (table_at (tables s) n)
                                 (table_at (tables s) (n + 2 ^ k))]>
                  (tables s))
               (ready s)
               (<[n := AtLoop (pw (S k)) (pw (S k))]> (pcs s))).
Proof.
  intros [HT HR HP Hw Hs Hc] Hpc Hk Hal Hlt Ht Hr Hret.
  assert (Hn : (n < length subs)%nat) by lia.
  pose proof (Nat.pow_nonzero 2 k) as Hnz.
  assert (Hk6 : (k < 6)%nat) by (apply pow2_lt_64; lia).
  assert (Hstable : forall m pc', pcs s !! m = Some Returned ->
                      <[n := pc']> (pcs s) !! m = Some Returned).
  { intros m pc' Hm. destruct (decide (m = n)) as [->|]; [congruence|by ins]. }
  destruct (Hw _ _ Hret) as (k' & Hk' & Hal' & Ht' & Hwhy).
  destruct (child_round n k k') as [Hle Hsame]; [lia|done..|].
  assert (Hsum : add_table (table_at (tables s) n)
                           (table_at (tables s) (n + 2 ^ k))
                 = span subs n (S k)).
  { unfold table_at. rewrite Ht, Ht'. simpl. apply span_merge; [done|].
    destruct Hwhy as [?|Hb]; [by left|right; by apply Hsame]. }
  rewrite Hsum.
  split; cbn [tables ready pcs].
  - by rewrite length_insert.
  - done.
  - by rewrite length_insert.
  - intros m pc Hm. destruct (decide (m = n)) as [->|Hne].
    + ins_in Hm. injection Hm as <-. exists (S k). cbn [tables ready pcs].
      repeat split; try done; try lia. by ins.
    + ins_in Hm. apply (worker_ok_frame s); cbn [tables ready pcs];
        [by apply Hw|by ins|done|by intros; apply Hstable].
  - intros m v Hm. destruct (Hs m v Hm) as [?|[? ?]]; [by left|right].
    split; [done|by apply Hstable].
  - intros m k'' pc Hk'' Hal'' Hm Hbr Hch.
    assert (Hchild : pcs s !! (m + 2 ^ k'')%nat = Some Returned).
    { destruct (decide ((m + 2 ^ k'')%nat = n)) as [He|He].
      - rewrite He in Hch. by ins_in Hch.
      - by ins_in Hch. }
    destruct (decide (m = n)) as [->|Hne].
    + ins_in Hm. injection Hm as <-. simpl in Hbr. apply pw_le in Hbr.
      apply (Hc n k'' (AtFold (pw k) (pw (S k)))); try done.
      simpl. apply pw_lt. lia.
    + ins_in Hm. by apply (Hc m k'' pc).
Qed.

Lemma merge_step_inv s s' n :
  merge_inv subs s ->
  merge_step (Z.of_nat (length subs)) n s = Some s' ->
  merge_inv subs s'.
Proof.
  intros Hinv Hstep. unfold merge_step in Hstep.
  destruct (pcs s !! n) as [pc|] eqn:Hpc; [|done].
  assert (Hn : (n < 64)%nat).
  { apply lookup_lt_Some in Hpc. rewrite (inv_pcs subs s Hinv) in Hpc. lia. }
  pose proof (inv_worker subs s Hinv n pc Hpc) as Hok.
  destruct pc as [p b|p b|p b|]; [..|done]; cbn [worker_ok] in Hok.
  - destruct Hok as (k & Hk & -> & -> & Hal & Ht & Hr).
    rewrite partner_index in Hstep by done.
    destruct (Z.ltb_spec (Z.of_nat (n + 2 ^ k)) (Z.of_nat (length subs)))
      as [Hlt|Hge].
    + destruct (Z.eqb (Z.land (Z.of_nat n) (pw k)) 0) eqn:Hbit;
        cbn [negb] in Hstep; injection Hstep as <-.
      * apply inv_to_acquire; try done; [|lia].
        apply aligned_next; try done. unfold bit_set. by rewrite Hbit.
      * apply (inv_release s n k); try done.
        right. unfold bit_set. by rewrite Hbit.
    + injection Hstep as <-. apply (inv_release s n k); try done. left. lia.
  - destruct Hok as (k & Hk & -> & -> & Hal & Hlt & Ht & Hr).
    rewrite partner_index, Nat2Z.id in Hstep by done.
    destruct (ready s !! (n + 2 ^ k)%nat) as [v|] eqn:Hv; [|done].
    destruct (Z.ltb_spec 0 v); [|done]. injection Hstep as <-.
    rewrite shift_pw by done. by apply inv_acquire.
  - destruct Hok as (k & Hk & -> & -> & Hal & Hlt & Ht & Hr & Hret).
    rewrite partner_index, Nat2Z.id in Hstep by done.
    injection Hstep as <-. rewrite shift_pw by done. by apply inv_fold.
Qed.

Lemma merge_reach_inv s :
  rtc (merge_sched (Z.of_nat (length subs))) (merge_init subs) s ->
  merge_inv subs s.
Proof.
  revert s. apply rtc_ind_r.
  - apply merge_init_inv.
  - intros s1 s2 _ [n Hstep] IH. by apply (merge_step_inv s1 s2 n).
Qed.

Lemma final_table s :
  merge_inv subs s -> all_returned s -> table_at (tables s) 0 = big subs.
Proof.
  intros Hinv Hall. unfold table_at.
  destruct (pcs s !! 0%nat) as [pc|] eqn:Hpc.
  - assert (pc = Returned) as ->.
    { unfold all_returned in Hall. rewrite List.Forall_forall in Hall.
      by eapply Hall, list_elem_of_In, list_elem_of_lookup_2. }
    destruct (inv_worker subs s Hinv _ _ Hpc) as (k & Hk & _ & Ht & Hwhy).
    rewrite Ht. simpl. unfold span. rewrite drop_0.
    destruct Hwhy as [Hlen|Hbit]; [by rewrite take_ge by lia|].
    unfold bit_set in Hbit. by rewrite Z.land_0_l in Hbit.
  - apply lookup_ge_None in Hpc. rewrite (inv_pcs subs s Hinv) in Hpc.
    assert (subs = []) as Hnil by (apply length_zero_iff_nil; lia).
    rewrite lookup_ge_None_2 by (rewrite (inv_tables subs s Hinv); lia).
    by rewrite Hnil.
Qed.

Lemma merge_progress s :
  merge_inv subs s -> ~ all_returned s ->
  exists n s', merge_step (Z.of_nat (length subs)) n s = Some s'.
Proof.
  intros Hinv Hnot.
  destruct (last_running (pcs s) Hnot) as (n & pc & Hpc & Hrun & Hafter).
  exists n. unfold merge_step. rewrite Hpc.
  pose proof (inv_worker subs s Hinv n pc Hpc) as Hok.
  assert (Hn : (n < 64)%nat).
  { apply lookup_lt_Some in Hpc. rewrite (inv_pcs subs s Hinv) in Hpc. lia. }
  destruct pc as [p b|p b|p b|]; [..|done]; cbn [worker_ok] in Hok.
  - destruct (wrap_int (Z.of_nat n + p) <? Z.of_nat (length subs));
      [destruct (negb (Z.land (Z.of_nat n) b =? 0))|]; eauto.
  - destruct Hok as (k & Hk & -> & -> & Hal & Hlt & Ht & Hr).
    rewrite partner_index, Nat2Z.id by done.
    assert (Hret : pcs s !! (n + 2 ^ k)%nat = Some Returned).
    { pose proof (Nat.pow_nonzero 2 k).
      apply Hafter; [lia|]. rewrite (inv_pcs subs s Hinv). lia. }
    rewrite (inv_child subs s Hinv n k _ Hk Hal Hpc); [|simpl; lia|done].
    simpl. eauto.
  - eauto.
Qed.

Lemma merge_step_measure s s' n :
  merge_inv subs s ->
  merge_step (Z.of_nat (length subs)) n s = Some s' ->
  (measure s' < measure s)%nat.
Proof.
  intros Hinv Hstep. unfold merge_step in Hstep.
  destruct (pcs s !! n) as [pc|] eqn:Hpc; [|done].
  pose proof (inv_worker subs s Hinv n pc Hpc) as Hok.
  assert (Hdec : forall pc', (weight pc' < weight pc)%nat ->
            (sum_list (weight <$> <[n := pc']> (pcs s)) < measure s)%nat).
  { intros pc' Hlt. pose proof (sum_list_insert weight (pcs s) n pc pc' Hpc).
    unfold measure. lia. }
  destruct pc as [p b|p b|p b|]; [..|done]; cbn [worker_ok] in Hok.
  - destruct Hok as (k & Hk & -> & -> & _).
    assert (Hret : (weight Returned < weight (AtLoop (pw k) (pw k)))%nat)
      by (cbn [weight]; rewrite log2_pw; lia).
    assert (Hacq : (weight (AtAcquire (pw k) (pw k))
                    < weight (AtLoop (pw k) (pw k)))%nat)
      by (cbn [weight]; rewrite log2_pw; lia).
    destruct (wrap_int (Z.of_nat n + pw k) <? Z.of_nat (length subs));
      [destruct (negb (Z.land (Z.of_nat n) (pw k) =? 0))|];
      injection Hstep as <-; by apply Hdec.
  - destruct Hok as (k & Hk & -> & -> & _).
    destruct (ready s !! _) as [v|]; [|done].
    destruct (0 <? v); [|done]. injection Hstep as <-.
    apply Hdec. cbn [weight]. rewrite log2_pw. lia.
  - destruct Hok as (k & Hk & -> & -> & _ & Hlt & _).
    injection Hstep as <-. apply Hdec. rewrite shift_pw by done.
    cbn [weight]. rewrite !log2_pw. lia.
Qed.

Lemma merge_completes (fuel : nat) : forall s,
  merge_inv subs s -> (measure s <= fuel)%nat ->
  exists s', rtc (merge_sched (Z.of_nat (length subs))) s s'
             /\ all_returned s'.
Proof.
  induction fuel as [|fuel IH]; intros s Hinv Hm;
    (destruct (all_returned_dec s) as [Hall|Hnot]; [by exists s|]);
    destruct (merge_progress s Hinv Hnot) as (n & s' & Hstep);
    pose proof (merge_step_measure s s' n Hinv Hstep) as Hlt; [lia|].
  destruct (IH s') as (s'' & Hrtc & Hall);
    [by apply (merge_step_inv s s' n)|lia|].
  exists s''. split; [|done]. eapply rtc_l; [by exists n|done].
Qed.

End tree_merge.

(** ** Sequential fold and parallel merge *)

(** C3.  Take the tables of the workers, with [int] counts, for any
    number of workers up to [MAXTHREADS].  The parallel merge can always
    be run to the end (whatever has been scheduled so far, some worker
    can step until all have returned), and in every schedule that lets
    all workers return, the table left in slot 0 is the table that the
    sequential fold of [main] builds: the same words with the same
    counts. *)
Theorem tree_merge_equals_sequential (sub_counts : list WordCount) :
  Forall int_table sub_counts ->
  Z.of_nat (length sub_counts) <= MAXTHREADS ->
  let nthreads := Z.of_nat (length sub_counts) in
  (forall s, rtc (merge_sched nthreads) (merge_init sub_counts) s ->
     exists s', rtc (merge_sched nthreads) s s' /\ all_returned s')
  /\
  (forall s, rtc (merge_sched nthreads) (merge_init sub_counts) s ->
     all_returned s ->
     table_at (tables s) 0 = sequential_totals nthreads sub_counts).
Proof.
  intros Hint Hbound nthreads.
  assert (Hb : (length sub_counts <= 64)%nat) by (unfold MAXTHREADS in *; lia).
  split.
  - intros s Hreach.
    apply (merge_completes sub_counts Hint Hb (measure s)); [|done].
    by apply merge_reach_inv.
  - intros s Hreach Hall. unfold nthreads.
    rewrite sequential_totals_big by done.
    apply final_table; [done| |done]. by apply merge_reach_inv.
Qed.

Lemma tree_merge_equals_sequential_witness :
  let sub_counts : list WordCount :=
    [ {["a"%string := 1]}; {["a"%string := 2]}; {["b"%string := 1]} ] in
  (forall s, rtc (merge_sched 3) (merge_init sub_counts) s ->
     exists s', rtc (merge_sched 3) s s' /\ all_returned s')
  /\
  (forall s, rtc (merge_sched 3) (merge_init sub_counts) s ->
     all_returned s ->
     table_at (tables s) 0 = sequential_totals 3 sub_counts).
Proof.
  apply (tree_merge_equals_sequential
           [ {["a"%string := 1]}; {["a"%string := 2]}; {["b"%string := 1]} ]).
  - apply Forall_cons; split;
      [apply map_Forall_singleton; unfold is_int; lia|].
    apply Forall_cons; split;
      [apply map_Forall_singleton; unfold is_int; lia|].
    apply Forall_cons; split;
      [apply map_Forall_singleton; unfold is_int; lia|].
    apply List.Forall_nil.
  - unfold MAXTHREADS. simpl. lia.
Defined.

(** ** The handle queue *)

Lemma pipe_init_inv cfg opens :
  0 <= nthreads cfg -> pipe_inv cfg opens (pipe_init cfg).
Proof.
  intros Hn. unfold pipe_init.
  assert (Hh : forall n, sum_list (holding <$> replicate n WorkerClaim) = 0%nat).
  { intros n. rewrite fmap_replicate, sum_list_replicate. simpl. lia. }
  assert (Hg : forall n, sum_list (exited <$> replicate n WorkerClaim) = 0%nat).
  { intros n. rewrite fmap_replicate, sum_list_replicate. simpl. lia. }
  split; unfold unclaimed, hold, gone;
    cbn [fcount opencount fdescs free_ptr next_ptr file_count
         expected_file_count opener workers unopened scanned
         opener_hold pending_end todo opener_ok length];
    rewrite ?Hh, ?Hg, ?length_replicate; unfold FDESCS, MAXTHREADS;
    try done; try lia.
Qed.

Lemma pipe_opener_inv cfg opens s s' :
  0 <= nthreads cfg ->
  Z.of_nat (length opens) + nthreads cfg <= INT_MAX ->
  pipe_inv cfg opens s ->
  opener_step cfg opens s = Some s' ->
  pipe_inv cfg opens s'.
Proof.
  intros Hn Hmax [Hw Hf Ho Hu Ha Hx Ht Hc Hs Hfc He Hok] Hstep.
  unfold opener_step in Hstep. unfold INT_MAX in Hmax.
  unfold unclaimed, hold, gone in *.
  assert (Hlen : wrap_int (Z.of_nat (length opens)) = Z.of_nat (length opens))
    by (apply wrap_int_id; unfold is_int; lia).
  destruct (opener s) as [|nf|nf|nf|n|n|] eqn:Hpc;
    cbn [opener_hold pending_end todo opener_ok] in *.
  - injection Hstep as <-. rewrite Hlen.
    split; unfold unclaimed, hold, gone;
      cbn [fcount opencount fdescs free_ptr next_ptr file_count
           expected_file_count opener workers unopened scanned
           opener_hold pending_end todo opener_ok];
      try done; try lia.
    intros Hsil. rewrite Hsil. by apply He.
  - assert (Hnf : wrap_int (nf - 1) = nf - 1 \/ nf = 0).
    { destruct (decide (nf = 0)); [by right|left].
      apply wrap_int_id; unfold is_int; lia. }
    injection Hstep as <-.
    destruct (Z.eqb_spec nf 0) as [->|Hne];
      [|destruct Hnf as [->|?]; [|done]];
      split; unfold unclaimed, hold, gone;
      cbn [fcount opencount fdescs free_ptr next_ptr file_count
           expected_file_count opener workers unopened scanned
           opener_hold pending_end todo opener_ok];
      try done; try lia.
  - destruct (Z.ltb_spec 0 (fcount s)); [|done]. injection Hstep as <-.
    split; unfold unclaimed, hold, gone;
      cbn [fcount opencount fdescs free_ptr next_ptr file_count
           expected_file_count opener workers unopened scanned
           opener_hold pending_end todo opener_ok];
      try done; try lia.
  - destruct (opens !! Z.to_nat nf) as [r|]; [|done].
    assert (Hfp : wrap_int (free_ptr s + 1) = free_ptr s + 1)
      by (apply wrap_int_id; unfold is_int; lia).
    destruct (Z.eqb r (-1)); injection Hstep as <-; rewrite ?Hfp;
      split; unfold unclaimed, hold, gone;
      cbn [fcount opencount fdescs free_ptr next_ptr file_count
           expected_file_count opener workers unopened scanned
           opener_hold pending_end todo opener_ok];
      rewrite ?length_app; cbn [length];
      try done; try lia.
  - destruct (Z.ltb_spec n (nthreads cfg)); injection Hstep as <-;
      split; unfold unclaimed, hold, gone;
      cbn [fcount opencount fdescs free_ptr next_ptr file_count
           expected_file_count opener workers unopened scanned
           opener_hold pending_end todo opener_ok];
      try done; try lia.
  - destruct (Z.ltb_spec 0 (fcount s)); [|done].
    assert (Hfp : wrap_int (free_ptr s + 1) = free_ptr s + 1)
      by (apply wrap_int_id; unfold is_int; lia).
    assert (Hn1 : wrap_int (n + 1) = n + 1)
      by (apply wrap_int_id; unfold is_int; lia).
    injection Hstep as <-. rewrite Hfp, Hn1.
    split; unfold unclaimed, hold, gone;
      cbn [fcount opencount fdescs free_ptr next_ptr file_count
           expected_file_count opener workers unopened scanned
           opener_hold pending_end todo opener_ok];
      try done; try lia.
  - done.
Qed.

Lemma todo_nonneg cfg opens pc :
  0 <= nthreads cfg -> opener_ok cfg opens pc -> 0 <= todo cfg opens pc
  /\ 0 <= pending_end pc.
Proof. intros Hn. destruct pc; simpl; lia. Qed.

Lemma pipe_worker_inv cfg opens s s' i :
  0 <= nthreads cfg ->
  Z.of_nat (length opens) + nthreads cfg <= INT_MAX ->
  pipe_inv cfg opens s ->
  worker_step i s = Some s' ->
  pipe_inv cfg opens s'.
Proof.
  intros Hn Hmax [Hw Hf Ho Hu Ha Hx Ht Hc Hs Hfc He Hok] Hstep.
  unfold worker_step in Hstep. unfold INT_MAX in Hmax.
  destruct (todo_nonneg cfg opens (opener s) Hn Hok) as [Htodo Hpend].
  destruct (workers s !! i) as [w|] eqn:Hwi; [|done].
  unfold unclaimed, hold, gone in *.
  destruct w as [|fd|]; [| |done].
  - destruct (Z.ltb_spec 0 (opencount s)); [|done].
    pose proof (sum_list_insert holding (workers s) i _ (WorkerGot
      (default 0 (fdescs s !! Z.to_nat (Z.rem (next_ptr s) FDESCS)))) Hwi)
      as Hh.
    pose proof (sum_list_insert exited (workers s) i _ (WorkerGot
      (default 0 (fdescs s !! Z.to_nat (Z.rem (next_ptr s) FDESCS)))) Hwi)
      as Hg.
    cbn [holding exited] in Hh, Hg.
    assert (Hnp : wrap_int (next_ptr s + 1) = next_ptr s + 1)
      by (apply wrap_int_id; unfold is_int; lia).
    assert (Hfc1 : wrap_int (file_count s + 1) = file_count s + 1)
      by (apply wrap_int_id; unfold is_int; lia).
    injection Hstep as <-. rewrite Hnp, Hfc1.
    split; unfold unclaimed, hold, gone;
      cbn [fcount opencount fdescs free_ptr next_ptr file_count
           expected_file_count opener workers unopened scanned];
      rewrite ?length_insert; try done; try lia.
  - destruct (Z.eqb fd (-2)).
    + pose proof (sum_list_insert holding (workers s) i _ WorkerExit Hwi) as Hh.
      pose proof (sum_list_insert exited (workers s) i _ WorkerExit Hwi) as Hg.
      cbn [holding exited] in Hh, Hg.
      assert (Hfc1 : wrap_int (file_count s - 1) = file_count s - 1)
        by (apply wrap_int_id; unfold is_int; lia).
      injection Hstep as <-. rewrite Hfc1.
      split; unfold unclaimed, hold, gone;
        cbn [fcount opencount fdescs free_ptr next_ptr file_count
             expected_file_count opener workers unopened scanned];
        rewrite ?length_insert; try done; try lia.
    + pose proof (sum_list_insert holding (workers s) i _ WorkerClaim Hwi) as Hh.
      pose proof (sum_list_insert exited (workers s) i _ WorkerClaim Hwi) as Hg.
      cbn [holding exited] in Hh, Hg.
      injection Hstep as <-.
      split; unfold unclaimed, hold, gone;
        cbn [fcount opencount fdescs free_ptr next_ptr file_count
             expected_file_count opener workers unopened scanned];
        rewrite ?length_insert; try done; try lia.
Qed.

Lemma pipe_reach_inv cfg opens s :
  0 <= nthreads cfg ->
  Z.of_nat (length opens) + nthreads cfg <= INT_MAX ->
  rtc (pipe_step cfg opens) (pipe_init cfg) s ->
  pipe_inv cfg opens s.
Proof.
  intros Hn Hmax. revert s. apply rtc_ind_r.
  - by apply pipe_init_inv.
  - intros s1 s2 _ [Hstep|[i Hstep]] IH.
    + by apply (pipe_opener_inv cfg opens s1 s2).
    + by apply (pipe_worker_inv cfg opens s1 s2 i).
Qed.

Lemma run_schedule_reach cfg opens sched : forall s,
  rtc (pipe_step cfg opens) s (run_schedule cfg opens sched s).
Proof.
  induction sched as [|t sched IH]; intros s; simpl; [done|].
  destruct t as [i|].
  - destruct (worker_step i s) as [s'|] eqn:E; simpl; [|apply IH].
    eapply rtc_l; [right; by exists i|apply IH].
  - destruct (opener_step cfg opens s) as [s'|] eqn:E; simpl; [|apply IH].
    eapply rtc_l; [by left|apply IH].
Qed.

(** ** Files that fail to open *)

(** What the producer does when [open] fails: the diagnostic is printed
    and nothing is submitted, but the unit of [fcount] taken at line 79
    is not given back. *)
Lemma failed_open_keeps_unit cfg opens s nfiles :
  opener s = OpenerOpen nfiles ->
  opens !! Z.to_nat nfiles = Some (-1) ->
  exists s', opener_step cfg opens s = Some s'
    /\ unopened s' = unopened s ++ [nfiles]
    /\ opencount s' = opencount s /\ free_ptr s' = free_ptr s
    /\ fcount s' = fcount s /\ opener s' = OpenerLoop nfiles.
Proof.
  intros Hpc Hopen. unfold opener_step. rewrite Hpc, Hopen. simpl.
  eexists. split; [done|]. done.
Qed.

(** C2, the code at the failing input.  With 64 files that all fail to
    open and one worker, the producer prints 64 diagnostics and submits
    nothing, but every failure keeps its unit of [fcount]: the run
    reaches a state in which [fcount] is 0, the producer waits in the
    [acquire] for the first end marker, the worker waits for work, and no
    thread can ever step again. *)
Lemma failed_opens_stall_queue :
  let cfg := Config 1 16 false false in
  let opens := replicate 64 (-1) in
  exists s,
    rtc (pipe_step cfg opens) (pipe_init cfg) s
    /\ stuck cfg opens s
    /\ opener s = OpenerEndAcquire 0
    /\ workers s = [WorkerClaim]
    /\ fcount s = 0 /\ opencount s = 0 /\ unclaimed s = 0
    /\ length (unopened s) = 64%nat.
Proof.
  intros cfg opens.
  exists (run_schedule cfg opens (replicate 195 None) (pipe_init cfg)).
  split; [apply run_schedule_reach|].
  set (s := run_schedule _ _ _ _).
  assert (Hs : s = PipeState 0 0 (<[0%nat := -1]> (replicate 64 0)) 0 0 0 64
                     (OpenerEndAcquire 0) [WorkerClaim]
                     (Z.of_nat <$> reverse (seq 0 64)) 0)
    by (vm_compute; reflexivity).
  rewrite Hs. repeat split.
  intros [|i]; reflexivity.
Qed.

(** ** The capacity of the queue *)

(** C7 (as amended).  The queue has [FDESCS = MAXTHREADS = 64] slots
    whatever thread count is configured: [fcount] starts at [FDESCS],
    and in every state a run can reach the number of handles submitted
    and not yet claimed lies between 0 and [FDESCS]. *)
Theorem queue_capacity (cfg : config) (opens : list Z) (s : pipe_state) :
  0 <= nthreads cfg ->
  Z.of_nat (length opens) + nthreads cfg <= INT_MAX ->
  rtc (pipe_step cfg opens) (pipe_init cfg) s ->
  fcount (pipe_init cfg) = FDESCS /\ FDESCS = 64
  /\ 0 <= unclaimed s <= FDESCS.
Proof.
  intros Hn Hmax Hreach.
  destruct (pipe_reach_inv cfg opens s Hn Hmax Hreach)
    as [Hw Hf Ho Hu Ha Hx Ht Hc Hs Hfc He Hok].
  destruct (todo_nonneg cfg opens (opener s) Hn Hok) as [_ Hpend].
  split; [done|]. split; [done|].
  assert (0 <= hold s) by (unfold hold; lia).
  assert (0 <= opener_hold (opener s)) by (destruct (opener s); simpl; lia).
  lia.
Qed.

Lemma queue_capacity_witness :
  let cfg := Config 1 16 false true in
  let s := run_schedule cfg [3; 4] (replicate 8 None) (pipe_init cfg) in
  fcount (pipe_init cfg) = FDESCS /\ FDESCS = 64
  /\ 0 <= unclaimed s <= FDESCS.
Proof.
  apply (queue_capacity (Config 1 16 false true) [3; 4]).
  - simpl. lia.
  - unfold INT_MAX. simpl. lia.
  - apply run_schedule_reach.
Defined.

(** C7, the claim as stated fails: with one worker thread configured and
    two files, the producer can have two handles submitted and
    unclaimed at once. *)
Lemma queue_holds_more_than_nthreads :
  let cfg := Config 1 16 false true in
  exists s,
    rtc (pipe_step cfg [3; 4]) (pipe_init cfg) s
    /\ nthreads cfg = 1 /\ unclaimed s = 2.
Proof.
  intros cfg.
  exists (run_schedule cfg [3; 4] (replicate 8 None) (pipe_init cfg)).
  split; [apply run_schedule_reach|]. split; reflexivity.
Qed.

(** The bound is reached: with one worker that has not yet run and 64
    files, all 64 slots hold an unclaimed handle. *)
Lemma queue_can_fill_all_slots :
  let cfg := Config 1 16 false true in
  let opens := replicate 64 3 in
  exists s,
    rtc (pipe_step cfg opens) (pipe_init cfg) s
    /\ unclaimed s = 64 /\ fcount s = 0.
Proof.
  intros cfg opens.
  exists (run_schedule cfg opens (replicate 193 None) (pipe_init cfg)).
  split; [apply run_schedule_reach|]. split; vm_compute; reflexivity.
Qed.

(** ** Silent runs *)

(** C10.  In a silent run [expected_file_count] is never written, so it
    is still 0 when [main] has joined the threads, while [file_count]
    equals the number of files that were scanned; if at least one file
    was scanned the comparison of line 337 fails and [main] exits there,
    before the sorted table is built. *)
Theorem silent_run_exits_on_mismatch (cfg : config) (opens : list Z)
    (s : pipe_state) (blocks bytes : Z) (sub_counts : list WordCount) :
  silent cfg = true ->
  0 <= nthreads cfg ->
  Z.of_nat (length opens) + nthreads cfg <= INT_MAX ->
  rtc (pipe_step cfg opens) (pipe_init cfg) s ->
  joined s ->
  1 <= scanned s ->
  expected_file_count s = 0
  /\ file_count s = scanned s
  /\ main_tail cfg (file_count s) (expected_file_count s) blocks bytes
       sub_counts
     = ExitMismatch 0 (file_count s).
Proof.
  intros Hsil Hn Hmax Hreach [Hdone Hexit] Hscan.
  destruct (pipe_reach_inv cfg opens s Hn Hmax Hreach)
    as [Hw Hf Ho Hu Ha Hx Ht Hc Hs Hfc He Hok].
  assert (Hhold : hold s = 0).
  { unfold hold. clear -Hexit. induction Hexit as [|w l -> _ IH]; [done|].
    rewrite fmap_cons. simpl in *. lia. }
  rewrite (He Hsil). rewrite Hhold in Hfc.
  split; [done|]. split; [lia|].
  unfold main_tail. destruct (Z.eqb_spec (file_count s) 0); [lia|done].
Qed.

Lemma silent_run_exits_on_mismatch_witness :
  let cfg := Config 1 16 false true in
  let s := run_schedule cfg [3]
             [None; None; None; None; Some 0%nat; Some 0%nat;
              None; None; None; None; Some 0%nat; Some 0%nat]
             (pipe_init cfg) in
  expected_file_count s = 0
  /\ file_count s = scanned s
  /\ main_tail cfg (file_count s) (expected_file_count s) 1 4 [∅]
     = ExitMismatch 0 (file_count s).
Proof.
  apply (silent_run_exits_on_mismatch (Config 1 16 false true) [3]).
  - reflexivity.
  - simpl. lia.
  - unfold INT_MAX. simpl. lia.
  - apply run_schedule_reach.
  - split; [reflexivity|]. vm_compute. apply Forall_cons. split; [done|].
    apply List.Forall_nil.
  - vm_compute. discriminate.
Defined.

(** * Further properties *)

(** ** The classifier *)

Lemma is_token_word_byteb c : is_token c = word_byteb c.
Proof. destruct c as [[] [] [] [] [] [] [] []]; vm_compute; reflexivity. Qed.

(** X1.  The table filled by [main] accepts exactly the ASCII letters,
    the digits and the underscore; every other byte, NUL and the bytes
    above 127 included, is a delimiter. *)
Theorem is_token_exact (c : ascii) : is_token c = true <-> word_byte c.
Proof.
  rewrite is_token_word_byteb. unfold word_byteb, word_byte.
  cbv zeta. rewrite !orb_true_iff, !andb_true_iff, !Z.leb_le, Z.eqb_eq.
  tauto.
Qed.

(** ** Tables *)

(** X2.  Adding the table [src] to [dst] (the loop of lines 165-168 and
    359-362) leaves every word of [dst] that [src] lacks as it was,
    gives every word of [src] the wrapped sum of its two counts (a word
    new to [dst] starting from 0), and the words of the result are those
    of [dst] together with those of [src]. *)
Theorem add_table_pointwise (dst src : WordCount) (w : string) :
  add_table dst src !! w
  = match src !! w with
    | Some c => Some (wrap_int (count_of dst w + c))
    | None => dst !! w
    end
  /\ (w ∈ dom (add_table dst src) <-> w ∈ dom dst \/ w ∈ dom src).
Proof.
  split; [apply lookup_add_table|].
  rewrite !elem_of_dom, lookup_add_table.
  destruct (src !! w) as [c|]; split; intros H.
  - right. by eexists.
  - by eexists.
  - by left.
  - destruct H as [H|[? H]]; done.
Qed.

Lemma add_table_comm_int (a b : WordCount) :
  int_table a -> int_table b -> add_table a b = add_table b a.
Proof.
  intros Ha Hb. apply map_eq. intros w. rewrite !lookup_add_table.
  unfold count_of.
  destruct (a !! w) as [ca|] eqn:Ea, (b !! w) as [cb|] eqn:Eb; simpl;
    try done.
  - do 2 f_equal. lia.
  - by rewrite wrap_int_id by exact (Ha w ca Ea).
  - by rewrite wrap_int_id by exact (Hb w cb Eb).
Qed.

(** X3.  Adding tables is associative, and on tables whose counts are
    [int]s it is commutative: the sum of the workers' tables does not
    depend on the order or the grouping in which they are added. *)
Theorem add_table_assoc_comm (a b c : WordCount) :
  int_table a -> int_table b ->
  add_table (add_table a b) c = add_table a (add_table b c)
  /\ add_table a b = add_table b a.
Proof.
  intros Ha Hb. split; [apply add_table_assoc|by apply add_table_comm_int].
Qed.

Lemma add_table_assoc_comm_witness :
  let a : WordCount := {["x"%string := 1]} in
  let b : WordCount := {["x"%string := 2]} in
  let c : WordCount := {["y"%string := 3]} in
  add_table (add_table a b) c = add_table a (add_table b c)
  /\ add_table a b = add_table b a.
Proof.
  apply add_table_assoc_comm;
    apply map_Forall_singleton; unfold is_int; lia.
Defined.

Lemma big_is_Some l w :
  is_Some (big l !! w) <-> Exists (fun m : WordCount => is_Some (m !! w)) l.
Proof.
  induction l as [|a l IH]; simpl.
  - rewrite lookup_empty, Exists_nil. split; [by intros [? ?]|done].
  - rewrite Exists_cons, <- IH, lookup_add_table.
    destruct (big l !! w) as [c|]; split; intros H.
    + right. by eexists.
    + by eexists.
    + by left.
    + destruct H as [H|[? H]]; done.
Qed.

Lemma count_of_int (m : WordCount) w : int_table m -> is_int (count_of m w).
Proof.
  intros Hm. unfold count_of. destruct (m !! w) as [c|] eqn:E; simpl.
  - exact (Hm w c E).
  - unfold is_int. lia.
Qed.

Lemma big_count l w :
  Forall int_table l -> count_of (big l) w = wrap_int (sum_counts l w).
Proof.
  induction 1 as [|a l Ha Hl IH]; simpl.
  - unfold count_of. by rewrite lookup_empty.
  - rewrite count_of_add_table.
    destruct (big l !! w) as [c|] eqn:E.
    + assert (Hc : count_of (big l) w = c) by (unfold count_of; by rewrite E).
      rewrite <- Hc, IH. apply wrap_int_add_r.
    + assert (Hc : count_of (big l) w = 0) by (unfold count_of; by rewrite E).
      rewrite <- wrap_int_add_r, <- IH, Hc, Z.add_0_r.
      symmetry. by apply wrap_int_id, count_of_int.
Qed.

(** X4.  The sequential fold of [main] gives every word the sum of its
    counts in the workers' tables, wrapped to an [int], and the words of
    the total are exactly the words that occur in some worker's
    table. *)
Theorem sequential_totals_pointwise (sub_counts : list WordCount) (w : string) :
  Forall int_table sub_counts ->
  let totals := sequential_totals (Z.of_nat (length sub_counts)) sub_counts in
  count_of totals w = wrap_int (sum_counts sub_counts w)
  /\ (is_Some (totals !! w)
      <-> Exists (fun m : WordCount => is_Some (m !! w)) sub_counts).
Proof.
  intros Hint totals. unfold totals.
  rewrite sequential_totals_big by done.
  split; [by apply big_count|apply big_is_Some].
Qed.

Lemma sequential_totals_pointwise_witness :
  let subs : list WordCount :=
    [ {["x"%string := 1]}; {["y"%string := 5]}; {["x"%string := 2]} ] in
  let totals := sequential_totals 3 subs in
  count_of totals "x" = wrap_int (sum_counts subs "x")
  /\ (is_Some (totals !! "x"%string)
      <-> Exists (fun m : WordCount => is_Some (m !! "x"%string)) subs).
Proof.
  apply (sequential_totals_pointwise
           [ {["x"%string := 1]}; {["y"%string := 5]}; {["x"%string := 2]} ]).
  apply Forall_cons; split; [apply map_Forall_singleton; unfold is_int; lia|].
  apply Forall_cons; split; [apply map_Forall_singleton; unfold is_int; lia|].
  apply Forall_cons; split; [apply map_Forall_singleton; unfold is_int; lia|].
  apply List.Forall_nil.
Defined.

(** ** The comparator and the sorted map *)

(** X5.  [DefineSortOrder] is a strict total order on (count, word)
    keys, as a [std::map] requires of its comparator: no key is ordered
    before itself, the order is transitive, and of two different keys
    one is ordered before the other. *)
Theorem DefineSortOrder_strict_total :
  (forall a, DefineSortOrder a a = false)
  /\ (forall a b c, DefineSortOrder a b = true -> DefineSortOrder b c = true ->
        DefineSortOrder a c = true)
  /\ (forall a b, a = b \/ DefineSortOrder a b = true
                  \/ DefineSortOrder b a = true).
Proof.
  split; [|split].
  - intros a. destruct (DefineSortOrder a a) eqn:E; [|done].
    by apply key_lt_irrefl in E.
  - intros a b c. apply key_lt_trans.
  - intros a b. apply key_lt_total.
Qed.

Lemma sort_totals_any_order_witness :
  sort_totals [("a"%string, 2); ("b"%string, 2); ("c"%string, 7)]
  = sort_totals [("c"%string, 7); ("b"%string, 2); ("a"%string, 2)].
Proof.
  apply sort_totals_any_order.
  change [("c"%string, 7); ("b"%string, 2); ("a"%string, 2)]
    with (reverse [("a"%string, 2); ("b"%string, 2); ("c"%string, 7)]).
  symmetry. apply reverse_Permutation.
Defined.

(** ** The units of [fcount] *)

(** X7.  In every state a run can reach, the 64 units of [fcount] are
    accounted for: each is free, or belongs to a handle stored in the
    ring, or is held by a worker or by the producer, or was taken for a
    file that failed to open.  So [fcount] stays between 0 and 64, and
    no run gets past its 64th failed open. *)
Theorem fcount_units (cfg : config) (opens : list Z) (s : pipe_state) :
  0 <= nthreads cfg ->
  Z.of_nat (length opens) + nthreads cfg <= INT_MAX ->
  rtc (pipe_step cfg opens) (pipe_init cfg) s ->
  fcount s + unclaimed s + hold s + opener_hold (opener s)
    + Z.of_nat (length (unopened s)) = 64
  /\ 0 <= fcount s <= 64
  /\ (length (unopened s) <= 64)%nat.
Proof.
  intros Hn Hmax Hreach.
  destruct (pipe_reach_inv cfg opens s Hn Hmax Hreach)
    as [Hw Hf Ho Hu Ha Hx Ht Hc Hs Hfc He Hok].
  destruct (todo_nonneg cfg opens (opener s) Hn Hok) as [_ Hpend].
  assert (0 <= hold s) by (unfold hold; lia).
  assert (0 <= opener_hold (opener s)) by (destruct (opener s); simpl; lia).
  unfold FDESCS, MAXTHREADS in Hu. lia.
Qed.

Lemma fcount_units_witness :
  let cfg := Config 1 16 false false in
  let opens := [3; -1; 4] in
  let s := run_schedule cfg opens
             (replicate 7 None ++ [Some 0%nat]) (pipe_init cfg) in
  fcount s + unclaimed s + hold s + opener_hold (opener s)
    + Z.of_nat (length (unopened s)) = 64
  /\ 0 <= fcount s <= 64
  /\ (length (unopened s) <= 64)%nat.
Proof.
  apply (fcount_units (Config 1 16 false false) [3; -1; 4]).
  - simpl. lia.
  - unfold INT_MAX. simpl. lia.
  - apply run_schedule_reach.
Defined.

(** ** The semaphores of the merge *)

(** X8.  During the parallel merge every [ready_for_merge[n]] holds 0 or
    1, and it holds 1 only once worker [n] has returned: no [release]
    takes a semaphore past the maximum of [counting_semaphore<1>], and a
    worker that is waited for is never read before it is done. *)
Theorem ready_for_merge_binary (sub_counts : list WordCount)
    (s : merge_state) :
  Forall int_table sub_counts ->
  (length sub_counts <= 64)%nat ->
  rtc (merge_sched (Z.of_nat (length sub_counts))) (merge_init sub_counts) s ->
  forall (n : nat) (v : Z), ready s !! n = Some v ->
    v = 0 \/ (v = 1 /\ pcs s !! n = Some Returned).
Proof.
  intros Hint Hlen Hreach.
  exact (inv_sem sub_counts s (merge_reach_inv sub_counts Hint Hlen s Hreach)).
Qed.

Lemma ready_for_merge_binary_witness :
  let subs : list WordCount := [ {["x"%string := 1]}; {["y"%string := 5]} ] in
  let s := run_worker 32 2 1 (merge_init subs) in
  1 = 0 \/ (1 = 1 /\ pcs s !! 1%nat = Some Returned).
Proof.
  apply (ready_for_merge_binary
           [ {["x"%string := 1]}; {["y"%string := 5]} ]
           (run_worker 32 2 1
              (merge_init [ {["x"%string := 1]}; {["y"%string := 5]} ]))).
  - apply Forall_cons; split;
      [apply map_Forall_singleton; unfold is_int; lia|].
    apply Forall_cons; split;
      [apply map_Forall_singleton; unfold is_int; lia|].
    apply List.Forall_nil.
  - simpl. lia.
  - eapply rtc_l; [exists 1%nat; reflexivity|]. apply rtc_refl.
  - reflexivity.
Defined.

(** ** The outcome with and without [-p] *)

(** X9.  Whatever the workers counted, [main] ends the same way and
    prints the same report with the parallel merge as with the
    sequential fold: the tables left by a completed merge, read with
    [parallel_merge] on, give the outcome that the workers' own tables
    give with [parallel_merge] off. *)
Theorem parallel_merge_same_outcome (sub_counts : list WordCount)
    (s : merge_state) (cfg : config)
    (file_count expected_file_count blocks bytes : Z) :
  Forall int_table sub_counts ->
  (length sub_counts <= 64)%nat ->
  nthreads cfg = Z.of_nat (length sub_counts) ->
  rtc (merge_sched (nthreads cfg)) (merge_init sub_counts) s ->
  all_returned s ->
  main_tail (Config (nthreads cfg) (nblocks cfg) true (silent cfg))
    file_count expected_file_count blocks bytes (tables s)
  = main_tail (Config (nthreads cfg) (nblocks cfg) false (silent cfg))
      file_count expected_file_count blocks bytes sub_counts.
Proof.
  intros Hint Hlen Hn Hreach Hall. rewrite Hn in *.
  unfold main_tail. cbn [parallel_merge silent nthreads negb].
  rewrite (final_table sub_counts Hlen s);
    [|by apply merge_reach_inv|done].
  by rewrite sequential_totals_big.
Qed.

Lemma run_worker_reach fuel nthreads n : forall s,
  rtc (merge_sched nthreads) s (run_worker fuel nthreads n s).
Proof.
  induction fuel as [|fuel IH]; intros s; simpl; [done|].
  destruct (merge_step nthreads n s) as [s'|] eqn:E; [|done].
  eapply rtc_l; [by exists n|apply IH].
Qed.

Lemma run_merge_reach (sub_counts : list WordCount) :
  rtc (merge_sched (Z.of_nat (length sub_counts))) (merge_init sub_counts)
      (run_merge sub_counts).
Proof.
  unfold run_merge. induction (seq 0 (length sub_counts)) as [|n l IH];
    cbn [foldr]; [done|].
  etrans; [exact IH|apply run_worker_reach].
Qed.

Lemma parallel_merge_same_outcome_witness :
  let subs : list WordCount := [ {["x"%string := 1]}; {["x"%string := 5]} ] in
  let s := run_merge subs in
  main_tail (Config 2 16 true false) 2 2 1 9 (tables s)
  = main_tail (Config 2 16 false false) 2 2 1 9 subs.
Proof.
  apply (parallel_merge_same_outcome
           [ {["x"%string := 1]}; {["x"%string := 5]} ]
           (run_merge [ {["x"%string := 1]}; {["x"%string := 5]} ])
           (Config 2 16 false false)).
  - apply Forall_cons; split;
      [apply map_Forall_singleton; unfold is_int; lia|].
    apply Forall_cons; split;
      [apply map_Forall_singleton; unfold is_int; lia|].
    apply List.Forall_nil.
  - simpl. lia.
  - reflexivity.
  - apply (run_merge_reach [ {["x"%string := 1]}; {["x"%string := 5]} ]).
  - unfold all_returned. vm_compute.
    apply Forall_cons; split; [reflexivity|].
    apply Forall_cons; split; [reflexivity|]. apply List.Forall_nil.
Defined.

(** ** The block size *)

Lemma parse_options_nblocks args : forall cfg0 cfg dir,
  nblocks cfg0 <= 127 ->
  parse_options cfg0 args = Run cfg dir -> nblocks cfg <= 127.
Proof.
  induction args as [|a args IH]; intros cfg0 cfg dir H0 Hp; [done|].
  destruct a as [|c a]; [by injection Hp as <- _|].
  destruct c as [[] [] [] [] [] [] [] []];
    try (by injection Hp as <- _).
  destruct a as [|o v]; [done|].
  destruct o as [[] [] [] [] [] [] [] []]; try done;
    cbn [parse_options] in Hp;
    (eapply IH; [|exact Hp]); cbn [nblocks]; try done.
  apply Z.le_min_r.
Qed.

(** X10.  Whatever the command line, the configuration that the option
    loop hands on has at most 127 blocks per read, and when that number
    is not negative [BLOCKSIZE] is its product with 1024 and leaves room
    in a worker's buffer for the terminating NUL of line 184. *)
Theorem parse_options_block_bound (args : list string) (cfg : config)
    (dir : string) :
  parse_options default_config args = Run cfg dir ->
  nblocks cfg <= 127
  /\ (0 <= nblocks cfg ->
      BLOCKSIZE cfg = nblocks cfg * 1024
      /\ 0 <= BLOCKSIZE cfg < Z.of_nat BUFFER_BYTES).
Proof.
  intros Hp.
  assert (Hn : nblocks cfg <= 127).
  { apply (parse_options_nblocks args default_config cfg dir); [|done].
    simpl. lia. }
  split; [done|]. intros H0.
  unfold BLOCKSIZE, BUFFER_BYTES, BASICBLOCK.
  assert (Hi : is_int (nblocks cfg * 1024)) by (unfold is_int; lia).
  rewrite (wrap_int_id _ Hi).
  split; [done|]. rewrite Z2Nat.id by lia. lia.
Qed.

Lemma parse_options_block_bound_witness :
  let cfg := Config 4 127 false true in
  nblocks cfg <= 127
  /\ (0 <= nblocks cfg ->
      BLOCKSIZE cfg = nblocks cfg * 1024
      /\ 0 <= BLOCKSIZE cfg < Z.of_nat BUFFER_BYTES).
Proof.
  apply (parse_options_block_bound ["-n4"; "-b900"; "-s"; "src"]%string
           (Config 4 127 false true) "src").
  reflexivity.
Defined.

(** ** The fragment buffer *)

Lemma abs_scan_open rest : forall p cur t,
  (abs_scan p cur rest t).1.2 = open_run cur rest.
Proof.
  induction rest as [|c rest IH]; intros p cur t; simpl; [done|].
  destruct (is_token c); apply IH.
Qed.

Lemma abs_blocks_defined blocks : forall p t,
  is_Some (abs_blocks p t blocks)
  <-> Forall (fun b => Z.of_nat (length (fragment b)) <= 1023) blocks.
Proof.
  induction blocks as [|b bs IH]; intros p t.
  - split; [constructor|by eexists].
  - cbn [abs_blocks]. rewrite Forall_cons.
    pose proof (abs_scan_open b p [] (bump (length b) t)) as Ho.
    destruct (abs_scan p [] b (bump (length b) t)) as [[p' cur'] t'].
    simpl in Ho. unfold fragment at 1. rewrite <- Ho.
    destruct cur' as [|c cur'].
    + rewrite IH. simpl. split; [intros ?; split; [lia|done]|by intros [_ ?]].
    + case (Z.leb_spec 1024); intros Hlen.
      * split; [by intros [? ?]|]. intros [? _]. lia.
      * rewrite IH. split; [intros ?; split; [lia|done]|by intros [_ ?]].
Qed.

(** X11.  The copy of lines 216-219 stays inside the 1024 bytes of
    [prefix_copy] exactly when no read ends with more than 1023 word
    bytes: a file is scanned to its end without a write past that array
    if and only if every read leaves a fragment of at most 1023
    bytes. *)
Theorem prefix_copy_bound (blocks : list (list ascii)) (buffer : list ascii)
    (t : tally) :
  Forall (fun b => (length b < length buffer)%nat) blocks ->
  (is_Some (wcounter_file blocks buffer t)
   <-> Forall (fun b => Z.of_nat (length (fragment b)) <= 1023) blocks).
Proof.
  intros Hfit. unfold wcounter_file.
  destruct (read_loop_abs blocks buffer None t Hfit I) as (buffer' & _ & Hrun).
  simpl in Hrun. rewrite Hrun, <- (abs_blocks_defined blocks None t).
  destruct (abs_blocks None t blocks); simpl; split;
    intros [? ?]; try done; by eexists.
Qed.

Lemma prefix_copy_bound_witness :
  is_Some (wcounter_file [bytes "x hel"; bytes "lo y"] fresh_buffer empty_tally)
  <-> Forall (fun b => Z.of_nat (length (fragment b)) <= 1023)
        [bytes "x hel"; bytes "lo y"].
Proof.
  apply (prefix_copy_bound [bytes "x hel"; bytes "lo y"]).
  apply Forall_cons; split; [apply Nat.ltb_lt; vm_compute; reflexivity|].
  apply Forall_cons; split; [apply Nat.ltb_lt; vm_compute; reflexivity|].
  apply List.Forall_nil.
Defined.

(** ** The scan counters *)

Lemma emit_counters p cur t :
  blocks_scanned (emit p cur t) = blocks_scanned t
  /\ bytes_scanned (emit p cur t) = bytes_scanned t.
Proof.
  unfold emit, glue. destruct p as [pre|], cur as [|c cur]; try done.
  by destruct (Z.leb 1023 _).
Qed.

Lemma abs_scan_counters rest : forall p cur t,
  blocks_scanned (abs_scan p cur rest t).2 = blocks_scanned t
  /\ bytes_scanned (abs_scan p cur rest t).2 = bytes_scanned t.
Proof.
  induction rest as [|c rest IH]; intros p cur t; simpl; [done|].
  destruct (is_token c); [apply IH|].
  destruct (IH None [] (emit p cur t)) as [-> ->]. apply emit_counters.
Qed.

Lemma abs_blocks_counters blocks : forall p t t',
  is_int (blocks_scanned t) -> is_int (bytes_scanned t) ->
  abs_blocks p t blocks = Some t' ->
  blocks_scanned t' = wrap_int (blocks_scanned t + Z.of_nat (length blocks))
  /\ bytes_scanned t'
     = wrap_int (bytes_scanned t + Z.of_nat (length (concat blocks))).
Proof.
  induction blocks as [|b bs IH]; intros p t t' Hb Hy Hrun.
  - injection Hrun as <-. destruct (emit_counters p [] t) as [-> ->].
    simpl. rewrite !Z.add_0_r, !wrap_int_id; done.
  - cbn [abs_blocks] in Hrun.
    destruct (abs_scan_counters b p [] (bump (length b) t)) as [Hb1 Hy1].
    destruct (abs_scan p [] b (bump (length b) t)) as [[p' cur'] t1].
    simpl in Hb1, Hy1.
    assert (Hnext : forall q, abs_blocks q t1 bs = Some t' ->
      blocks_scanned t'
      = wrap_int (blocks_scanned t + Z.of_nat (length (b :: bs)))
      /\ bytes_scanned t'
         = wrap_int (bytes_scanned t + Z.of_nat (length (concat (b :: bs))))).
    { intros q Hq. apply IH in Hq.
      - destruct Hq as [-> ->]. rewrite Hb1, Hy1. simpl bump.
        cbn [blocks_scanned bytes_scanned concat length].
        rewrite !wrap_int_add_l, length_app. split; f_equal; lia.
      - rewrite Hb1. apply wrap_int_is_int.
      - rewrite Hy1. apply wrap_int_is_int. }
    destruct cur' as [|c cur']; [by apply (Hnext p')|].
    destruct (Z.leb 1024 _); [done|]. by apply (Hnext (Some (c :: cur'))).
Qed.

(** X12.  A file scanned to its end adds the number of its reads to
    [blocks_scanned] and the number of its bytes to [bytes_scanned],
    both modulo 2^32; the table and the words have no part in it. *)
Theorem scan_counters (blocks : list (list ascii)) (buffer buffer' : list ascii)
    (t t' : tally) :
  Forall (fun b => (length b < length buffer)%nat) blocks ->
  is_int (blocks_scanned t) -> is_int (bytes_scanned t) ->
  wcounter_file blocks buffer t = Some (buffer', t') ->
  blocks_scanned t' = wrap_int (blocks_scanned t + Z.of_nat (length blocks))
  /\ bytes_scanned t'
     = wrap_int (bytes_scanned t + Z.of_nat (length (concat blocks))).
Proof.
  intros Hfit Hb Hy Hrun. unfold wcounter_file in Hrun.
  destruct (read_loop_abs blocks buffer None t Hfit I) as (b2 & _ & Habs).
  simpl in Habs. rewrite Habs in Hrun.
  destruct (abs_blocks None t blocks) as [t2|] eqn:E; [|done].
  injection Hrun as _ <-. by apply (abs_blocks_counters blocks None t).
Qed.

Lemma scan_counters_witness :
  exists buffer' t',
    wcounter_file [bytes "x hel"; bytes "lo y"] (replicate 8 NUL) empty_tally
    = Some (buffer', t')
    /\ blocks_scanned t' = wrap_int (0 + 2)
    /\ bytes_scanned t' = wrap_int (0 + 9).
Proof.
  destruct (wcounter_file [bytes "x hel"; bytes "lo y"] (replicate 8 NUL)
              empty_tally) as [[buffer' t']|] eqn:E.
  - exists buffer', t'. split; [reflexivity|].
    apply (scan_counters [bytes "x hel"; bytes "lo y"] (replicate 8 NUL)
             buffer' empty_tally t').
    + apply Forall_cons; split; [apply Nat.ltb_lt; vm_compute; reflexivity|].
      apply Forall_cons; split; [apply Nat.ltb_lt; vm_compute; reflexivity|].
      apply List.Forall_nil.
    + unfold is_int, empty_tally. cbn [blocks_scanned]. lia.
    + unfold is_int, empty_tally. cbn [bytes_scanned]. lia.
    + exact E.
  - exfalso. revert E. vm_compute. discriminate.
Defined.

(** ** The keys of a table *)

Lemma grown_refl t : grown t t.
Proof. intros w H. by left. Qed.

Lemma grown_trans t1 t2 t3 : grown t1 t2 -> grown t2 t3 -> grown t1 t3.
Proof.
  intros H12 H23 w H. destruct (H23 w H) as [H2|?]; [|by right].
  by apply H12.
Qed.

Lemma record_grown t w : all_token w -> w <> [] -> grown t (record t w).
Proof.
  intros Hw Hne k Hk. unfold record, with_sub_count, add_count in Hk.
  simpl in Hk. destruct (decide (string_of_list_ascii w = k)) as [<-|Hneq].
  - right. split.
    + destruct w; [done|]. simpl. done.
    + by rewrite list_ascii_of_string_of_list_ascii.
  - left. by rewrite lookup_insert_ne in Hk.
Qed.

Lemma emit_grown p cur t :
  opt_word p -> all_token cur -> grown t (emit p cur t).
Proof.
  intros Hp Hc. unfold emit, glue.
  destruct p as [pre|]; simpl in Hp.
  - destruct Hp as [Hpre Hne]. destruct cur as [|c cur].
    + by apply record_grown.
    + destruct (Z.leb 1023 _); [by intros w H; left|].
      apply record_grown; [by apply Forall_app|]. by destruct pre.
  - destruct cur as [|c cur]; [apply grown_refl|]. by apply record_grown.
Qed.

Lemma abs_scan_grown rest : forall p cur t,
  opt_word p -> all_token cur ->
  grown t (abs_scan p cur rest t).2
  /\ opt_word (abs_scan p cur rest t).1.1
  /\ all_token (abs_scan p cur rest t).1.2.
Proof.
  induction rest as [|c rest IH]; intros p cur t Hp Hc; simpl.
  - split; [apply grown_refl|done].
  - destruct (is_token c) eqn:E.
    + apply IH; [done|]. apply Forall_app; split; [done|]. by constructor.
    + destruct (IH None [] (emit p cur t) I (List.Forall_nil _))
        as (Hg & Hp' & Hc').
      split; [|by split].
      apply (grown_trans t (emit p cur t)); [by apply emit_grown|exact Hg].
Qed.

Lemma abs_blocks_grown blocks : forall p t t',
  opt_word p -> abs_blocks p t blocks = Some t' -> grown t t'.
Proof.
  induction blocks as [|b bs IH]; intros p t t' Hp Hrun.
  - injection Hrun as <-. apply emit_grown; [done|constructor].
  - cbn [abs_blocks] in Hrun.
    destruct (abs_scan_grown b p [] (bump (length b) t) Hp (List.Forall_nil _))
      as (Hg & Hp' & Hc').
    destruct (abs_scan p [] b (bump (length b) t)) as [[p' cur'] t1].
    simpl in *.
    assert (Hg0 : grown t t1) by exact Hg.
    destruct cur' as [|c cur'].
    + apply (grown_trans t t1); [exact Hg0|]. by apply (IH p').
    + destruct (Z.leb 1024 _); [done|].
      apply (grown_trans t t1); [exact Hg0|].
      by apply (IH (Some (c :: cur'))).
Qed.

(** X13.  Scanning a file only ever adds words to the table: every key
    of the table after the scan was a key before it or is a non-empty
    string of word bytes.  No empty word and no string that contains a
    delimiter is ever counted, however the reads fall. *)
Theorem scan_adds_words_only (blocks : list (list ascii))
    (buffer buffer' : list ascii) (t t' : tally) (w : string) :
  Forall (fun b => (length b < length buffer)%nat) blocks ->
  wcounter_file blocks buffer t = Some (buffer', t') ->
  is_Some (sub_count t' !! w) ->
  is_Some (sub_count t !! w) \/ token_word w.
Proof.
  intros Hfit Hrun. unfold wcounter_file in Hrun.
  destruct (read_loop_abs blocks buffer None t Hfit I) as (b2 & _ & Habs).
  simpl in Habs. rewrite Habs in Hrun.
  destruct (abs_blocks None t blocks) as [t2|] eqn:E; [|done].
  injection Hrun as _ <-. by apply (abs_blocks_grown blocks None t t2 I E).
Qed.

Lemma scan_adds_words_only_witness :
  is_Some (sub_count empty_tally !! "cd"%string) \/ token_word "cd".
Proof.
  destruct (wcounter_file [bytes "x ab"; bytes "cd"] (replicate 8 NUL)
              empty_tally) as [[buffer' t']|] eqn:E.
  - apply (scan_adds_words_only [bytes "x ab"; bytes "cd"] (replicate 8 NUL)
             buffer' empty_tally t' "cd").
    + apply Forall_cons; split; [apply Nat.ltb_lt; vm_compute; reflexivity|].
      apply Forall_cons; split; [apply Nat.ltb_lt; vm_compute; reflexivity|].
      apply List.Forall_nil.
    + exact E.
    + revert E. vm_compute. intros [= <- <-]. by eexists.
  - exfalso. revert E. vm_compute. discriminate.
Defined.

(** ** A file that fits in one read *)

Lemma reads_of_small (B : nat) (content : list ascii) :
  (length content <= B)%nat ->
  reads_of B content = match content with [] => [] | _ => [content] end.
Proof.
  intros Hle. unfold reads_of. destruct content as [|c content]; [done|].
  cbn [length reads_of_fuel]. rewrite take_ge by (simpl in *; lia).
  rewrite drop_ge by (simpl in *; lia).
  destruct (length content) as [|k]; [done|].
  cbn [reads_of_fuel]. by rewrite take_nil.
Qed.

Lemma single_block_abs (b : list ascii) (t : tally) :
  Z.of_nat (length (fragment b)) <= 1023 ->
  exists t', abs_blocks None t [b] = Some t'
    /\ sub_count t' = count_words (sub_count t) (words_of b)
    /\ printed t' = printed t.
Proof.
  intros Hfrag. cbn [abs_blocks]. rewrite abs_scan_unpended.
  unfold words_of. rewrite maximal_runs_split. fold (fragment b) in *.
  set (t1 := records (bump (length b) t) (closed_runs [] b)).
  assert (Hsub : sub_count t1 = count_words (sub_count t) (closed_runs [] b))
    by (unfold t1; by rewrite sub_count_records).
  assert (Hpr : printed t1 = printed t)
    by (unfold t1; by rewrite printed_records).
  rewrite count_words_app, <- Hsub.
  destruct (fragment b) as [|c cur].
  - exists t1. by rewrite Hpr.
  - case (Z.leb_spec 1024); [lia|intros _].
    eexists. split; [done|]. by rewrite <- Hpr.
Qed.

(** X14.  A file that one read takes in whole is counted exactly, with
    no limit on the length of its words: every maximal run of word bytes
    is added once and nothing is printed, provided the file does not end
    in more than 1023 word bytes.  An empty file leaves the table as it
    was. *)
Theorem single_read_counts_all (B : nat) (content buffer : list ascii)
    (t : tally) :
  (length content <= B)%nat -> (B < length buffer)%nat ->
  Z.of_nat (length (fragment content)) <= 1023 ->
  exists buffer' t',
    wcounter_file (reads_of B content) buffer t = Some (buffer', t')
    /\ sub_count t' = count_words (sub_count t) (words_of content)
    /\ printed t' = printed t.
Proof.
  intros Hle HB Hfrag. rewrite reads_of_small by done.
  destruct content as [|c content].
  - exists buffer, t. done.
  - destruct (single_block_abs (c :: content) t Hfrag) as (t' & Ha & Hc & Hp).
    destruct (read_loop_abs [c :: content] buffer None t) as (b' & _ & Hr);
      [by (apply Forall_cons; split; [lia|constructor])|done|].
    exists b', t'. unfold wcounter_file.
    change (mem None) with (@None (list ascii)) in Hr. by rewrite Hr, Ha.
Qed.

Lemma single_read_counts_all_witness :
  exists buffer' t',
    wcounter_file (reads_of 16 (bytes "foo foo bar")) (replicate 17 NUL)
      empty_tally = Some (buffer', t')
    /\ sub_count t'
       = count_words (sub_count empty_tally) (words_of (bytes "foo foo bar"))
    /\ printed t' = printed empty_tally.
Proof.
  apply (single_read_counts_all 16 (bytes "foo foo bar") (replicate 17 NUL)
           empty_tally).
  - apply Nat.leb_le. reflexivity.
  - apply Nat.ltb_lt. reflexivity.
  - vm_compute. discriminate.
Defined.

(** ** Several files *)

(** X15.  A worker counts the files it claims one after the other into
    the same table and never joins bytes of two files: when each file
    has words of at most 1022 bytes and no read that lies wholly inside
    a word, the table gains the words of every file taken on its own, so
    a file that ends in a word and a next file that begins with one give
    two words. *)
Theorem files_counted_separately (files : list (list (list ascii)))
    (buffer : list ascii) (t : tally) :
  Forall (fun blocks =>
            Forall (fun b => (length b < length buffer)%nat) blocks
            /\ Forall short_word (words_of (concat blocks))
            /\ inner_read blocks = false) files ->
  exists buffer' t',
    wcounter_files files buffer t = Some (buffer', t')
    /\ sub_count t'
       = count_words (sub_count t)
           (concat ((fun blocks => words_of (concat blocks)) <$> files))
    /\ printed t' = printed t.
Proof.
  revert buffer t. induction files as [|blocks files IH]; intros buffer t Hall.
  - exists buffer, t. done.
  - apply Forall_cons in Hall as [(Hfit & Hshort & Hinner) Hrest].
    destruct (read_loop_abs blocks buffer None t Hfit I) as (b1 & Hlen & Hr).
    destruct (abs_blocks_runs blocks None t) as (t1 & Ha & Hc & Hp);
      [done..|].
    destruct (IH b1 t1) as (b2 & t2 & Hrun & Hc2 & Hp2).
    { rewrite Hlen. exact Hrest. }
    exists b2, t2. cbn [wcounter_files]. unfold wcounter_file.
    change (mem None) with (@None (list ascii)) in Hr.
    rewrite Hr, Ha. cbn [fmap option_fmap option_map]. split; [exact Hrun|].
    rewrite fmap_cons. cbn [concat]. rewrite count_words_app.
    split; [|congruence]. rewrite Hc2. f_equal. exact Hc.
Qed.

Lemma files_counted_separately_witness :
  exists buffer' t',
    wcounter_files [[bytes "x ab"]; [bytes "cd y"]] (replicate 8 NUL)
      empty_tally = Some (buffer', t')
    /\ sub_count t'
       = count_words (sub_count empty_tally)
           (concat ((fun blocks => words_of (concat blocks))
                      <$> [[bytes "x ab"]; [bytes "cd y"]]))
    /\ printed t' = printed empty_tally.
Proof.
  apply (files_counted_separately [[bytes "x ab"]; [bytes "cd y"]]
           (replicate 8 NUL) empty_tally).
  apply Forall_cons; split.
  { split; [|split; [|reflexivity]].
    - apply Forall_cons; split; [apply Nat.ltb_lt; reflexivity|].
      apply List.Forall_nil.
    - vm_compute.
      apply Forall_cons; split; [reflexivity|].
      apply Forall_cons; split; [reflexivity|]. apply List.Forall_nil. }
  apply Forall_cons; split.
  { split; [|split; [|reflexivity]].
    - apply Forall_cons; split; [apply Nat.ltb_lt; reflexivity|].
      apply List.Forall_nil.
    - vm_compute.
      apply Forall_cons; split; [reflexivity|].
      apply Forall_cons; split; [reflexivity|]. apply List.Forall_nil. }
  apply List.Forall_nil.
Defined.

(** ** Regular files read block by block *)

Lemma reads_of_fuel_concat (B : nat) : (0 < B)%nat -> forall fuel c,
  (length c <= fuel)%nat -> concat (reads_of_fuel fuel B c) = c.
Proof.
  intros HB fuel. induction fuel as [|fuel IH]; intros c Hlen.
  - destruct c; [done|simpl in Hlen; lia].
  - cbn [reads_of_fuel]. destruct (take B c) as [|x b] eqn:Et.
    + destruct c as [|y c]; [done|]. destruct B; [lia|done].
    + cbn [concat]. rewrite IH.
      * rewrite <- Et. apply take_drop.
      * rewrite length_drop. destruct c; [by rewrite take_nil in Et|].
        simpl in *. lia.
Qed.

Lemma reads_of_fuel_fit (B : nat) : forall fuel c,
  Forall (fun b => (length b <= B)%nat) (reads_of_fuel fuel B c).
Proof.
  intros fuel. induction fuel as [|fuel IH]; intros c; [constructor|].
  cbn [reads_of_fuel]. destruct (take B c) as [|x b] eqn:Et; [constructor|].
  constructor; [|apply IH]. rewrite <- Et, length_take. lia.
Qed.

Lemma reads_of_fuel_head (B : nat) fuel c :
  reads_of_fuel fuel B c = []
  \/ exists tl, reads_of_fuel fuel B c = take B c :: tl /\ take B c <> [].
Proof.
  destruct fuel as [|fuel]; [by left|]. cbn [reads_of_fuel].
  destruct (take B c) as [|x b] eqn:Et; [by left|right]. by eexists.
Qed.

Lemma maximal_runs_token seg : forall cur post,
  all_token seg ->
  maximal_runs cur (seg ++ post) = maximal_runs (cur ++ seg) post.
Proof.
  induction seg as [|c seg IH]; intros cur post Hs; simpl.
  - by rewrite app_nil_r.
  - apply Forall_cons in Hs as [Hc Hs]. rewrite Hc, IH by done.
    by rewrite <- (assoc_L (++)).
Qed.

Lemma maximal_runs_segment pre : forall cur seg post,
  all_token seg -> seg <> [] ->
  exists w, w ∈ maximal_runs cur (pre ++ seg ++ post)
            /\ (length seg <= length w)%nat.
Proof.
  induction pre as [|c pre IH]; intros cur seg post Hs Hne.
  - simpl. rewrite maximal_runs_token by done.
    destruct (maximal_runs_open post (cur ++ seg)) as (w & rest & ->);
      [by destruct cur, seg|].
    exists ((cur ++ seg) ++ w). split; [by left|].
    rewrite !length_app. lia.
  - simpl. destruct (is_token c); [by apply IH|].
    destruct (IH [] seg post Hs Hne) as (w & Hw & Hlen).
    exists w. split; [|done]. apply elem_of_app. by right.
Qed.

Lemma short_words_no_long_run (c : list ascii) :
  Forall short_word (words_of c) -> no_long_run c.
Proof.
  intros Hshort pre seg post -> Hs.
  destruct seg as [|x seg]; [simpl; lia|].
  destruct (maximal_runs_segment pre [] (x :: seg) post Hs) as (w & Hw & Hlen);
    [done|].
  unfold words_of in Hshort. rewrite List.Forall_forall in Hshort.
  apply list_elem_of_In, Hshort in Hw. unfold short_word in Hw. lia.
Qed.

Lemma no_long_run_drop (n : nat) (c : list ascii) :
  no_long_run c -> no_long_run (drop n c).
Proof.
  intros H pre seg post Heq Hs. apply (H (take n c ++ pre) seg post); [|done].
  by rewrite <- (assoc_L (++)), <- Heq, take_drop.
Qed.

Lemma ends_in_word_app (a b : list ascii) :
  b <> [] -> ends_in_word (a ++ b) = ends_in_word b.
Proof.
  intros Hb. unfold ends_in_word.
  destruct b as [|x b] using rev_ind; [done|].
  by rewrite (assoc_L (++)), !last_snoc.
Qed.

Lemma all_token_ends (b : list ascii) :
  all_token b -> b <> [] -> ends_in_word b = true.
Proof.
  intros Hb Hne. unfold ends_in_word.
  destruct b as [|x b _] using rev_ind; [done|].
  rewrite last_snoc. apply Forall_app in Hb as [_ Hx].
  by apply Forall_cons in Hx as [? _].
Qed.

Lemma reads_no_inner (B : nat) : 1023 <= Z.of_nat B -> forall fuel c,
  no_long_run c -> ends_in_word c = false ->
  inner_read (reads_of_fuel fuel B c) = false.
Proof.
  intros HB fuel. induction fuel as [|fuel IH]; intros c Hrun Hend; [done|].
  cbn [reads_of_fuel]. destruct (take B c) as [|x b1] eqn:Et; [done|].
  destruct (reads_of_fuel_head B fuel (drop B c)) as [->|(tl & Heq & Hne)];
    [done|].
  assert (Hrest : drop B c <> []) by (intros Hnil; by rewrite Hnil, take_nil in Hne).
  assert (Hend' : ends_in_word (drop B c) = false).
  { rewrite <- (ends_in_word_app (take B c)) by done. by rewrite take_drop. }
  specialize (IH (drop B c) (no_long_run_drop B c Hrun) Hend').
  rewrite Heq in IH |- *.
  change ((ends_in_word (x :: b1) && forallb is_token (take B (drop B c))
           || inner_read (take B (drop B c) :: tl)) = false).
  rewrite IH, orb_false_r.
  apply andb_false_iff. right.
  destruct (forallb is_token (take B (drop B c))) eqn:Hall; [exfalso|done].
  apply forallb_all_token in Hall.
  destruct (decide (Z.of_nat (length (take B (drop B c))) < 1023)) as [Hlt|Hge].
  - assert (Hwhole : take B (drop B c) = drop B c).
    { apply take_ge. rewrite length_take in Hlt. lia. }
    rewrite Hwhole in Hall.
    by rewrite (all_token_ends _ Hall Hrest) in Hend'.
  - apply Hge. apply (Hrun (take B c) (take B (drop B c)) (drop B (drop B c)));
      [|done].
    by rewrite !take_drop.
Qed.

(** X16.  For a regular file that does not end in a word byte (it is
    empty or ends with a newline, say) and whose words are at most 1022
    bytes long, every block size from 1023 bytes on gives the exact
    counts: the reads of [BLOCKSIZE] bytes are scanned to the end,
    nothing is printed, and every maximal run of word bytes is added
    once, also when a block boundary falls inside it. *)
Theorem terminated_file_counted (B : nat) (content buffer : list ascii)
    (t : tally) :
  1023 <= Z.of_nat B -> (B < length buffer)%nat ->
  Forall short_word (words_of content) ->
  ends_in_word content = false ->
  exists buffer' t',
    wcounter_file (reads_of B content) buffer t = Some (buffer', t')
    /\ sub_count t' = count_words (sub_count t) (words_of content)
    /\ printed t' = printed t.
Proof.
  intros HB Hbuf Hshort Hend. unfold reads_of, wcounter_file.
  set (blocks := reads_of_fuel (length content) B content).
  assert (Hcat : concat blocks = content)
    by (apply reads_of_fuel_concat; lia).
  assert (Hfit : Forall (fun b => (length b < length buffer)%nat) blocks).
  { eapply Forall_impl; [apply reads_of_fuel_fit|]. simpl. intros; lia. }
  assert (Hinner : inner_read blocks = false).
  { apply reads_no_inner; [done| |done]. by apply short_words_no_long_run. }
  destruct (read_loop_abs blocks buffer None t Hfit I) as (b' & _ & Hr).
  destruct (abs_blocks_runs blocks None t) as (t' & Ha & Hc & Hp);
    [done|by rewrite Hcat|done|done|].
  exists b', t'. change (mem None) with (@None (list ascii)) in Hr.
  rewrite Hr, Ha. simpl in Hc. rewrite Hcat in Hc. done.
Qed.

Lemma terminated_file_counted_witness :
  exists buffer' t',
    wcounter_file (reads_of 1023 (bytes "foo foo bar
")) (replicate 1024 NUL) empty_tally = Some (buffer', t')
    /\ sub_count t'
       = count_words (sub_count empty_tally) (words_of (bytes "foo foo bar
"))
    /\ printed t' = printed empty_tally.
Proof.
  apply (terminated_file_counted 1023 (bytes "foo foo bar
") (replicate 1024 NUL) empty_tally).
  - apply Z.leb_le. vm_compute. reflexivity.
  - apply Nat.ltb_lt. vm_compute. reflexivity.
  - vm_compute.
    apply Forall_cons; split; [reflexivity|].
    apply Forall_cons; split; [reflexivity|].
    apply Forall_cons; split; [reflexivity|]. apply List.Forall_nil.
  - vm_compute. reflexivity.
Defined.

(** ** The ring of descriptors *)

Lemma slot_ne (j k : Z) :
  0 <= j < k -> k - j < 64 ->
  Z.to_nat (Z.rem j FDESCS) <> Z.to_nat (Z.rem k FDESCS).
Proof.
  intros Hj Hk. unfold FDESCS, MAXTHREADS.
  rewrite !Z.rem_mod_nonneg by lia. intros Heq.
  apply Z2Nat.inj in Heq; [|apply Z.mod_pos_bound; lia..].
  pose proof (Z.div_mod j 64 ltac:(lia)) as H1.
  pose proof (Z.div_mod k 64 ltac:(lia)) as H2.
  rewrite Heq in H1.
  generalize dependent (k `mod` 64). generalize dependent (j `div` 64).
  generalize dependent (k `div` 64). intros. lia.
Qed.

Lemma slot_lt (j : Z) : 0 <= j -> (Z.to_nat (Z.rem j FDESCS) < 64)%nat.
Proof.
  intros Hj. unfold FDESCS, MAXTHREADS. rewrite Z.rem_mod_nonneg by lia.
  pose proof (Z.mod_pos_bound j 64 ltac:(lia)) as Hb.
  generalize dependent (j `mod` 64). intros. lia.
Qed.

Lemma opened_from_all (opens : list Z) :
  opened_from opens (length opens) = [].
Proof. unfold opened_from. by rewrite drop_all. Qed.

Lemma opened_from_step (opens : list Z) (nf : nat) (r : Z) :
  opens !! nf = Some r ->
  opened_from opens nf
  = opened_from opens (S nf) ++ (if Z.eqb r (-1) then [] else [r]).
Proof.
  intros Hr. unfold opened_from.
  rewrite (drop_S _ _ _ Hr), reverse_cons, filter_app. f_equal.
  destruct (Z.eqb_spec r (-1)) as [->|Hne].
  - by rewrite filter_cons_False by (intros H; by apply H).
  - by rewrite filter_cons_True.
Qed.

Lemma failed_from_step (opens : list Z) (nf : nat) (r : Z) :
  opens !! nf = Some r ->
  length (failed_from opens nf)
  = ((if Z.eqb r (-1) then 1 else 0) + length (failed_from opens (S nf)))%nat.
Proof.
  intros Hr. unfold failed_from. rewrite (drop_S _ _ _ Hr).
  destruct (Z.eqb_spec r (-1)) as [->|Hne].
  - by rewrite filter_cons_True.
  - by rewrite filter_cons_False.
Qed.

Lemma count_ends_app (l1 l2 : list Z) :
  count_ends (l1 ++ l2) = (count_ends l1 + count_ends l2)%nat.
Proof. unfold count_ends. by rewrite filter_app, length_app. Qed.

Lemma count_ends_one (v : Z) :
  count_ends [v] = if Z.eqb v (-2) then 1%nat else 0%nat.
Proof.
  unfold count_ends. destruct (Z.eqb_spec v (-2)) as [->|Hne].
  - by rewrite filter_cons_True.
  - by rewrite filter_cons_False.
Qed.

Lemma ring_init_inv cfg opens : ring_inv cfg opens (pipe_init cfg).
Proof.
  split; unfold submitted, pipe_init;
    cbn [fcount opencount fdescs free_ptr next_ptr file_count
         expected_file_count opener workers unopened scanned
         sweep_pos ends_stored].
  - by rewrite opened_from_all.
  - by rewrite length_replicate.
  - intros j Hj. lia.
  - rewrite opened_from_all, !fmap_replicate, !sum_list_replicate.
    cbn [exited holding_end]. by rewrite !Nat.mul_0_r.
  - unfold failed_from. by rewrite drop_all.
  - done.
  - done.
Qed.

(** A step of the producer that stores nothing. *)
Lemma ring_inv_pc cfg opens s fc oc fl e' pc' sc :
  ring_inv cfg opens s ->
  sweep_pos opens pc' = sweep_pos opens (opener s) ->
  ends_stored cfg pc' = ends_stored cfg (opener s) ->
  (silent cfg = false -> pc' <> OpenerStart ->
   e' = Z.of_nat (length opens)) ->
  (pc' = OpenerDone ->
   Z.of_nat (length (failed_from opens 0)) + nthreads cfg <= 64) ->
  ring_inv cfg opens
    (PipeState fc oc (fdescs s) (free_ptr s) (next_ptr s) fl e' pc'
       (workers s) (unopened s) sc).
Proof.
  intros [Rl Rz Rs Re Ru Rx Rd] Hpos Hends He Hd.
  split; unfold submitted in *;
    cbn [fcount opencount fdescs free_ptr next_ptr file_count
         expected_file_count opener workers unopened scanned];
    rewrite ?Hpos, ?Hends; done.
Qed.

(** A store of the producer that is announced: line 80 when it
    succeeds, and line 94. *)
Lemma ring_inv_push cfg opens s fc oc fl pc' v sc :
  ring_inv cfg opens s ->
  0 <= next_ptr s <= free_ptr s -> free_ptr s - next_ptr s < 64 ->
  submitted cfg opens pc' = submitted cfg opens (opener s) ++ [v] ->
  length (failed_from opens (sweep_pos opens pc'))
    = length (failed_from opens (sweep_pos opens (opener s))) ->
  pc' <> OpenerStart -> pc' <> OpenerDone -> opener s <> OpenerStart ->
  ring_inv cfg opens
    (PipeState fc oc (store (Z.rem (free_ptr s) FDESCS) v (fdescs s))
       (free_ptr s + 1) (next_ptr s) fl (expected_file_count s) pc'
       (workers s) (unopened s) sc).
Proof.
  intros [Rl Rz Rs Re Ru Rx Rd] Hptr Hroom Hsub Hfail Hpc' Hpd Hpc.
  split;
    cbn [fcount opencount fdescs free_ptr next_ptr file_count
         expected_file_count opener workers unopened scanned];
    rewrite ?Hsub.
  - rewrite length_app. simpl. lia.
  - unfold store. by rewrite length_insert.
  - intros j Hj. unfold store.
    destruct (decide (j = free_ptr s)) as [->|Hne].
    + rewrite list_lookup_insert_eq by (rewrite Rz; apply slot_lt; lia).
      symmetry. apply list_lookup_middle. lia.
    + rewrite list_lookup_insert_ne by (apply not_eq_sym, slot_ne; lia).
      rewrite lookup_app_l by lia. apply Rs. lia.
  - rewrite take_app_le by lia. done.
  - by rewrite Hfail.
  - intros Hsil _. by apply Rx.
  - done.
Qed.

Lemma ring_opener_inv cfg opens s s' :
  0 <= nthreads cfg ->
  Z.of_nat (length opens) + nthreads cfg <= INT_MAX ->
  pipe_inv cfg opens s -> ring_inv cfg opens s ->
  opener_step cfg opens s = Some s' ->
  ring_inv cfg opens s'.
Proof.
  intros Hn Hmax [Hw Hf Ho Hu Ha Hx Ht Hc Hs Hfc He Hok] Hring Hstep.
  unfold opener_step in Hstep. unfold INT_MAX in Hmax.
  unfold unclaimed, FDESCS, MAXTHREADS in Hu, Ha.
  assert (Hhold : 0 <= hold s) by (unfold hold; lia).
  assert (Hlen : wrap_int (Z.of_nat (length opens)) = Z.of_nat (length opens))
    by (apply wrap_int_id; unfold is_int; lia).
  destruct (opener s) as [|nf|nf|nf|n|n|] eqn:Hpc;
    cbn [opener_hold pending_end todo opener_ok] in *.
  - injection Hstep as <-. rewrite Hlen.
    apply ring_inv_pc; rewrite ?Hpc; [done|simpl; lia|done| |done].
    intros Hsil _. by rewrite Hsil.
  - injection Hstep as <-.
    destruct (Z.eqb_spec nf 0) as [->|Hne].
    + apply ring_inv_pc; rewrite ?Hpc; [done|done|done| |done].
      intros Hsil _. apply (ri_expected _ _ _ Hring Hsil). by rewrite Hpc.
    + rewrite wrap_int_id by (unfold is_int; lia).
      apply ring_inv_pc; rewrite ?Hpc; [done|simpl; lia|done| |done].
      intros Hsil _. apply (ri_expected _ _ _ Hring Hsil). by rewrite Hpc.
  - destruct (Z.ltb_spec 0 (fcount s)); [|done]. injection Hstep as <-.
    apply ring_inv_pc; rewrite ?Hpc; [done|done|done| |done].
    intros Hsil _. apply (ri_expected _ _ _ Hring Hsil). by rewrite Hpc.
  - destruct (opens !! Z.to_nat nf) as [r|] eqn:Hr; [|done].
    pose proof (opened_from_step opens _ r Hr) as Hop.
    pose proof (failed_from_step opens _ r Hr) as Hfl.
    destruct (Z.eqb_spec r (-1)) as [->|Hne]; injection Hstep as <-.
    + destruct Hring as [Rl Rz Rs Re Ru Rx Rd]. rewrite Hpc in *.
      assert (Hsub : submitted cfg opens (OpenerLoop nf)
                     = submitted cfg opens (OpenerOpen nf)).
      { unfold submitted. cbn [sweep_pos ends_stored].
        by rewrite Hop, app_nil_r. }
      split;
        cbn [fcount opencount fdescs free_ptr next_ptr file_count
             expected_file_count opener workers unopened scanned];
        rewrite ?Hsub; try done.
      * unfold store. by rewrite length_insert.
      * intros j Hj. unfold store.
        rewrite list_lookup_insert_ne by (apply not_eq_sym, slot_ne; lia).
        by apply Rs.
      * rewrite length_app, Ru. cbn [sweep_pos length]. lia.
      * intros Hsil _. by apply Rx.
    + rewrite wrap_int_id by (unfold is_int; lia).
      apply ring_inv_push; rewrite ?Hpc; try done; try lia.
      unfold submitted. cbn [sweep_pos ends_stored].
      by rewrite Hop, !app_nil_r.
  - destruct (Z.ltb_spec n (nthreads cfg)); injection Hstep as <-.
    + apply ring_inv_pc; rewrite ?Hpc; [done|done|done| |done].
      intros Hsil _. apply (ri_expected _ _ _ Hring Hsil). by rewrite Hpc.
    + pose proof (ri_unopened _ _ _ Hring) as Ru. rewrite Hpc in Ru.
      cbn [sweep_pos] in Ru.
      apply ring_inv_pc; rewrite ?Hpc; [done|done|simpl; f_equal; lia| |].
      * intros Hsil _. apply (ri_expected _ _ _ Hring Hsil). by rewrite Hpc.
      * intros _. lia.
  - destruct (Z.ltb_spec 0 (fcount s)); [|done]. injection Hstep as <-.
    rewrite (wrap_int_id (free_ptr s + 1)) by (unfold is_int; lia).
    rewrite (wrap_int_id (n + 1)) by (unfold is_int; lia).
    apply ring_inv_push; rewrite ?Hpc; try done; try lia.
    unfold submitted. cbn [sweep_pos ends_stored].
    replace (Z.to_nat (n + 1)) with (S (Z.to_nat n)) by lia.
    by rewrite replicate_S_end, (assoc_L (++)).
  - done.
Qed.

(** What a worker finds in the slot it claims. *)
Lemma claimed_slot cfg opens s :
  0 <= nthreads cfg ->
  pipe_inv cfg opens s -> ring_inv cfg opens s ->
  0 < opencount s ->
  exists v,
    submitted cfg opens (opener s) !! Z.to_nat (next_ptr s) = Some v
    /\ fdescs s !! Z.to_nat (Z.rem (next_ptr s) FDESCS) = Some v.
Proof.
  intros Hn [Hw Hf Ho Hu Ha Hx Ht Hc Hs Hfc He Hok] [Rl Rz Rs Re Ru Rx Rd] Hpos.
  destruct (todo_nonneg cfg opens (opener s) Hn Hok) as [_ Hpend].
  unfold unclaimed in *.
  destruct (lookup_lt_is_Some_2 (submitted cfg opens (opener s))
              (Z.to_nat (next_ptr s))) as [v Hv]; [lia|].
  exists v. split; [done|]. rewrite Rs by lia. done.
Qed.

Lemma ring_worker_inv cfg opens s s' i :
  0 <= nthreads cfg ->
  Z.of_nat (length opens) + nthreads cfg <= INT_MAX ->
  pipe_inv cfg opens s -> ring_inv cfg opens s ->
  worker_step i s = Some s' ->
  ring_inv cfg opens s'.
Proof.
  intros Hn Hmax Hinv Hring Hstep.
  pose proof (claimed_slot cfg opens s Hn Hinv Hring) as Hslot.
  destruct Hinv as [Hw Hf Ho Hu Ha Hx Ht Hc Hs Hfc He Hok].
  destruct Hring as [Rl Rz Rs Re Ru Rx Rd].
  unfold worker_step in Hstep. unfold INT_MAX in Hmax.
  destruct (todo_nonneg cfg opens (opener s) Hn Hok) as [Htodo Hpend].
  assert (Hhold : 0 <= hold s) by (unfold hold; lia).
  assert (Hoh : 0 <= opener_hold (opener s))
    by (destruct (opener s); simpl; lia).
  unfold unclaimed, FDESCS, MAXTHREADS in Hu, Ha.
  destruct (workers s !! i) as [w|] eqn:Hwi; [|done].
  destruct w as [|fd|]; [| |done].
  - destruct (Z.ltb_spec 0 (opencount s)) as [Hpos|]; [|done].
    destruct (Hslot Hpos) as (v & Hv & Hfd). rewrite Hfd in Hstep.
    cbn [default] in Hstep.
    rewrite (wrap_int_id (next_ptr s + 1)) in Hstep by (unfold is_int; lia).
    injection Hstep as <-.
    pose proof (sum_list_insert exited (workers s) i _ (WorkerGot v) Hwi) as Hg.
    pose proof (sum_list_insert holding_end (workers s) i _ (WorkerGot v) Hwi)
      as Hh.
    cbn [exited holding_end] in Hg, Hh.
    split;
      cbn [fcount opencount fdescs free_ptr next_ptr file_count
           expected_file_count opener workers unopened scanned];
      try done.
    + unfold store. by rewrite length_insert.
    + intros j Hj. unfold store.
      rewrite list_lookup_insert_ne by (apply slot_ne; lia).
      apply Rs. lia.
    + replace (Z.to_nat (next_ptr s + 1)) with (S (Z.to_nat (next_ptr s)))
        by lia.
      rewrite (take_S_r _ _ _ Hv), count_ends_app, count_ends_one, Re. lia.
  - pose proof (sum_list_insert exited (workers s) i _ WorkerExit Hwi) as Hg.
    pose proof (sum_list_insert holding_end (workers s) i _ WorkerExit Hwi)
      as Hh.
    pose proof (sum_list_insert exited (workers s) i _ WorkerClaim Hwi) as Hg'.
    pose proof (sum_list_insert holding_end (workers s) i _ WorkerClaim Hwi)
      as Hh'.
    cbn [exited holding_end] in Hg, Hh, Hg', Hh'.
    destruct (Z.eqb fd (-2)); injection Hstep as <-;
      (split;
       cbn [fcount opencount fdescs free_ptr next_ptr file_count
            expected_file_count opener workers unopened scanned];
       try done); rewrite Re; lia.
Qed.

Lemma ring_reach_inv cfg opens s :
  0 <= nthreads cfg ->
  Z.of_nat (length opens) + nthreads cfg <= INT_MAX ->
  rtc (pipe_step cfg opens) (pipe_init cfg) s ->
  pipe_inv cfg opens s /\ ring_inv cfg opens s.
Proof.
  intros Hn Hmax. revert s. apply rtc_ind_r.
  - split; [by apply pipe_init_inv|apply ring_init_inv].
  - intros s1 s2 _ [Hstep|[i Hstep]] [IH1 IH2].
    + split; [by apply (pipe_opener_inv cfg opens s1 s2)|].
      by apply (ring_opener_inv cfg opens s1 s2).
    + split; [by apply (pipe_worker_inv cfg opens s1 s2 i)|].
      by apply (ring_worker_inv cfg opens s1 s2 i).
Qed.

Lemma count_ends_none (l : list Z) :
  Forall (fun r => r <> -2) l -> count_ends l = 0%nat.
Proof.
  unfold count_ends. induction 1 as [|x l Hx _ IH]; [done|].
  by rewrite filter_cons_False.
Qed.

Lemma count_ends_replicate (n : nat) : count_ends (replicate n (-2)) = n.
Proof.
  unfold count_ends. induction n as [|n IH]; [done|].
  cbn [replicate]. rewrite filter_cons_True by done. simpl. by rewrite IH.
Qed.

Lemma opened_from_handles (opens : list Z) (nf : nat) :
  Forall (fun r => -1 <= r) opens ->
  Forall (fun r => r <> -2) (opened_from opens nf).
Proof.
  intros Hop. apply Forall_forall. intros x Hx.
  apply list_elem_of_filter in Hx as [_ Hx]. rewrite elem_of_reverse in Hx.
  apply (Forall_drop _ nf) in Hop. rewrite Forall_forall in Hop.
  specialize (Hop x Hx). simpl in Hop. lia.
Qed.

Lemma count_ends_submitted cfg opens pc (k : nat) :
  Forall (fun r => -1 <= r) opens ->
  count_ends (take k (submitted cfg opens pc))
  = ((k - length (opened_from opens (sweep_pos opens pc)))
       `min` ends_stored cfg pc)%nat.
Proof.
  intros Hop. unfold submitted.
  rewrite take_app, count_ends_app, take_replicate, count_ends_replicate.
  rewrite count_ends_none; [done|].
  by apply Forall_take, opened_from_handles.
Qed.

Lemma failed_from_le (opens : list Z) (nf : nat) :
  (length (failed_from opens nf) <= length (failed_from opens 0))%nat.
Proof.
  unfold failed_from. rewrite drop_0.
  rewrite <- (take_drop nf opens) at 2. rewrite filter_app, length_app. lia.
Qed.

Lemma opened_from_length (opens : list Z) :
  length (opened_from opens 0) = length (filter (fun r => r <> -1) opens).
Proof.
  unfold opened_from. by rewrite drop_0, filter_reverse, length_reverse.
Qed.

Lemma workers_cases (l : list worker_pc) :
  (exists i fd, l !! i = Some (WorkerGot fd))
  \/ ((exists i, l !! i = Some WorkerClaim)
      /\ sum_list (holding <$> l) = 0%nat)
  \/ Forall (fun w => w = WorkerExit) l.
Proof.
  induction l as [|w l IH]; [right; right; constructor|].
  destruct w as [|fd|]; [|left; by exists 0%nat, fd|].
  - destruct IH as [(i & fd & Hi)|[[_ Hh]|Hall]].
    + left. by exists (S i), fd.
    + right; left. split; [by exists 0%nat|done].
    + right; left. split; [by exists 0%nat|].
      rewrite fmap_cons. simpl. clear -Hall.
      induction Hall as [|w l -> _ IH]; [done|].
      rewrite fmap_cons. simpl. done.
  - destruct IH as [(i & fd & Hi)|[[[i Hi] Hh]|Hall]].
    + left. by exists (S i), fd.
    + right; left. split; [by exists (S i)|done].
    + right; right. by constructor.
Qed.

Lemma exited_le (l : list worker_pc) :
  (sum_list (exited <$> l) <= length l)%nat.
Proof.
  induction l as [|w l IH]; [done|]. rewrite fmap_cons.
  destruct w; simpl in *; lia.
Qed.

Lemma exited_lt (l : list worker_pc) (i : nat) :
  l !! i = Some WorkerClaim -> (sum_list (exited <$> l) < length l)%nat.
Proof.
  intros Hi.
  pose proof (sum_list_insert exited l i _ WorkerExit Hi) as Hs.
  pose proof (exited_le (<[i := WorkerExit]> l)) as Hle.
  rewrite length_insert in Hle. simpl in Hs. lia.
Qed.

Lemma exited_all (l : list worker_pc) :
  Forall (fun w => w = WorkerExit) l ->
  sum_list (exited <$> l) = length l
  /\ sum_list (holding <$> l) = 0%nat.
Proof.
  induction 1 as [|w l -> _ [IH1 IH2]]; [done|].
  rewrite !fmap_cons. simpl. split; [by rewrite IH1|done].
Qed.

Lemma holding_end_le (l : list worker_pc) :
  (sum_list (holding_end <$> l) <= sum_list (holding <$> l))%nat.
Proof.
  induction l as [|w l IH]; [done|]. rewrite !fmap_cons.
  destruct w as [|fd|]; simpl; [lia| |lia].
  destruct (Z.eqb fd (-2)); lia.
Qed.

Lemma worker_got_steps (s : pipe_state) (i : nat) (fd : Z) :
  workers s !! i = Some (WorkerGot fd) ->
  exists s', worker_step i s = Some s'.
Proof.
  intros Hi. unfold worker_step. rewrite Hi.
  destruct (Z.eqb fd (-2)); by eexists.
Qed.

Lemma worker_claim_steps (s : pipe_state) (i : nat) :
  workers s !! i = Some WorkerClaim -> 0 < opencount s ->
  exists s', worker_step i s = Some s'.
Proof.
  intros Hi Hpos. unfold worker_step. rewrite Hi.
  destruct (Z.ltb_spec 0 (opencount s)); [by eexists|lia].
Qed.

(** Unless [main] has joined the threads, some thread can step, when
    the failed opens leave a unit of [fcount] for every end marker. *)
Lemma pipe_progress cfg opens s :
  1 <= nthreads cfg ->
  Forall (fun r => -1 <= r) opens ->
  Z.of_nat (length (failed_from opens 0)) + nthreads cfg <= 64 ->
  pipe_inv cfg opens s -> ring_inv cfg opens s ->
  joined s \/ exists s', pipe_step cfg opens s s'.
Proof.
  intros Hn Hop Hfail [Hw Hf Ho Hu Ha Hx Ht Hc Hs Hfc He Hok]
    [Rl Rz Rs Re Ru Rx Rd].
  unfold unclaimed, hold, gone, FDESCS, MAXTHREADS in *.
  rewrite (count_ends_submitted cfg opens _ _ Hop) in Re.
  pose proof (failed_from_le opens (sweep_pos opens (opener s))) as Hfl.
  pose proof (holding_end_le (workers s)) as Hhe.
  assert (Hlen : free_ptr s
    = Z.of_nat (length (opened_from opens (sweep_pos opens (opener s))))
      + Z.of_nat (ends_stored cfg (opener s))).
  { rewrite Rl. unfold submitted. rewrite length_app, length_replicate. lia. }
  assert (Hworkers :
    (forall i, workers s !! i = Some WorkerClaim ->
       sum_list (holding <$> workers s) = 0%nat -> 0 < opencount s) ->
    (Forall (fun w => w = WorkerExit) (workers s) -> joined s) ->
    joined s \/ exists s', pipe_step cfg opens s s').
  { intros Hopen Hexit.
    destruct (workers_cases (workers s)) as [(i & fd & Hi)|[[[i Hi] Hh]|Hall]].
    - destruct (worker_got_steps s i fd Hi) as [s' Hs'].
      right. exists s'. right. by exists i.
    - destruct (worker_claim_steps s i Hi (Hopen i Hi Hh)) as [s' Hs'].
      right. exists s'. right. by exists i.
    - left. by apply Hexit. }
  destruct (opener s) as [|nf|nf|nf|n|n|] eqn:Hpc;
    cbn [opener_hold pending_end todo opener_ok sweep_pos ends_stored] in *.
  - right. eexists. left. unfold opener_step. by rewrite Hpc.
  - right. eexists. left. unfold opener_step. by rewrite Hpc.
  - destruct (decide (0 < fcount s)) as [Hpos|Hz].
    + right. eexists. left. unfold opener_step. rewrite Hpc.
      destruct (Z.ltb_spec 0 (fcount s)); [done|lia].
    + apply Hworkers.
      * intros i Hi Hh. lia.
      * intros Hall. destruct (exited_all _ Hall) as [Hg Hh]. lia.
  - right. destruct (lookup_lt_is_Some_2 opens (Z.to_nat nf)) as [r Hr];
      [lia|].
    unfold pipe_step, opener_step. rewrite Hpc, Hr.
    destruct (Z.eqb r (-1)); eexists; by left.
  - right. unfold pipe_step, opener_step. rewrite Hpc.
    destruct (Z.ltb n (nthreads cfg)); eexists; by left.
  - destruct (decide (0 < fcount s)) as [Hpos|Hz].
    + right. eexists. left. unfold opener_step. rewrite Hpc.
      destruct (Z.ltb_spec 0 (fcount s)); [done|lia].
    + apply Hworkers.
      * intros i Hi Hh. lia.
      * intros Hall. destruct (exited_all _ Hall) as [Hg Hh]. lia.
  - apply Hworkers.
    + intros i Hi Hh. pose proof (exited_lt _ _ Hi) as Hlt. lia.
    + intros Hall. by split.
Qed.

Lemma pipe_measure_nonneg cfg opens s :
  0 <= nthreads cfg -> pipe_inv cfg opens s -> 0 <= pipe_measure cfg opens s.
Proof.
  intros Hn [Hw Hf Ho Hu Ha Hx Ht Hc Hs Hfc He Hok].
  destruct (todo_nonneg cfg opens (opener s) Hn Hok) as [Htodo Hpend].
  unfold pipe_measure, unclaimed, hold in *.
  destruct (opener s); cbn [opener_weight opener_ok] in *; lia.
Qed.

Lemma pipe_step_measure cfg opens s s' :
  0 <= nthreads cfg ->
  Z.of_nat (length opens) + nthreads cfg <= INT_MAX ->
  pipe_inv cfg opens s -> pipe_step cfg opens s s' ->
  pipe_measure cfg opens s' < pipe_measure cfg opens s.
Proof.
  intros Hn Hmax [Hw Hf Ho Hu Ha Hx Ht Hc Hs Hfc He Hok] Hstep.
  destruct (todo_nonneg cfg opens (opener s) Hn Hok) as [Htodo Hpend].
  unfold INT_MAX in Hmax. unfold pipe_measure, unclaimed, hold in *.
  destruct Hstep as [Hstep|[i Hstep]].
  - unfold opener_step in Hstep.
    destruct (opener s) as [|nf|nf|nf|n|n|] eqn:Hpc;
      cbn [opener_hold pending_end todo opener_ok] in *.
    + injection Hstep as <-. simpl.
      rewrite wrap_int_id by (unfold is_int; lia). lia.
    + injection Hstep as <-. simpl.
      destruct (Z.eqb_spec nf 0) as [->|Hne]; simpl; [lia|].
      rewrite wrap_int_id by (unfold is_int; lia). lia.
    + destruct (Z.ltb 0 (fcount s)); [|done]. injection Hstep as <-.
      simpl. lia.
    + destruct (opens !! Z.to_nat nf) as [r|]; [|done].
      destruct (Z.eqb r (-1)); injection Hstep as <-; simpl; lia.
    + destruct (Z.ltb_spec n (nthreads cfg)); injection Hstep as <-;
        simpl; lia.
    + destruct (Z.ltb 0 (fcount s)); [|done]. injection Hstep as <-.
      simpl. rewrite (wrap_int_id (n + 1)) by (unfold is_int; lia). lia.
    + done.
  - unfold worker_step in Hstep.
    destruct (workers s !! i) as [w|] eqn:Hwi; [|done].
    destruct w as [|fd|]; [| |done].
    + destruct (Z.ltb_spec 0 (opencount s)); [|done].
      injection Hstep as <-.
      pose proof (sum_list_insert holding (workers s) i _ (WorkerGot
        (default 0 (fdescs s !! Z.to_nat (Z.rem (next_ptr s) FDESCS)))) Hwi)
        as Hh.
      cbn [holding] in Hh.
      cbn [fcount opencount fdescs free_ptr next_ptr file_count
           expected_file_count opener workers unopened scanned].
      rewrite wrap_int_id by (unfold is_int; lia). lia.
    + pose proof (sum_list_insert holding (workers s) i _ WorkerExit Hwi)
        as Hh.
      pose proof (sum_list_insert holding (workers s) i _ WorkerClaim Hwi)
        as Hh'.
      cbn [holding] in Hh, Hh'.
      destruct (Z.eqb fd (-2)); injection Hstep as <-;
        cbn [fcount opencount fdescs free_ptr next_ptr file_count
             expected_file_count opener workers unopened scanned]; lia.
Qed.

Lemma pipe_completes cfg opens (fuel : nat) : forall s,
  1 <= nthreads cfg ->
  Z.of_nat (length opens) + nthreads cfg <= INT_MAX ->
  Forall (fun r => -1 <= r) opens ->
  Z.of_nat (length (failed_from opens 0)) + nthreads cfg <= 64 ->
  pipe_inv cfg opens s -> ring_inv cfg opens s ->
  pipe_measure cfg opens s <= Z.of_nat fuel ->
  exists s', rtc (pipe_step cfg opens) s s' /\ joined s'.
Proof.
  induction fuel as [|fuel IH]; intros s Hn Hmax Hop Hfail Hinv Hring Hm;
    (destruct (pipe_progress cfg opens s Hn Hop Hfail Hinv Hring)
       as [Hj|[s' Hstep]]; [by exists s|]);
    pose proof (pipe_step_measure cfg opens s s' ltac:(lia) Hmax Hinv Hstep)
      as Hlt;
    assert (Hinv' : pipe_inv cfg opens s' /\ ring_inv cfg opens s')
      by (destruct Hstep as [Hs|[i Hs]];
          [split; [by apply (pipe_opener_inv cfg opens s s'); try lia
                  |by apply (ring_opener_inv cfg opens s s'); try lia]
          |split; [by apply (pipe_worker_inv cfg opens s s' i); try lia
                  |by apply (ring_worker_inv cfg opens s s' i); try lia]]);
    destruct Hinv' as [Hinv' Hring'];
    pose proof (pipe_measure_nonneg cfg opens s' ltac:(lia) Hinv') as Hnn;
    [lia|].
  destruct (IH s') as (s'' & Hrtc & Hj); try done; [lia|].
  exists s''. split; [|done]. by eapply rtc_l.
Qed.

Lemma joined_drained cfg opens s :
  1 <= nthreads cfg ->
  Forall (fun r => -1 <= r) opens ->
  pipe_inv cfg opens s -> ring_inv cfg opens s -> joined s ->
  next_ptr s = free_ptr s
  /\ scanned s = Z.of_nat (length (opened_from opens 0))
  /\ hold s = 0
  /\ length (unopened s) = length (failed_from opens 0).
Proof.
  intros Hn Hop [Hw Hf Ho Hu Ha Hx Ht Hc Hs Hfc He Hok]
    [Rl Rz Rs Re Ru Rx Rd] [Hdone Hall].
  destruct (exited_all _ Hall) as [Hg Hh].
  pose proof (holding_end_le (workers s)) as Hhe.
  rewrite (count_ends_submitted cfg opens _ _ Hop) in Re.
  unfold submitted in Rl. rewrite length_app, length_replicate in Rl.
  unfold unclaimed, hold, gone in *. rewrite Hdone in *.
  cbn [opener_hold pending_end todo opener_ok sweep_pos ends_stored] in *.
  repeat split; lia.
Qed.

(** ** The ring as a queue *)

(** X17.  In every state a run can reach, the slots of [fdescs] from
    [next_ptr] up to [free_ptr], taken modulo 64, hold what the producer
    has stored and no worker has claimed yet, in the order of the
    stores: the descriptors of the files that opened, from the last file
    of the list down to the first, and after them the end markers.  A
    failed [open] writes its -1 into the slot at [free_ptr], outside
    that range. *)
Theorem ring_holds_submitted (cfg : config) (opens : list Z)
    (s : pipe_state) :
  0 <= nthreads cfg ->
  Z.of_nat (length opens) + nthreads cfg <= INT_MAX ->
  rtc (pipe_step cfg opens) (pipe_init cfg) s ->
  0 <= next_ptr s <= free_ptr s
  /\ free_ptr s = Z.of_nat (length (submitted cfg opens (opener s)))
  /\ forall j, next_ptr s <= j < free_ptr s ->
       fdescs s !! Z.to_nat (Z.rem j FDESCS)
       = submitted cfg opens (opener s) !! Z.to_nat j.
Proof.
  intros Hn Hmax Hreach.
  destruct (ring_reach_inv cfg opens s Hn Hmax Hreach) as [Hinv Hring].
  destruct Hinv as [Hw Hf Ho Hu Ha Hx Ht Hc Hs Hfc He Hok].
  destruct (todo_nonneg cfg opens (opener s) Hn Hok) as [_ Hpend].
  unfold unclaimed in *.
  split; [lia|]. split; [apply Hring|]. apply Hring.
Qed.

Lemma ring_holds_submitted_witness :
  let cfg := Config 2 16 false false in
  let opens := [3; -1; 4] in
  let s := run_schedule cfg opens
             (replicate 8 None ++ [Some 0%nat]) (pipe_init cfg) in
  0 <= next_ptr s <= free_ptr s
  /\ free_ptr s = Z.of_nat (length (submitted cfg opens (opener s)))
  /\ forall j, next_ptr s <= j < free_ptr s ->
       fdescs s !! Z.to_nat (Z.rem j FDESCS)
       = submitted cfg opens (opener s) !! Z.to_nat j.
Proof.
  apply (ring_holds_submitted (Config 2 16 false false) [3; -1; 4]).
  - simpl. lia.
  - unfold INT_MAX. simpl. lia.
  - apply run_schedule_reach.
Defined.

(** X18.  Handles are claimed in the order in which they were stored: a
    worker that gets through [opencount.acquire()] when [next_ptr] is
    [k] takes the [k]-th value that the producer stored, and moves
    [next_ptr] to [k + 1].  So every stored handle is claimed by one
    worker only, and none is skipped. *)
Theorem claims_in_order (cfg : config) (opens : list Z)
    (s s' : pipe_state) (i : nat) :
  0 <= nthreads cfg ->
  Z.of_nat (length opens) + nthreads cfg <= INT_MAX ->
  rtc (pipe_step cfg opens) (pipe_init cfg) s ->
  workers s !! i = Some WorkerClaim ->
  worker_step i s = Some s' ->
  exists v,
    submitted cfg opens (opener s) !! Z.to_nat (next_ptr s) = Some v
    /\ workers s' !! i = Some (WorkerGot v)
    /\ next_ptr s' = next_ptr s + 1
    /\ free_ptr s' = free_ptr s.
Proof.
  intros Hn Hmax Hreach Hwi Hstep.
  destruct (ring_reach_inv cfg opens s Hn Hmax Hreach) as [Hinv Hring].
  pose proof (claimed_slot cfg opens s Hn Hinv Hring) as Hslot.
  destruct Hinv as [Hw Hf Ho Hu Ha Hx Ht Hc Hs Hfc He Hok].
  destruct (todo_nonneg cfg opens (opener s) Hn Hok) as [Htodo Hpend].
  unfold INT_MAX in Hmax. unfold unclaimed in *.
  unfold worker_step in Hstep. rewrite Hwi in Hstep.
  destruct (Z.ltb_spec 0 (opencount s)) as [Hpos|]; [|done].
  destruct (Hslot Hpos) as (v & Hv & Hfd). rewrite Hfd in Hstep.
  cbn [default] in Hstep.
  rewrite (wrap_int_id (next_ptr s + 1)) in Hstep by (unfold is_int; lia).
  injection Hstep as <-. exists v.
  cbn [fcount opencount fdescs free_ptr next_ptr file_count
       expected_file_count opener workers unopened scanned].
  split; [done|]. split; [|done].
  apply list_lookup_insert_eq. by apply lookup_lt_Some in Hwi.
Qed.

Lemma claims_in_order_witness :
  let cfg := Config 1 16 false false in
  let opens := [3; 4] in
  let s := run_schedule cfg opens (replicate 8 None ++ [Some 0%nat; Some 0%nat])
             (pipe_init cfg) in
  let s' := run_schedule cfg opens [Some 0%nat] s in
  exists v,
    submitted cfg opens (opener s) !! Z.to_nat (next_ptr s) = Some v
    /\ workers s' !! 0%nat = Some (WorkerGot v)
    /\ next_ptr s' = next_ptr s + 1
    /\ free_ptr s' = free_ptr s.
Proof.
  apply (claims_in_order (Config 1 16 false false) [3; 4]).
  - simpl. lia.
  - unfold INT_MAX. simpl. lia.
  - apply run_schedule_reach.
  - vm_compute. reflexivity.
  - vm_compute. reflexivity.
Defined.

(** ** The counters when the threads are joined *)

Lemma filter_all_length (l : list Z) :
  Forall (fun r => r <> -1) l ->
  length (filter (fun r => r <> -1) l) = length l.
Proof.
  induction 1 as [|x l Hx _ IH]; [done|].
  rewrite filter_cons_True by done. simpl. by rewrite IH.
Qed.

(** X19.  With at least one worker, when [main] gets past the joins the
    queue is empty and balanced: every stored handle was claimed,
    [opencount] is 0, [file_count] is the number of files that opened,
    each of them was read to its end by some worker, [fcount] is back at
    64 less one unit for every file that failed to open, and
    [expected_file_count] is the number of files found, or 0 in a silent
    run. *)
Theorem joined_counts (cfg : config) (opens : list Z) (s : pipe_state) :
  1 <= nthreads cfg ->
  Z.of_nat (length opens) + nthreads cfg <= INT_MAX ->
  Forall (fun r => -1 <= r) opens ->
  rtc (pipe_step cfg opens) (pipe_init cfg) s ->
  joined s ->
  next_ptr s = free_ptr s
  /\ opencount s = 0
  /\ file_count s = Z.of_nat (length (filter (fun r => r <> -1) opens))
  /\ scanned s = file_count s
  /\ fcount s = 64 - Z.of_nat (length (filter (fun r => r = -1) opens))
  /\ expected_file_count s
     = (if silent cfg then 0 else Z.of_nat (length opens)).
Proof.
  intros Hn Hmax Hop Hreach Hj.
  destruct (ring_reach_inv cfg opens s ltac:(lia) Hmax Hreach)
    as [Hinv Hring].
  destruct (joined_drained cfg opens s Hn Hop Hinv Hring Hj)
    as (Hptr & Hsc & Hh & Hun).
  rewrite opened_from_length in Hsc.
  unfold failed_from in Hun. rewrite drop_0 in Hun.
  destruct Hinv as [Hw Hf Ho Hu Ha Hx Ht Hc Hs Hfc He Hok].
  destruct Hj as [Hdone _]. unfold unclaimed, FDESCS, MAXTHREADS in *.
  rewrite Hdone in *. cbn [opener_hold pending_end] in *.
  repeat split; try lia.
  destruct (silent cfg) eqn:Hsil; [by apply He|].
  apply (ri_expected _ _ _ Hring Hsil). by rewrite Hdone.
Qed.

Lemma joined_counts_witness :
  let cfg := Config 1 16 false false in
  let opens := [3; -1] in
  let s := run_schedule cfg opens
             (replicate 11 None ++ replicate 4 (Some 0%nat))
             (pipe_init cfg) in
  next_ptr s = free_ptr s
  /\ opencount s = 0
  /\ file_count s = Z.of_nat (length (filter (fun r => r <> -1) opens))
  /\ scanned s = file_count s
  /\ fcount s = 64 - Z.of_nat (length (filter (fun r => r = -1) opens))
  /\ expected_file_count s
     = (if silent cfg then 0 else Z.of_nat (length opens)).
Proof.
  apply (joined_counts (Config 1 16 false false) [3; -1]).
  - simpl. lia.
  - unfold INT_MAX. simpl. lia.
  - apply Forall_cons; split; [lia|].
    apply Forall_cons; split; [lia|]. apply List.Forall_nil.
  - apply run_schedule_reach.
  - vm_compute. split; [reflexivity|].
    apply Forall_cons; split; [reflexivity|]. apply List.Forall_nil.
Defined.

(** X20.  In a run that is not silent, with at least one worker, the
    comparison of line 337 fails exactly when some file failed to open:
    [main] then reports the number of files found and the number that
    opened, and exits before the table is sorted; when every file
    opened the two counters are equal. *)
Theorem verbose_mismatch_iff_failed_open (cfg : config) (opens : list Z)
    (s : pipe_state) (blocks bytes : Z) (sub_counts : list WordCount) :
  silent cfg = false ->
  1 <= nthreads cfg ->
  Z.of_nat (length opens) + nthreads cfg <= INT_MAX ->
  Forall (fun r => -1 <= r) opens ->
  rtc (pipe_step cfg opens) (pipe_init cfg) s ->
  joined s ->
  (Exists (fun r => r = -1) opens ->
   main_tail cfg (file_count s) (expected_file_count s) blocks bytes
     sub_counts
   = ExitMismatch (Z.of_nat (length opens))
       (Z.of_nat (length (filter (fun r => r <> -1) opens))))
  /\ (Forall (fun r => r <> -1) opens ->
      file_count s = expected_file_count s).
Proof.
  intros Hsil Hn Hmax Hop Hreach Hj.
  destruct (ring_reach_inv cfg opens s ltac:(lia) Hmax Hreach)
    as [Hinv Hring].
  destruct (joined_drained cfg opens s Hn Hop Hinv Hring Hj)
    as (Hptr & Hsc & Hh & Hun).
  rewrite opened_from_length in Hsc.
  assert (Hexp : expected_file_count s = Z.of_nat (length opens)).
  { apply (ri_expected _ _ _ Hring Hsil). destruct Hj as [-> _]. done. }
  assert (Hfc : file_count s
                = Z.of_nat (length (filter (fun r => r <> -1) opens))).
  { rewrite (pi_file_count _ _ _ Hinv). lia. }
  rewrite Hexp, Hfc. split.
  - intros Hex. apply Exists_exists in Hex as (x & Hx & ->).
    pose proof (length_filter_lt (fun r => r <> -1) opens (-1) Hx
                  ltac:(intros H; by apply H)) as Hlt.
    unfold main_tail.
    destruct (Z.eqb_spec (Z.of_nat (length (filter (fun r => r <> -1) opens)))
                (Z.of_nat (length opens))); [lia|done].
  - intros Hall. by rewrite filter_all_length.
Qed.

Lemma verbose_mismatch_iff_failed_open_witness :
  let cfg := Config 1 16 false false in
  let opens := [3; -1] in
  let s := run_schedule cfg opens
             (replicate 11 None ++ replicate 4 (Some 0%nat))
             (pipe_init cfg) in
  (Exists (fun r => r = -1) opens ->
   main_tail cfg (file_count s) (expected_file_count s) 1 5 [∅]
   = ExitMismatch (Z.of_nat (length opens))
       (Z.of_nat (length (filter (fun r => r <> -1) opens))))
  /\ (Forall (fun r => r <> -1) opens ->
      file_count s = expected_file_count s).
Proof.
  apply (verbose_mismatch_iff_failed_open (Config 1 16 false false) [3; -1]).
  - reflexivity.
  - simpl. lia.
  - unfold INT_MAX. simpl. lia.
  - apply Forall_cons; split; [lia|].
    apply Forall_cons; split; [lia|]. apply List.Forall_nil.
  - apply run_schedule_reach.
  - vm_compute. split; [reflexivity|].
    apply Forall_cons; split; [reflexivity|]. apply List.Forall_nil.
Defined.

(** ** Runs that get to the joins *)

(** X21.  With at least one worker, a run can get past the joins of
    lines 330-334 exactly when the files that fail to open and the
    workers together number at most 64: every failed open keeps a unit
    of [fcount], and the producer needs one unit for each end marker
    before it announces any of them.  Within that bound no schedule
    leads to a deadlock: from every state a run can reach, the threads
    can be run on until all have returned. *)
Theorem run_completes_iff (cfg : config) (opens : list Z) :
  1 <= nthreads cfg ->
  Z.of_nat (length opens) + nthreads cfg <= INT_MAX ->
  Forall (fun r => -1 <= r) opens ->
  let failures := Z.of_nat (length (filter (fun r => r = -1) opens)) in
  ((exists s, rtc (pipe_step cfg opens) (pipe_init cfg) s /\ joined s)
   <-> failures + nthreads cfg <= 64)
  /\ (failures + nthreads cfg <= 64 ->
      forall s, rtc (pipe_step cfg opens) (pipe_init cfg) s ->
        exists s', rtc (pipe_step cfg opens) s s' /\ joined s').
Proof.
  intros Hn Hmax Hop failures.
  assert (Hf : failures = Z.of_nat (length (failed_from opens 0)))
    by (unfold failures, failed_from; by rewrite drop_0).
  assert (Hall : failures + nthreads cfg <= 64 ->
      forall s, rtc (pipe_step cfg opens) (pipe_init cfg) s ->
        exists s', rtc (pipe_step cfg opens) s s' /\ joined s').
  { intros Hfail s Hreach.
    destruct (ring_reach_inv cfg opens s ltac:(lia) Hmax Hreach)
      as [Hinv Hring].
    pose proof (pipe_measure_nonneg cfg opens s ltac:(lia) Hinv) as Hnn.
    apply (pipe_completes cfg opens
             (Z.to_nat (pipe_measure cfg opens s))); try done; lia. }
  split; [split|done].
  - intros (s & Hreach & Hj).
    destruct (ring_reach_inv cfg opens s ltac:(lia) Hmax Hreach)
      as [Hinv Hring].
    rewrite Hf. apply (ri_done _ _ _ Hring). by destruct Hj.
  - intros Hfail. destruct (Hall Hfail (pipe_init cfg)) as (s & Hs & Hj);
      [done|]. by exists s.
Qed.

Lemma run_completes_iff_witness :
  let cfg := Config 2 16 false false in
  let opens := [3; -1; 4] in
  let failures := Z.of_nat (length (filter (fun r => r = -1) opens)) in
  ((exists s, rtc (pipe_step cfg opens) (pipe_init cfg) s /\ joined s)
   <-> failures + nthreads cfg <= 64)
  /\ (failures + nthreads cfg <= 64 ->
      forall s, rtc (pipe_step cfg opens) (pipe_init cfg) s ->
        exists s', rtc (pipe_step cfg opens) s s' /\ joined s').
Proof.
  apply (run_completes_iff (Config 2 16 false false) [3; -1; 4]).
  - simpl. lia.
  - unfold INT_MAX. simpl. lia.
  - apply Forall_cons; split; [lia|].
    apply Forall_cons; split; [lia|].
    apply Forall_cons; split; [lia|]. apply List.Forall_nil.
Defined.

(** ** The worker numbers *)

(** X22.  The worker numbers that [main] uses as indices into
    [my_threads], [ready_for_merge], [buffers] and [sub_count] all lie
    inside those arrays exactly when [nthreads] is at most
    [MAXTHREADS]. *)
Theorem worker_ids_in_bounds (cfg : config) :
  Forall in_bounds (worker_ids cfg) <-> nthreads cfg <= MAXTHREADS.
Proof.
  unfold worker_ids, in_bounds, MAXTHREADS. split.
  - intros Hall. destruct (decide (nthreads cfg <= 64)) as [|Hgt]; [done|].
    rewrite Forall_forall in Hall.
    assert (Hin : 64 ∈ Z.of_nat <$> seq 0 (Z.to_nat (nthreads cfg))).
    { apply list_elem_of_fmap. exists 64%nat. split; [done|].
      apply list_elem_of_In, in_seq. lia. }
    specialize (Hall 64 Hin). simpl in Hall. lia.
  - intros Hle. apply Forall_forall. intros x Hx.
    apply list_elem_of_fmap in Hx as (k & -> & Hk).
    apply list_elem_of_In, in_seq in Hk. lia.
Qed.

(** ** A whole run *)

Lemma wcounter_files_words (files : list (list (list ascii))) :
  forall (buffer : list ascii) (t : tally),
  Forall (file_ok (length buffer)) files ->
  exists buffer' t',
    wcounter_files files buffer t = Some (buffer', t')
    /\ sub_count t' = count_words (sub_count t) (worker_words files)
    /\ printed t' = printed t.
Proof.
  induction files as [|blocks files IH]; intros buffer t Hall.
  - exists buffer, t. done.
  - apply Forall_cons in Hall as [(Hfit & Hshort & Hinner) Hrest].
    destruct (read_loop_abs blocks buffer None t Hfit I) as (b1 & Hlen & Hr).
    destruct (abs_blocks_runs blocks None t) as (t1 & Ha & Hc & Hp);
      [done..|].
    destruct (IH b1 t1) as (b2 & t2 & Hrun & Hc2 & Hp2).
    { rewrite Hlen. exact Hrest. }
    exists b2, t2. cbn [wcounter_files]. unfold wcounter_file.
    change (mem None) with (@None (list ascii)) in Hr.
    rewrite Hr, Ha. cbn [fmap option_fmap option_map]. split; [exact Hrun|].
    unfold worker_words. rewrite fmap_cons. cbn [concat].
    rewrite count_words_app.
    split; [|congruence]. rewrite Hc2. f_equal. exact Hc.
Qed.

Lemma occurrences_app (w : string) (a b : list (list ascii)) :
  occurrences w (a ++ b) = occurrences w a + occurrences w b.
Proof. unfold occurrences. rewrite filter_app, length_app. lia. Qed.

Lemma occurrences_nonneg (w : string) (ws : list (list ascii)) :
  0 <= occurrences w ws.
Proof. unfold occurrences. lia. Qed.

Lemma occurrences_cons (w : string) (x : list ascii)
    (ws : list (list ascii)) :
  occurrences w (x :: ws)
  = (if decide (string_of_list_ascii x = w) then 1 else 0) + occurrences w ws.
Proof.
  unfold occurrences. destruct (decide (string_of_list_ascii x = w)).
  - rewrite filter_cons_True by done. simpl. lia.
  - rewrite filter_cons_False by done. lia.
Qed.

Lemma count_words_lookup (w : string) (ws : list (list ascii)) :
  forall m : WordCount,
  count_words m ws !! w
  = if decide (occurrences w ws = 0) then m !! w
    else Some (wrap_int (count_of m w + occurrences w ws)).
Proof.
  induction ws as [|x ws IH]; intros m; [done|].
  change (count_words m (x :: ws))
    with (count_words (add_count m (string_of_list_ascii x) 1) ws).
  rewrite IH, occurrences_cons. clear IH.
  pose proof (occurrences_nonneg w ws) as Hnn.
  unfold add_count.
  destruct (decide (string_of_list_ascii x = w)) as [Hx|Hx].
  - rewrite Hx.
    assert (Hc : forall v, count_of (<[w := v]> m) w = v)
      by (intros v; unfold count_of; by rewrite lookup_insert_eq).
    rewrite Hc, lookup_insert_eq.
    destruct (decide (occurrences w ws = 0)) as [Hz|Hz];
      (destruct (decide (1 + occurrences w ws = 0)); [lia|]).
    + by rewrite Hz, Z.add_0_r.
    + rewrite wrap_int_add_l. do 2 f_equal. lia.
  - assert (Hc : forall v, count_of (<[string_of_list_ascii x := v]> m) w
                           = count_of m w)
      by (intros v; unfold count_of; by rewrite lookup_insert_ne).
    rewrite Hc, lookup_insert_ne, Z.add_0_l by done.
    destruct (decide (occurrences w ws = 0)); done.
Qed.

Lemma count_words_int (ws : list (list ascii)) : forall m : WordCount,
  int_table m -> int_table (count_words m ws).
Proof.
  induction ws as [|x ws IH]; intros m Hm; [done|].
  apply IH. unfold add_count. apply map_Forall_insert_2; [|done].
  apply wrap_int_is_int.
Qed.

Lemma big_count_words (wss : list (list (list ascii))) (w : string) :
  big ((fun ws => count_words ∅ ws) <$> wss) !! w
  = if decide (occurrences w (concat wss) = 0) then None
    else Some (wrap_int (occurrences w (concat wss))).
Proof.
  induction wss as [|ws wss IH]; [done|].
  rewrite fmap_cons. cbn [big foldr concat].
  change (foldr add_table ∅ ((fun ws => count_words ∅ ws) <$> wss))
    with (big ((fun ws => count_words ∅ ws) <$> wss)).
  rewrite lookup_add_table, IH, occurrences_app.
  pose proof (occurrences_nonneg w ws) as Hn1.
  pose proof (occurrences_nonneg w (concat wss)) as Hn2.
  unfold count_of. rewrite !count_words_lookup, lookup_empty.
  unfold count_of. rewrite lookup_empty. cbn [default].
  destruct (decide (occurrences w (concat wss) = 0)) as [Hz|Hz].
  - rewrite Hz, Z.add_0_r. done.
  - destruct (decide (occurrences w ws + occurrences w (concat wss) = 0));
      [lia|].
    destruct (decide (occurrences w ws = 0)) as [Hz1|Hz1]; cbn [default].
    + by rewrite Hz1, wrap_int_add_r.
    + unfold id. by rewrite !Z.add_0_l, wrap_int_add_l, wrap_int_add_r.
Qed.

(** X23.  The totals of a run, from the bytes of the files: when every
    worker scans the files it was given, each within the limits of the
    tokenizer, no diagnostic is printed and the sequential fold of
    [main] gives every word the number of its occurrences in all files
    of all workers, as an [int], and has no other key.  The result
    mentions the files only through their words, so it is the same
    however the files were handed to the workers and in whatever order
    each worker read its own. *)
Theorem run_totals (work : list (list (list (list ascii))))
    (buffer : list ascii) :
  Forall (Forall (file_ok (length buffer))) work ->
  exists tables : list WordCount,
    Forall2 (fun files table =>
               exists buffer' t',
                 wcounter_files files buffer empty_tally = Some (buffer', t')
                 /\ sub_count t' = table /\ printed t' = [])
            work tables
    /\ forall w : string,
         sequential_totals (Z.of_nat (length work)) tables !! w
         = if decide (occurrences w (run_words work) = 0) then None
           else Some (wrap_int (occurrences w (run_words work))).
Proof.
  intros Hok.
  exists ((fun ws => count_words ∅ ws) <$> (worker_words <$> work)). split.
  - rewrite <- list_fmap_compose. apply Forall2_fmap_r, Forall_Forall2_diag.
    eapply Forall_impl; [exact Hok|]. intros files Hfiles. simpl.
    destruct (wcounter_files_words files buffer empty_tally Hfiles)
      as (b' & t' & Hrun & Hc & Hp).
    by exists b', t'.
  - intros w.
    replace (length work)
      with (length ((fun ws => count_words ∅ ws) <$> (worker_words <$> work)))
      by by rewrite !length_fmap.
    rewrite sequential_totals_big.
    + apply big_count_words.
    + apply Forall_fmap, Forall_forall. intros ws _. simpl.
      apply count_words_int. apply map_Forall_empty.
Qed.

Lemma run_totals_witness :
  let work := [ [ [bytes "x ab"]; [bytes "cd y"] ]; [ [bytes "ab "; bytes "x"] ] ] in
  let buffer := replicate 8 NUL in
  exists tables : list WordCount,
    Forall2 (fun files table =>
               exists buffer' t',
                 wcounter_files files buffer empty_tally = Some (buffer', t')
                 /\ sub_count t' = table /\ printed t' = [])
            work tables
    /\ forall w : string,
         sequential_totals (Z.of_nat (length work)) tables !! w
         = if decide (occurrences w (run_words work) = 0) then None
           else Some (wrap_int (occurrences w (run_words work))).
Proof.
  apply (run_totals
           [ [ [bytes "x ab"]; [bytes "cd y"] ]; [ [bytes "ab "; bytes "x"] ] ]
           (replicate 8 NUL)).
  apply Forall_cons; split; [|apply Forall_cons; split; [|apply List.Forall_nil]].
  - apply Forall_cons; split; [|apply Forall_cons; split; [|apply List.Forall_nil]].
    + split; [|split; [|reflexivity]].
      * apply Forall_cons; split; [vm_compute; lia|apply List.Forall_nil].
      * vm_compute.
        apply Forall_cons; split; [reflexivity|].
        apply Forall_cons; split; [reflexivity|]. apply List.Forall_nil.
    + split; [|split; [|reflexivity]].
      * apply Forall_cons; split; [vm_compute; lia|apply List.Forall_nil].
      * vm_compute.
        apply Forall_cons; split; [reflexivity|].
        apply Forall_cons; split; [reflexivity|]. apply List.Forall_nil.
  - apply Forall_cons; split; [|apply List.Forall_nil].
    split; [|split; [|reflexivity]].
    + apply Forall_cons; split; [vm_compute; lia|].
      apply Forall_cons; split; [vm_compute; lia|apply List.Forall_nil].
    + vm_compute.
      apply Forall_cons; split; [reflexivity|].
      apply Forall_cons; split; [reflexivity|]. apply List.Forall_nil.
Defined.

(** ** The options, argument by argument *)




